(** * Evoked datasets of FIFF files: selection, assembly and writing

    A shallow embedding of [mne/fiff/evoked.py] ([Evoked.__init__],
    [Evoked.save], [read_evoked], [write_evoked]) and of the tag writers of
    [mne/fiff/write.py], followed by the properties of the reader and of
    the writer.

    Conventions.
    - Python and numpy floating point numbers are values of a type [F]
      carrying the operations of the class [Scalar]; no law is assumed of
      them unless a statement asks for [ZeroArith], the laws of the zeros
      that binary64 and the rationals keep, or for [ExactScalar].  The
      instances on [Qc] (exact rationals) and on binary64 ([Binary64])
      are used to run the model.
    - A numpy 2-D array is a [matrix]: its shape and its rows.
    - A raised exception is an [error]; functions that can raise return a
      [result].
    - A FIFF file is the sequence of the tags written to it; every tag has
      a byte size ([tag_size]) computed as [write.py] computes it. *)

From Stdlib Require Import String ZArith Bool Lia Arith List.
From Stdlib Require Import QArith Qcanon.
From Stdlib Require SpecFloat.
Import ListNotations.

Set Implicit Arguments.
Set Warnings "-register-all".

Local Open Scope Z_scope.

(** ** Scalars *)

(** The floating point operations the code uses.  [fle a b] is [a <= b],
    [flt a b] is [a < b], [to_f4] the conversion to single precision
    ([dtype='>f4']). *)
Class Scalar (F : Type) : Type := {
  fzero : F;
  fone : F;
  fadd : F -> F -> F;
  fsub : F -> F -> F;
  fmul : F -> F -> F;
  fdiv : F -> F -> F;
  of_int : Z -> F;
  to_f4 : F -> F;
  fle : F -> F -> bool;
  flt : F -> F -> bool
}.

(** The laws of exact arithmetic, under which scaling by [1 / c] and then
    by [c] gives every value back.  IEEE arithmetic keeps them up to
    rounding only, and on finite values. *)
Record ExactScalar (F : Type) (S : Scalar F) : Prop := {
  fadd_0_l : forall x : F, fadd fzero x = x;
  fadd_0_r : forall x : F, fadd x fzero = x;
  fmul_0_l : forall x : F, fmul fzero x = fzero;
  fmul_inv_cancel :
    forall c x : F, c <> fzero -> fmul c (fmul (fdiv fone c) x) = x
}.

(** The rationals: exact arithmetic, whose conversion to single precision
    rounds nothing. *)
Definition Qc_le_bool (a b : Qc) : bool :=
  match (a ?= b)%Qc with Gt => false | _ => true end.

Definition Qc_lt_bool (a b : Qc) : bool :=
  match (a ?= b)%Qc with Lt => true | _ => false end.

#[export] Instance Qc_scalar : Scalar Qc := {
  fzero := Q2Qc 0;
  fone := Q2Qc 1;
  fadd := Qcplus;
  fsub := Qcminus;
  fmul := Qcmult;
  fdiv := Qcdiv;
  of_int := fun z => Q2Qc (inject_Z z);
  to_f4 := fun x => x;
  fle := Qc_le_bool;
  flt := Qc_lt_bool
}.

(** [x == 0.0], which holds of [0.0] and of [-0.0] and not of nan. *)
Definition is_zero {F : Type} {SF : Scalar F} (x : F) : bool :=
  fle x fzero && fle fzero x.

(** [x] is neither infinite nor nan: [0.0 * x == 0.0]. *)
Definition is_finite {F : Type} {SF : Scalar F} (x : F) : bool :=
  is_zero (fmul fzero x).

(** The same value, or two zeros: [0.0] and [-0.0] are two values that
    compare equal. *)
Definition same_value {F : Type} {SF : Scalar F} (x y : F) : Prop :=
  x = y \/ (is_zero x = true /\ is_zero y = true).

(** What the sum of a row of [np.diag(v)] times a column rests on: the
    laws of the zeros.  They hold of exact arithmetic and of IEEE
    arithmetic alike, where a zero plus a zero is a zero, a zero plus
    another value is that value, and two zeros have products with a
    third value that are the same or two zeros. *)
Record ZeroArith (F : Type) (S : Scalar F) : Prop := {
  zero_is_zero : is_zero (fzero : F) = true;
  add_zeros :
    forall a b : F,
      is_zero a = true -> is_zero b = true -> is_zero (fadd a b) = true;
  add_zero_l :
    forall a p : F, is_zero a = true -> is_zero p = false -> fadd a p = p;
  add_zero_r :
    forall a p : F, is_zero a = true -> is_zero p = false -> fadd p a = p;
  mul_zeros :
    forall c a b : F,
      is_zero a = true -> is_zero b = true ->
      same_value (fmul c a) (fmul c b)
}.

(** [np.array(z, dtype='>i4')]: the 32-bit two's complement value.  The
    integers of the model are Python ints, which numpy converts so; for a
    Python long beyond the C long of the platform numpy raises an
    [OverflowError] instead, a case the model leaves out. *)
Definition to_i4 (z : Z) : Z := (z + 2 ^ 31) mod 2 ^ 32 - 2 ^ 31.

(** ** Exceptions *)

(** The messages of the [ValueError]s raised by [Evoked.__init__], and of
    those numpy raises for mismatched shapes. *)
Inductive value_error : Type :=
| Selector_must_be_positive
| Could_not_find_processed_data
| Could_not_find_evoked_data
| Selector_out_of_range
| Desired_data_set_not_found
| Local_channel_information_not_found
| Channel_definitions_differ
| Epoch_tags_unreasonable
| Incorrect_number_of_samples
| Shapes_not_aligned
| Negative_dimensions.

Inductive error : Type :=
| ValueError (e : value_error)
| TypeError
| IndexError
| UnboundLocalError
| NotImplementedError
| IOError
| LinAlgError
| ZeroDivisionError.

Inductive result (A : Type) : Type :=
| Ok (a : A)
| Raise (e : error).

Arguments Ok {A} a.
Arguments Raise {A} e.

Definition rbind {A B : Type} (r : result A) (k : A -> result B) : result B :=
  match r with
  | Ok a => k a
  | Raise e => Raise e
  end.

Declare Scope result_scope.
Delimit Scope result_scope with result.
Notation "x <- c ;; k" := (rbind c (fun x => k))
  (at level 61, c at next level, right associativity) : result_scope.
Notation "' pat <- c ;; k" := (rbind c (fun x => match x with pat => k end))
  (at level 61, pat pattern, c at next level, right associativity) : result_scope.

(** The error classes of the specification. *)
Inductive error_class : Type :=
| FormatStructureError
| SelectionRangeError
| DataConsistencyError
| OtherError.

Definition classify (e : error) : error_class :=
  match e with
  | ValueError Selector_must_be_positive => SelectionRangeError
  | ValueError Selector_out_of_range => SelectionRangeError
  | ValueError Could_not_find_processed_data => FormatStructureError
  | ValueError Could_not_find_evoked_data => FormatStructureError
  | ValueError Local_channel_information_not_found => DataConsistencyError
  | ValueError Channel_definitions_differ => DataConsistencyError
  | ValueError Epoch_tags_unreasonable => DataConsistencyError
  | ValueError Incorrect_number_of_samples => DataConsistencyError
  | _ => OtherError
  end.

(** ** Matrices *)

(** A numpy 2-D array: [shape = (nrows, ncols)] and the rows. *)
Record matrix (F : Type) : Type := mkMat {
  nrows : nat;
  ncols : nat;
  cells : list (list F)
}.

Definition wf_matrix {F : Type} (m : matrix F) : Prop :=
  length (cells m) = nrows m /\
  Forall (fun r => length r = ncols m) (cells m).

Section Matrices.
Context {F : Type} {SF : Scalar F}.

(** [sum(xs)], accumulated from the left. *)
Definition fsum (xs : list F) : F := fold_left fadd xs fzero.

(** [np.mean(xs)]. *)
Definition mean (xs : list F) : F :=
  fdiv (fsum xs) (of_int (Z.of_nat (length xs))).

(** Column [j] of the rows [rs]. *)
Definition column (j : nat) (rs : list (list F)) : list F :=
  map (fun r => nth j r fzero) rs.

(** [m.T] *)
Definition transpose (m : matrix F) : matrix F :=
  mkMat (ncols m) (nrows m)
        (map (fun j => column j (cells m)) (seq 0 (ncols m))).

(** [np.r_[a, b]]: the rows of [b] under the rows of [a]; numpy raises a
    [ValueError] when the column counts differ. *)
Definition r_ (a b : matrix F) : result (matrix F) :=
  if Nat.eqb (ncols a) (ncols b)
  then Ok (mkMat (nrows a + nrows b) (ncols a) (cells a ++ cells b))
  else Raise (ValueError Shapes_not_aligned).

(** [np.diag(v)] for a 1-D [v]. *)
Definition diag (v : list F) : matrix F :=
  let n := length v in
  mkMat n n
        (map (fun i => map (fun j => if Nat.eqb i j then nth i v fzero else fzero)
                           (seq 0 n))
             (seq 0 n)).

Definition dot_row (a : list F) (b : list F) : F :=
  fsum (map (fun p => fmul (fst p) (snd p)) (combine a b)).

(** [np.dot(a, b)] for 2-D arrays; numpy raises a [ValueError] when the
    inner dimensions differ. *)
Definition dot (a b : matrix F) : result (matrix F) :=
  if Nat.eqb (ncols a) (nrows b)
  then Ok (mkMat (nrows a) (ncols b)
                 (map (fun ra => map (fun j => dot_row ra (column j (cells b)))
                                     (seq 0 (ncols b)))
                      (cells a)))
  else Raise (ValueError Shapes_not_aligned).

(** [xs[lo:hi]] for non negative [lo] and [hi]. *)
Definition slice {A : Type} (lo hi : nat) (xs : list A) : list A :=
  firstn (hi - lo) (skipn lo xs).

(** [m -= np.mean(m[:, imin:imax], axis=1)[:, None]] *)
Definition subtract_row_means (imin imax : nat) (m : matrix F) : matrix F :=
  mkMat (nrows m) (ncols m)
        (map (fun r => map (fun x => fsub x (mean (slice imin imax r))) r)
             (cells m)).

(** Rows that hold the same values, entry by entry. *)
Definition same_cells (a b : list (list F)) : Prop :=
  Forall2 (Forall2 same_value) a b.

(** No entry of [m] is infinite or nan. *)
Definition all_finite (m : matrix F) : Prop :=
  Forall (Forall (fun x => is_finite x = true)) (cells m).

(** Scaling by [1 / c] and then by [c] gives back every entry of the row
    that goes with [c]. *)
Definition scaling_inverts (cs : list F) (rows : list (list F)) : Prop :=
  Forall2 (fun c row =>
             Forall (fun x => fmul c (fmul (fdiv fone c) x) = x) row)
          cs rows.

End Matrices.

(** ** The data model *)

(** Block kinds.  Modelled from the spec: the constants module
    ([constants.py], [FIFF.FIFFB_*]) is not part of the sources; the block
    kinds the code names are distinct symbols, [FIFFB_ROOT] is the kind (0)
    of the top node of a file, [FIFFB_OTHER] any kind the code does not
    name. *)
Inductive block_kind : Type :=
| FIFFB_ROOT
| FIFFB_MEAS
| FIFFB_MEAS_INFO
| FIFFB_PROCESSED_DATA
| FIFFB_EVOKED
| FIFFB_ASPECT
| FIFFB_SMSH_ASPECT
| FIFFB_SUBJECT
| FIFFB_HPI_MEAS
| FIFFB_HPI_RESULT
| FIFFB_ISOTRAK
| FIFFB_PROCESSING_HISTORY
| FIFFB_MNE_BAD_CHANNELS
| FIFFB_OTHER (code : Z).

Definition block_kind_eq_dec (a b : block_kind) : {a = b} + {a <> b}.
Proof. decide equality. apply Z.eq_dec. Defined.

Definition block_eqb (a b : block_kind) : bool :=
  if block_kind_eq_dec a b then true else false.

(** Tag kinds, grouped by the writer that emits them ([write_int],
    [write_float], [write_string], [write_float_matrix], [write_id]).
    Modelled from the spec: as for [block_kind], the [FIFF.FIFF_*]
    constants are distinct symbols. *)
Inductive int_kind : Type :=
| FIFF_DIR_POINTER
| FIFF_FREE_LIST
| FIFF_NCHAN
| FIFF_MEAS_DATE
| FIFF_FIRST_SAMPLE
| FIFF_LAST_SAMPLE
| FIFF_ASPECT_KIND
| FIFF_NAVE.

Inductive float_kind : Type :=
| FIFF_SFREQ
| FIFF_HIGHPASS
| FIFF_LOWPASS.

Inductive string_kind : Type :=
| FIFF_COMMENT
| FIFF_MNE_CH_NAME_LIST.

Inductive matrix_kind : Type :=
| FIFF_EPOCH.

Inductive id_kind : Type :=
| FIFF_FILE_ID
| FIFF_BLOCK_ID
| FIFF_PARENT_BLOCK_ID.

(** The five integers of an id. *)
Record fiff_id : Type := {
  version : Z;
  machid0 : Z;
  machid1 : Z;
  secs : Z;
  usecs : Z
}.

Section DataModel.
Context {F : Type}.

(** [fiffChInfoRec]; [ch_kind] and [ch_unit] are the keys ['kind'] and
    ['unit']. *)
Record ch_info : Type := {
  scanno : Z;
  logno : Z;
  ch_kind : Z;
  range : F;
  cal : F;
  coil_type : Z;
  loc : list F;
  ch_unit : Z;
  unit_mul : Z;
  ch_name : string
}.

(** [ch['scanno'] = k] *)
Definition set_scanno (k : Z) (c : ch_info) : ch_info :=
  {| scanno := k; logno := logno c; ch_kind := ch_kind c; range := range c;
     cal := cal c; coil_type := coil_type c; loc := loc c;
     ch_unit := ch_unit c; unit_mul := unit_mul c; ch_name := ch_name c |}.

(** [fiffCoordTransRec] as the dataset holds it: the two frames and the
    4 x 4 transform. *)
Record coord_trans : Type := {
  from_ : Z;
  to : Z;
  trans : matrix F
}.

(** [fiffDigPointRec] *)
Record dig_point : Type := {
  dig_kind : Z;
  ident : Z;
  dig_r : list F
}.

(** One tag of a file, with its decoded payload.  The kind fixes the type
    of the payload.  [T_block_start] and [T_block_end] are the
    [FIFF_BLOCK_START] and [FIFF_BLOCK_END] integer tags, [T_nop] the
    closing tag of a file, [T_other] a tag of a kind this code neither
    reads nor writes, with the size of its payload, [T_truncated] the
    first bytes of a tag whose writer raised before the end. *)
Inductive tag : Type :=
| T_block_start (b : block_kind)
| T_block_end (b : block_kind)
| T_int (k : int_kind) (v : Z)
| T_float (k : float_kind) (v : F)
| T_string (k : string_kind) (s : string)
| T_float_matrix (k : matrix_kind) (m : matrix F)
| T_id (k : id_kind) (v : option fiff_id)
| T_coord_trans (c : coord_trans) (inv : matrix F)
| T_ch_info (c : ch_info)
| T_dig_point (d : dig_point)
| T_nop
| T_other (code : Z) (size : nat)
| T_truncated (size : nat).

(** A node of the block tree: [block], [directory] (with [nent] its
    length; an entry stands for the tag [read_tag] decodes at its position)
    and [children]. *)
Inductive node : Type :=
| Node (block : block_kind) (directory : list tag) (children : list node).

Definition block (n : node) : block_kind :=
  match n with Node b _ _ => b end.

Definition directory (n : node) : list tag :=
  match n with Node _ d _ => d end.

Definition children (n : node) : list node :=
  match n with Node _ _ c => c end.

(** Modelled from the spec: [dir_tree_find] ([tree.py]) is not part of the
    sources; it finds all descendant blocks of kind [b], here in the order
    the blocks start in the file. *)
Fixpoint dir_tree_find (n : node) (b : block_kind) : list node :=
  match n with
  | Node _ _ cs =>
      (fix over (l : list node) : list node :=
         match l with
         | [] => []
         | c :: l' =>
             (if block_eqb (block c) b then [c] else [])
               ++ dir_tree_find c b ++ over l'
         end) cs
  end.

End DataModel.

Arguments ch_info F : clear implicits.
Arguments coord_trans F : clear implicits.
Arguments dig_point F : clear implicits.
Arguments tag F : clear implicits.
Arguments node F : clear implicits.

Section Info.
Context {F : Type}.
Variables proj comp : Type.

(** The measurement info.  [filename] is [None] when the key is absent or
    holds [None]. *)
Record meas_info : Type := {
  sfreq : F;
  highpass : F;
  lowpass : F;
  nchan : Z;
  meas_date : option Z;
  dev_head_t : option (coord_trans F);
  ctf_head_t : option (coord_trans F);
  chs : list (ch_info F);
  dig : option (list (dig_point F));
  projs : list proj;
  comps : list comp;
  bads : list string;
  meas_id : option fiff_id;
  filename : option string
}.

Definition set_filename (f : option string) (i : meas_info) : meas_info :=
  {| sfreq := sfreq i; highpass := highpass i; lowpass := lowpass i;
     nchan := nchan i; meas_date := meas_date i;
     dev_head_t := dev_head_t i; ctf_head_t := ctf_head_t i;
     chs := chs i; dig := dig i; projs := projs i; comps := comps i;
     bads := bads i; meas_id := meas_id i; filename := f |}.

Definition set_sfreq (s : F) (i : meas_info) : meas_info :=
  {| sfreq := s; highpass := highpass i; lowpass := lowpass i;
     nchan := nchan i; meas_date := meas_date i;
     dev_head_t := dev_head_t i; ctf_head_t := ctf_head_t i;
     chs := chs i; dig := dig i; projs := projs i; comps := comps i;
     bads := bads i; meas_id := meas_id i; filename := filename i |}.

(** [info.chs = chs; info.nchan = nchan] *)
Definition set_channels (c : list (ch_info F)) (n : Z) (i : meas_info)
  : meas_info :=
  {| sfreq := sfreq i; highpass := highpass i; lowpass := lowpass i;
     nchan := n; meas_date := meas_date i;
     dev_head_t := dev_head_t i; ctf_head_t := ctf_head_t i;
     chs := c; dig := dig i; projs := projs i; comps := comps i;
     bads := bads i; meas_id := meas_id i; filename := filename i |}.

Definition set_chs (c : list (ch_info F)) (i : meas_info) : meas_info :=
  set_channels c (nchan i) i.

(** The attributes of an [Evoked] object. *)
Record Evoked : Type := {
  info : meas_info;
  nave : Z;
  aspect_kind : Z;
  first : Z;
  last : Z;
  comment : string;
  times : list F;
  data : matrix F
}.

Definition set_info (i : meas_info) (e : Evoked) : Evoked :=
  {| info := i; nave := nave e; aspect_kind := aspect_kind e;
     first := first e; last := last e; comment := comment e;
     times := times e; data := data e |}.

Definition set_data (m : matrix F) (e : Evoked) : Evoked :=
  {| info := info e; nave := nave e; aspect_kind := aspect_kind e;
     first := first e; last := last e; comment := comment e;
     times := times e; data := m |}.

End Info.

(** ** Reading: [Evoked.__init__] *)

Section Reader.
Context {F : Type} {SF : Scalar F}.
Variables proj comp : Type.

Local Abbreviation meas_info := (@meas_info F proj comp).
Local Abbreviation Evoked := (@Evoked F proj comp).
Local Open Scope result_scope.

(** *** Locating the data of interest *)

(** An element of [sets]: the keys ['aspects'] and ['naspect']. *)
Record aspect_set : Type := {
  aspects : list (node F);
  naspect : nat
}.

(** The loop "Identify the aspects" from evoked block [k] on; [n] is
    [naspect], [is_smsh] the shape of the array of that name ([None]
    before the first block with aspects) and [sets] the list built so far.
    [is_smsh] has one row of [naspect] zeros per block, put under the rows
    before with [np.r_], which raises a [ValueError] when two blocks differ
    in their number of aspects.  For a block with signal-minus-shield
    aspects the code overwrites [sets[k]['naspect']] with the list
    [[naspect, saspects]] and passes it as the [dtype] of
    [np.ones(1, ...)], which raises a [TypeError]. *)
Fixpoint identify_aspects (evoked_node : list (node F)) (n : nat)
    (is_smsh : option (nat * nat)) (sets : list aspect_set)
  : result (nat * list aspect_set) :=
  match evoked_node with
  | [] => Ok (n, sets)
  | ev :: rest =>
      let aspects_k := dir_tree_find ev FIFFB_ASPECT in
      let set_k := {| aspects := aspects_k; naspect := length aspects_k |} in
      let sets := sets ++ [set_k] in
      '(is_smsh, n) <-
        (if Nat.ltb 0 (naspect set_k)
         then
           match is_smsh with
           | None => Ok (Some (1%nat, naspect set_k), (n + naspect set_k)%nat)
           | Some (rows, cols) =>
               if Nat.eqb cols (naspect set_k)
               then Ok (Some (S rows, cols), (n + naspect set_k)%nat)
               else Raise (ValueError Shapes_not_aligned)
           end
         else Ok (is_smsh, n)) ;;
      let saspects := dir_tree_find ev FIFFB_SMSH_ASPECT in
      let nsaspects := length saspects in
      if Nat.ltb 0 nsaspects then Raise TypeError
      else identify_aspects rest n is_smsh sets
  end.

(** The inner loop [for a in range(sets[k]['naspect'])], on the remaining
    values of [a]: the unit found, or the counter [p] after the loop. *)
Fixpoint locate_aspect (ev : node F) (s : aspect_set) (range_a : list nat)
    (p setno : Z) : result (node F * node F) + Z :=
  match range_a with
  | [] => inr p
  | a :: rest =>
      if p =? setno
      then inl (match nth_error (aspects s) a with
                | Some my_aspect => Ok (ev, my_aspect)
                | None => Raise IndexError
                end)
      else locate_aspect ev s rest (p + 1) setno
  end.

(** The loop "Next locate the evoked data set" from block [k] on.  Its
    [else] branch calls [fid.close(fid)], which raises a [TypeError] before
    the [ValueError] it announces. *)
Fixpoint locate (blocks : list (node F * aspect_set)) (p setno : Z)
  : result (node F * node F) :=
  match blocks with
  | [] => Raise TypeError
  | (ev, s) :: rest =>
      match locate_aspect ev s (seq 0 (naspect s)) p setno with
      | inl found => found
      | inr p' => locate rest p' setno
      end
  end.

(** Lines 76-134: from the measurement block to the selected evoked block
    and aspect block.  With no evoked block the code calls
    [fid.close(fid)], which raises a [TypeError] before the [ValueError]
    it announces. *)
Definition select (meas : node F) (setno : Z) : result (node F * node F) :=
  let processed := dir_tree_find meas FIFFB_PROCESSED_DATA in
  if Nat.eqb (length processed) 0
  then Raise (ValueError Could_not_find_processed_data)
  else
    let evoked_node := dir_tree_find meas FIFFB_EVOKED in
    if Nat.eqb (length evoked_node) 0
    then Raise TypeError
    else
      '(n, sets) <- identify_aspects evoked_node 0 None [] ;;
      if (setno >=? Z.of_nat n) || (setno <? 0)
      then Raise (ValueError Selector_out_of_range)
      else locate (combine evoked_node sets) 0 setno.

(** *** The evoked block *)

(** The variables of the scan of the evoked block; [None] is an unbound
    variable for [first] and [last], the initial [None] for [comment] and
    the initial [-1] for [sfreq]. *)
Record evoked_vars : Type := {
  v_nchan : Z;
  v_sfreq : option F;
  v_chs : list (ch_info F);
  v_comment : option string;
  v_first : option Z;
  v_last : option Z
}.

Definition evoked_vars0 : evoked_vars :=
  {| v_nchan := 0; v_sfreq := None; v_chs := []; v_comment := None;
     v_first := None; v_last := None |}.

Definition scan_evoked_tag (v : evoked_vars) (t : tag F) : evoked_vars :=
  match t with
  | T_string FIFF_COMMENT s =>
      {| v_nchan := v_nchan v; v_sfreq := v_sfreq v; v_chs := v_chs v;
         v_comment := Some s; v_first := v_first v; v_last := v_last v |}
  | T_int FIFF_FIRST_SAMPLE n =>
      {| v_nchan := v_nchan v; v_sfreq := v_sfreq v; v_chs := v_chs v;
         v_comment := v_comment v; v_first := Some n; v_last := v_last v |}
  | T_int FIFF_LAST_SAMPLE n =>
      {| v_nchan := v_nchan v; v_sfreq := v_sfreq v; v_chs := v_chs v;
         v_comment := v_comment v; v_first := v_first v; v_last := Some n |}
  | T_int FIFF_NCHAN n =>
      {| v_nchan := n; v_sfreq := v_sfreq v; v_chs := v_chs v;
         v_comment := v_comment v; v_first := v_first v; v_last := v_last v |}
  | T_float FIFF_SFREQ f =>
      {| v_nchan := v_nchan v; v_sfreq := Some f; v_chs := v_chs v;
         v_comment := v_comment v; v_first := v_first v; v_last := v_last v |}
  | T_ch_info c =>
      {| v_nchan := v_nchan v; v_sfreq := v_sfreq v; v_chs := v_chs v ++ [c];
         v_comment := v_comment v; v_first := v_first v; v_last := v_last v |}
  | _ => v
  end.

(** [for k in range(my_evoked.nent)] *)
Definition scan_evoked (my_evoked : node F) : evoked_vars :=
  fold_left scan_evoked_tag (directory my_evoked) evoked_vars0.

(** [comment] after "if comment is None". *)
Definition default_comment (c : option string) : string :=
  match c with
  | Some s => s
  | None => "No comment"%string
  end.

(** "Local channel information?": the info after the local override. *)
Definition local_channels (v : evoked_vars) (i : meas_info)
  : result meas_info :=
  if 0 <? v_nchan v
  then
    if negb (Z.of_nat (length (v_chs v)) =? v_nchan v)
    then Raise (ValueError Channel_definitions_differ)
    else
      let i := set_channels (v_chs v) (v_nchan v) i in
      match v_sfreq v with
      | Some s => Ok (if flt fzero s then set_sfreq s i else i)
      | None => Ok i
      end
  else Ok i.

(** [nsamp = last - first + 1] *)
Definition sample_range (v : evoked_vars) : result (Z * Z) :=
  match v_last v, v_first v with
  | Some l, Some f => Ok (f, l)
  | _, _ => Raise UnboundLocalError
  end.

(** *** The aspect block *)

Record aspect_vars : Type := {
  a_comment : string;
  a_aspect_kind : option Z;
  a_nave : Z;
  a_epoch : list (matrix F)
}.

Definition scan_aspect_tag (v : aspect_vars) (t : tag F) : aspect_vars :=
  match t with
  | T_string FIFF_COMMENT s =>
      {| a_comment := s; a_aspect_kind := a_aspect_kind v;
         a_nave := a_nave v; a_epoch := a_epoch v |}
  | T_int FIFF_ASPECT_KIND n =>
      {| a_comment := a_comment v; a_aspect_kind := Some n;
         a_nave := a_nave v; a_epoch := a_epoch v |}
  | T_int FIFF_NAVE n =>
      {| a_comment := a_comment v; a_aspect_kind := a_aspect_kind v;
         a_nave := n; a_epoch := a_epoch v |}
  | T_float_matrix FIFF_EPOCH m =>
      {| a_comment := a_comment v; a_aspect_kind := a_aspect_kind v;
         a_nave := a_nave v; a_epoch := a_epoch v ++ [m] |}
  | _ => v
  end.

(** [for k in range(my_aspect.nent)], with [nave = 1] and [epoch = []]
    before the loop. *)
Definition scan_aspect (my_aspect : node F) (comment0 : string) : aspect_vars :=
  fold_left scan_aspect_tag (directory my_aspect)
            {| a_comment := comment0; a_aspect_kind := None; a_nave := 1;
               a_epoch := [] |}.

(** *** The data matrix *)

(** "Put the old style epochs together": [all_data] after the loop over
    the remaining epochs. *)
Fixpoint stack_epochs (all_data : matrix F) (rest : list (matrix F))
  : result (matrix F) :=
  match rest with
  | [] => Ok all_data
  | e :: rest' =>
      all_data' <- r_ all_data (transpose e) ;;
      stack_epochs all_data' rest'
  end.

(** Lines 214-236: [all_data] before calibration. *)
Definition raw_data (epoch : list (matrix F)) (info_nchan nsamp : Z)
  : result (matrix F) :=
  let nepoch := Z.of_nat (length epoch) in
  if negb (nepoch =? 1) && negb (nepoch =? info_nchan)
  then Raise (ValueError Epoch_tags_unreasonable)
  else
    all_data <-
      (if nepoch =? 1
       then
         match epoch with
         | e0 :: _ =>
             if Nat.eqb (ncols e0) 1 && (info_nchan =? 1)
             then Ok (transpose e0) else Ok e0
         | [] => Raise IndexError
         end
       else
         match epoch with
         | e0 :: rest => stack_epochs (transpose e0) rest
         | [] => Raise IndexError
         end) ;;
    if negb (Z.of_nat (ncols all_data) =? nsamp)
    then Raise (ValueError Incorrect_number_of_samples)
    else Ok all_data.

(** [[info['chs'][k].cal for k in range(info['nchan'])]] *)
Fixpoint cals_of (ks : list nat) (c : list (ch_info F)) : result (list F) :=
  match ks with
  | [] => Ok []
  | k :: ks' =>
      match nth_error c k with
      | Some ch => cs <- cals_of ks' c ;; Ok (cal ch :: cs)
      | None => Raise IndexError
      end
  end.

(** "Calibrate" *)
Definition calibrate (i : meas_info) (all_data : matrix F)
  : result (matrix F) :=
  cals <- cals_of (seq 0 (Z.to_nat (nchan i))) (chs i) ;;
  dot (diag cals) all_data.

(** [np.arange(first, last+1, dtype=np.float) / info['sfreq']] *)
Definition arange (lo hi : Z) : list Z :=
  map (fun i => lo + Z.of_nat i) (seq 0 (Z.to_nat (hi - lo))).

Definition time_axis (first last : Z) (sf : F) : list F :=
  map (fun n => fdiv (of_int n) sf) (arange first (last + 1)).

(** *** Baseline correction *)

(** [np.where(mask)[0]] *)
Fixpoint np_where (mask : list bool) (i : nat) : list nat :=
  match mask with
  | [] => []
  | b :: mask' => (if b then [i] else []) ++ np_where mask' (S i)
  end.

(** [xs[0]] and [xs[-1]] *)
Definition item_first (xs : list nat) : result nat :=
  match xs with
  | x :: _ => Ok x
  | [] => Raise IndexError
  end.

Definition item_last (xs : list nat) : result nat :=
  match rev xs with
  | x :: _ => Ok x
  | [] => Raise IndexError
  end.

Definition baseline_imin (bmin : option F) (times : list F) : result nat :=
  match bmin with
  | None => Ok 0%nat
  | Some b => item_first (np_where (map (fun t => fle b t) times) 0)
  end.

Definition baseline_imax (bmax : option F) (times : list F) : result nat :=
  match bmax with
  | None => Ok (length times)
  | Some b =>
      i <- item_last (np_where (map (fun t => fle t b) times) 0) ;;
      Ok (S i)
  end.

(** "Run baseline correction" *)
Definition apply_baseline (baseline : option (option F * option F))
    (times : list F) (all_data : matrix F) : result (matrix F) :=
  match baseline with
  | Some (bmin, bmax) =>
      imin <- baseline_imin bmin times ;;
      imax <- baseline_imax bmax times ;;
      Ok (subtract_row_means imin imax all_data)
  | None => Ok all_data
  end.

(** *** Putting it all together *)

(** Lines 136-236: the scans and the data before calibration, with the
    info after the local override. *)
Record gathered : Type := {
  g_info : meas_info;
  g_first : Z;
  g_last : Z;
  g_vars : aspect_vars;
  g_aspect_kind : Z;
  g_raw : matrix F
}.

Definition gather (i : meas_info) (my_evoked my_aspect : node F)
  : result gathered :=
  let v := scan_evoked my_evoked in
  let comment := default_comment (v_comment v) in
  i <- local_channels v i ;;
  '(first, last) <- sample_range v ;;
  let nsamp := last - first + 1 in
  let a := scan_aspect my_aspect comment in
  match a_aspect_kind a with
  | None => Raise UnboundLocalError
  | Some ak =>
      all_data <- raw_data (a_epoch a) (nchan i) nsamp ;;
      Ok {| g_info := i; g_first := first; g_last := last; g_vars := a;
            g_aspect_kind := ak; g_raw := all_data |}
  end.

(** Lines 136-271: the dataset assembled from the selected blocks. *)
Definition assemble (i : meas_info) (my_evoked my_aspect : node F)
    (baseline : option (option F * option F)) : result Evoked :=
  g <- gather i my_evoked my_aspect ;;
  all_data <- calibrate (g_info g) (g_raw g) ;;
  let times := time_axis (g_first g) (g_last g) (sfreq (g_info g)) in
  all_data <- apply_baseline baseline times all_data ;;
  Ok {| info := g_info g; nave := a_nave (g_vars g);
        aspect_kind := g_aspect_kind g; first := g_first g;
        last := g_last g; comment := a_comment (g_vars g);
        times := times; data := all_data |}.

(** [Evoked.__init__] on the info and the measurement block that
    [read_meas_info] returns for the file [fname]. *)
Definition Evoked_of (fname : string) (i : meas_info) (meas : node F)
    (setno : Z) (baseline : option (option F * option F)) : result Evoked :=
  let i := set_filename (Some fname) i in
  '(my_evoked, my_aspect) <- select meas setno ;;
  assemble i my_evoked my_aspect baseline.

(** [fiff_open] and [read_meas_info] are not part of the sources: the
    content of the file system and the decoding of the measurement info
    are parameters. *)
Variable fiff_open : string -> result (node F).
Variable read_meas_info : node F -> result (meas_info * node F).

(** [Evoked.__init__] for a file name, and [read_evoked]. *)
Definition Evoked_init (fname : string) (setno : Z)
    (baseline : option (option F * option F)) : result Evoked :=
  if setno <? 0
  then Raise (ValueError Selector_must_be_positive)
  else
    tree <- fiff_open fname ;;
    '(i, meas) <- read_meas_info tree ;;
    Evoked_of fname i meas setno baseline.

Definition read_evoked (fname : string) (setno : Z)
    (baseline : option (option F * option F)) : result Evoked :=
  Evoked_init fname setno baseline.

End Reader.

(** ** Writing: [write.py] and [Evoked.save] *)

Section Writer.
Context {F : Type} {SF : Scalar F}.
Variables proj comp : Type.

Local Abbreviation meas_info := (@meas_info F proj comp).
Local Abbreviation Evoked := (@Evoked F proj comp).

(** The bytes a tag takes in the file: the header of four integers and
    [data_size]. *)
Definition tag_size (t : tag F) : nat :=
  (16 + match t with
        | T_block_start _ | T_block_end _ | T_int _ _ | T_float _ _ => 4
        | T_string _ s => String.length s
        | T_float_matrix _ m => 4 * (nrows m * ncols m) + 4 * 3
        | T_id _ _ => 5 * 4
        | T_coord_trans _ _ => 4 * 2 * 12 + 4 * 2
        | T_ch_info _ => 4 * 13 + 4 * 7 + 16
        | T_dig_point _ => 5 * 4
        | T_nop => 0
        | T_other _ n => n
        | T_truncated n => n - 16
        end)%nat.

Definition file_size (f : list (tag F)) : nat :=
  fold_right (fun t n => (tag_size t + n)%nat) 0%nat f.

(** The state of a call of [save]: the object [self], whose channel
    records the call updates in place, and the tags written to [fid] so
    far.  An exception leaves both as they are when it is raised. *)
Record wstate : Type := {
  w_self : Evoked;
  w_fid : list (tag F)
}.

Definition W (A : Type) : Type := wstate -> result A * wstate.

Definition wret {A : Type} (a : A) : W A := fun s => (Ok a, s).

Definition wbind {A B : Type} (c : W A) (k : A -> W B) : W B :=
  fun s =>
    match c s with
    | (Ok a, s') => k a s'
    | (Raise e, s') => (Raise e, s')
    end.

Definition wraise {A : Type} (e : error) : W A := fun s => (Raise e, s).

Definition self : W Evoked := fun s => (Ok (w_self s), s).

Definition fid_write (t : tag F) : W unit :=
  fun s => (Ok tt, {| w_self := w_self s; w_fid := w_fid s ++ [t] |}).

Definition fid_write_all (ts : list (tag F)) : W unit :=
  fun s => (Ok tt, {| w_self := w_self s; w_fid := w_fid s ++ ts |}).

Definition set_self (e : Evoked) : W unit :=
  fun s => (Ok tt, {| w_self := e; w_fid := w_fid s |}).

Declare Scope writer_scope.
Delimit Scope writer_scope with writer.
Local Notation "x <- c ;; k" := (wbind c (fun x => k))
  (at level 61, c at next level, right associativity) : writer_scope.
Local Notation "c ;; k" := (wbind c (fun _ => k))
  (at level 61, right associativity) : writer_scope.
Local Open Scope writer_scope.

(** *** [write.py] *)

Definition write_int (k : int_kind) (v : Z) : W unit :=
  fid_write (T_int k (to_i4 v)).

Definition write_float (k : float_kind) (v : F) : W unit :=
  fid_write (T_float k (to_f4 v)).

Definition write_string (k : string_kind) (s : string) : W unit :=
  fid_write (T_string k s).

Definition write_name_list (k : string_kind) (names : list string) : W unit :=
  write_string k (String.concat ":" names).

Definition array_f4 (m : matrix F) : matrix F :=
  mkMat (nrows m) (ncols m) (map (map to_f4) (cells m)).

Definition write_float_matrix (k : matrix_kind) (mat : matrix F) : W unit :=
  fid_write (T_float_matrix k (array_f4 mat)).

(** [id_ = None] is the id generated from the clock and the random
    generator. *)
Definition write_id (k : id_kind) (id_ : option fiff_id) : W unit :=
  fid_write
    (T_id k (option_map
               (fun i => {| version := to_i4 (version i);
                            machid0 := to_i4 (machid0 i);
                            machid1 := to_i4 (machid1 i);
                            secs := to_i4 (secs i);
                            usecs := to_i4 (usecs i) |}) id_)).

Definition start_block (b : block_kind) : W unit :=
  fid_write (T_block_start b).

Definition end_block (b : block_kind) : W unit :=
  fid_write (T_block_end b).

(** [open(name, 'wb')], which raises an [IOError] where the file cannot be
    created, is a parameter. *)
Variable can_open : string -> bool.

Definition start_file (name : string) : W unit :=
  if can_open name
  then
    write_id FIFF_FILE_ID None ;;
    write_int FIFF_DIR_POINTER (-1) ;;
    write_int FIFF_FREE_LIST (-1)
  else wraise IOError.

Definition end_file : W unit := fid_write T_nop.

(** [scipy.linalg.inv] *)
Variable linalg_inv : matrix F -> result (matrix F).

(** The bytes in the file once the forward transform is written: the
    header and the frames (16 + 8 bytes), [m[:3, :3]] and [m[:3, 3]]
    (48 bytes for a matrix of three rows or more). *)
Definition forward_bytes (m : matrix F) : nat :=
  (24 + 4 * (length (concat (map (firstn 3) (firstn 3 (cells m))))
             + length (firstn 3 (cells m))))%nat.

(** The header and the frames are written first.  [trans['trans'][:3, 3]]
    raises an [IndexError] for a matrix of fewer than four columns, before
    anything of the transform is written.  The forward transform is
    written before the inverse is computed; [trans_inv[:3, 3]] raises for
    an inverse of fewer than four columns. *)
Definition write_coord_trans (c : coord_trans F) : W unit :=
  if Nat.ltb 3 (ncols (trans c))
  then
    match linalg_inv (trans c) with
    | Ok trans_inv =>
        if Nat.ltb 3 (ncols trans_inv)
        then
          fid_write (T_coord_trans
                       {| from_ := to_i4 (from_ c); to := to_i4 (to c);
                          trans := array_f4 (trans c) |}
                       (array_f4 trans_inv))
        else
          fid_write (T_truncated (forward_bytes (trans c))) ;;
          wraise IndexError
    | Raise e => fid_write (T_truncated (forward_bytes (trans c))) ;; wraise e
    end
  else fid_write (T_truncated 24) ;; wraise IndexError.

Definition write_ch_info (ch : ch_info F) : W unit :=
  fid_write
    (T_ch_info
       {| scanno := to_i4 (scanno ch); logno := to_i4 (logno ch);
          ch_kind := to_i4 (ch_kind ch); range := to_f4 (range ch);
          cal := to_f4 (cal ch); coil_type := to_i4 (coil_type ch);
          loc := map to_f4 (loc ch); ch_unit := to_i4 (ch_unit ch);
          unit_mul := to_i4 (unit_mul ch);
          ch_name := substring 0 15 (ch_name ch) |}).

Definition write_dig_point (d : dig_point F) : W unit :=
  fid_write
    (T_dig_point
       {| dig_kind := to_i4 (dig_kind d); ident := to_i4 (ident d);
          dig_r := map to_f4 (firstn 3 (dig_r d)) |}).

(** *** The collaborators of [save] that are not part of the sources *)

(** [fiff_open] ([open.py]): the block tree of a file.  [copy_tree]
    ([tree.py]), [write_proj] ([proj.py]) and [write_ctf_comp] ([ctf.py]):
    the tags they append and the exception they raise, if any. *)
Variable fiff_open : string -> result (node F).
Variable copy_tree : list (node F) -> list (tag F) * option error.
Variable write_proj : list proj -> list (tag F) * option error.
Variable write_ctf_comp : list comp -> list (tag F) * option error.

Definition call (out : list (tag F) * option error) : W unit :=
  fid_write_all (fst out) ;;
  match snd out with
  | Some e => wraise e
  | None => wret tt
  end.

(** *** [Evoked.save] *)

(** "Blocks from the original" *)
Definition blocks : list block_kind :=
  [FIFFB_SUBJECT; FIFFB_HPI_MEAS; FIFFB_HPI_RESULT; FIFFB_ISOTRAK;
   FIFFB_PROCESSING_HISTORY].

(** [for block in blocks], with the flags [have_hpi_result] and
    [have_isotrak]. *)
Fixpoint copy_blocks (tree : node F) (bs : list block_kind)
    (have : bool * bool) : W (bool * bool) :=
  match bs with
  | [] => wret have
  | b :: bs' =>
      let nodes := dir_tree_find tree b in
      call (copy_tree nodes) ;;
      let found := Nat.ltb 0 (length nodes) in
      let have_hpi_result :=
        if block_eqb b FIFFB_HPI_RESULT && found then true else fst have in
      let have_isotrak :=
        if block_eqb b FIFFB_ISOTRAK && found then true else snd have in
      copy_blocks tree bs' (have_hpi_result, have_isotrak)
  end.

Definition copy_from_original : W (bool * bool) :=
  s <- self ;;
  match filename (info s) with
  | Some f =>
      match fiff_open f with
      | Ok tree => copy_blocks tree blocks (false, false)
      | Raise e => wraise e
      end
  | None => wret (false, false)
  end.

Definition write_optional {A : Type} (w : A -> W unit) (x : option A) : W unit :=
  match x with
  | Some a => w a
  | None => wret tt
  end.

(** The body of "Channel information" for one [k]:
    [self.info['chs'][k]['scanno'] = k], then [write_ch_info]. *)
Definition write_channel (k : nat) : W unit :=
  s <- self ;;
  match nth_error (chs (info s)) k with
  | None => wraise IndexError
  | Some ch =>
      let ch' := set_scanno (Z.of_nat k) ch in
      let chs' := firstn k (chs (info s)) ++ ch' :: skipn (S k) (chs (info s)) in
      set_self (set_info (set_chs chs' (info s)) s) ;;
      write_ch_info ch'
  end.

Fixpoint for_each {A : Type} (body : A -> W unit) (xs : list A) : W unit :=
  match xs with
  | [] => wret tt
  | x :: xs' => body x ;; for_each body xs'
  end.

(** The loop [decal[k, k] = 1.0 / self.info['chs'][k]['cal']] over the
    [k] of [ks]: the values [1 / cal].  The channel records hold Python
    floats, for which [1.0 / 0.0] raises a [ZeroDivisionError]. *)
Fixpoint decal_of (ks : list nat) (c : list (ch_info F)) : result (list F) :=
  match ks with
  | [] => Ok []
  | k :: ks' =>
      match nth_error c k with
      | Some ch =>
          if is_zero (cal ch)
          then Raise ZeroDivisionError
          else rbind (decal_of ks' c) (fun ds => Ok (fdiv fone (cal ch) :: ds))
      | None => Raise IndexError
      end
  end.

(** [np.zeros((n, n))] with [decal[k, k] = 1.0 / cal_k]: the matrix
    [diag(1 / cal)]; numpy refuses a negative [n]. *)
Definition decal_matrix (i : meas_info) : result (matrix F) :=
  if nchan i <? 0
  then Raise (ValueError Negative_dimensions)
  else
    rbind (decal_of (seq 0 (Z.to_nat (nchan i))) (chs i))
          (fun ds => Ok (diag ds)).

Definition lift {A : Type} (r : result A) : W A :=
  match r with
  | Ok a => wret a
  | Raise e => wraise e
  end.

(** The body of [for evoked in data_evoked]. *)
Definition write_evoked_block (evoked : matrix F) : W unit :=
  start_block FIFFB_EVOKED ;;
  s <- self ;;
  (if Nat.ltb 0 (String.length (comment s))
   then write_string FIFF_COMMENT (comment s)
   else wret tt) ;;
  write_int FIFF_FIRST_SAMPLE (first s) ;;
  write_int FIFF_LAST_SAMPLE (last s) ;;
  start_block FIFFB_ASPECT ;;
  write_int FIFF_ASPECT_KIND (aspect_kind s) ;;
  write_int FIFF_NAVE (nave s) ;;
  s <- self ;;
  decal <- lift (decal_matrix (info s)) ;;
  m <- lift (dot decal evoked) ;;
  write_float_matrix FIFF_EPOCH m ;;
  end_block FIFFB_ASPECT ;;
  end_block FIFFB_EVOKED.

(** "Measurement info" *)
Definition write_meas_info : W unit :=
  start_block FIFFB_MEAS_INFO ;;
  have <- copy_from_original ;;
  let have_hpi_result := fst have in
  let have_isotrak := snd have in
  s <- self ;;
  write_float FIFF_SFREQ (sfreq (info s)) ;;
  write_float FIFF_HIGHPASS (highpass (info s)) ;;
  write_float FIFF_LOWPASS (lowpass (info s)) ;;
  write_int FIFF_NCHAN (nchan (info s)) ;;
  write_optional (write_int FIFF_MEAS_DATE) (meas_date (info s)) ;;
  (if negb have_hpi_result
   then
     write_optional write_coord_trans (dev_head_t (info s)) ;;
     write_optional write_coord_trans (ctf_head_t (info s))
   else wret tt) ;;
  for_each write_channel (seq 0 (Z.to_nat (nchan (info s)))) ;;
  (match dig (info s) with
   | Some ds =>
       if negb have_isotrak
       then
         start_block FIFFB_ISOTRAK ;;
         for_each write_dig_point ds ;;
         end_block FIFFB_ISOTRAK
       else wret tt
   | None => wret tt
   end) ;;
  call (write_proj (projs (info s))) ;;
  call (write_ctf_comp (comps (info s))) ;;
  (if Nat.ltb 0 (length (bads (info s)))
   then
     start_block FIFFB_MNE_BAD_CHANNELS ;;
     write_name_list FIFF_MNE_CH_NAME_LIST (bads (info s)) ;;
     end_block FIFFB_MNE_BAD_CHANNELS
   else wret tt) ;;
  end_block FIFFB_MEAS_INFO.

Definition save (fname : string) : W unit :=
  start_file fname ;;
  start_block FIFFB_MEAS ;;
  write_id FIFF_BLOCK_ID None ;;
  s <- self ;;
  write_optional (fun i => write_id FIFF_PARENT_BLOCK_ID (Some i))
                 (meas_id (info s)) ;;
  write_meas_info ;;
  start_block FIFFB_PROCESSED_DATA ;;
  s <- self ;;
  for_each write_evoked_block [data s] ;;
  end_block FIFFB_PROCESSED_DATA ;;
  end_block FIFFB_MEAS ;;
  end_file.

(** [write_evoked(name, evoked)]: the outcome, the object after the call
    and the tags in the file. *)
Definition write_evoked (name : string) (evoked : Evoked)
  : result unit * wstate :=
  save name {| w_self := evoked; w_fid := [] |}.

End Writer.

(** ** The block tree of a written file *)

Section Tree.
Context {F : Type}.

(** A block under construction: its kind, and its directory and children
    in reverse. *)
Record frame : Type := {
  fr_block : block_kind;
  fr_directory : list (tag F);
  fr_children : list (node F)
}.

Definition close_frame (fr : frame) : node F :=
  Node (fr_block fr) (rev (fr_directory fr)) (rev (fr_children fr)).

Definition add_tag (t : tag F) (fr : frame) : frame :=
  {| fr_block := fr_block fr; fr_directory := t :: fr_directory fr;
     fr_children := fr_children fr |}.

Definition add_child (n : node F) (fr : frame) : frame :=
  {| fr_block := fr_block fr; fr_directory := fr_directory fr;
     fr_children := n :: fr_children fr |}.

Fixpoint close_all (cur : frame) (stack : list frame) : node F :=
  match stack with
  | [] => close_frame cur
  | parent :: stack' => close_all (add_child (close_frame cur) parent) stack'
  end.

(** Modelled from the spec: the construction of the block tree
    ([fiff_open], [open.py] and [tree.py]) is not part of the sources.  A
    node's directory holds the tags of its block in file order, nested
    blocks are its children and are not flattened into the directory: a
    [FIFF_BLOCK_START] tag opens a child of the current block, a
    [FIFF_BLOCK_END] tag closes the current block, every other tag joins
    the directory of the current block.  At the end of the file the
    blocks still open are closed. *)
Fixpoint build_tree (ts : list (tag F)) (cur : frame) (stack : list frame)
  : node F :=
  match ts with
  | [] => close_all cur stack
  | T_block_start b :: ts' =>
      build_tree ts'
        {| fr_block := b; fr_directory := []; fr_children := [] |}
        (cur :: stack)
  | T_block_end _ :: ts' =>
      match stack with
      | parent :: stack' =>
          build_tree ts' (add_child (close_frame cur) parent) stack'
      | [] => build_tree ts' cur []
      end
  | t :: ts' => build_tree ts' (add_tag t cur) stack
  end.

Definition make_dir_tree (file : list (tag F)) : node F :=
  build_tree file
    {| fr_block := FIFFB_ROOT; fr_directory := []; fr_children := [] |} [].

Definition is_block_tag (t : tag F) : bool :=
  match t with
  | T_block_start _ | T_block_end _ => true
  | _ => false
  end.

(** Sequences of tags in which every block that starts also ends. *)
Inductive balanced : list (tag F) -> Prop :=
| balanced_nil : balanced []
| balanced_tag (t : tag F) (l : list (tag F)) :
    is_block_tag t = false -> balanced l -> balanced (t :: l)
| balanced_block (b b' : block_kind) (l1 l2 : list (tag F)) :
    balanced l1 -> balanced l2 ->
    balanced (T_block_start b :: l1 ++ T_block_end b' :: l2).

(** No block of kind [b] starts in [l]. *)
Definition starts_no (b : block_kind) (l : list (tag F)) : Prop :=
  ~ In (T_block_start b) l.

(** The selectable units of a file as the specification enumerates them:
    the evoked blocks in file order, for each its aspect blocks followed by
    its signal-minus-shield aspect blocks. *)
Definition selectable_units (meas : node F) : list (node F * node F) :=
  flat_map
    (fun ev => map (pair ev)
                   (dir_tree_find ev FIFFB_ASPECT
                      ++ dir_tree_find ev FIFFB_SMSH_ASPECT))
    (dir_tree_find meas FIFFB_EVOKED).

Definition total_count (meas : node F) : nat :=
  length (selectable_units meas).

(** No evoked block of [meas] has a signal-minus-shield aspect. *)
Definition no_smsh (meas : node F) : Prop :=
  Forall (fun ev => dir_tree_find ev FIFFB_SMSH_ASPECT = [])
         (dir_tree_find meas FIFFB_EVOKED).

(** The evoked blocks of [meas] that have aspects have equally many. *)
Definition aspects_agree (meas : node F) : Prop :=
  exists c : nat,
    Forall (fun ev => length (dir_tree_find ev FIFFB_ASPECT) = 0%nat
                      \/ length (dir_tree_find ev FIFFB_ASPECT) = c)
           (dir_tree_find meas FIFFB_EVOKED).

(** The element of [sets] for the evoked block [ev]. *)
Definition set_of (ev : node F) : aspect_set :=
  {| aspects := dir_tree_find ev FIFFB_ASPECT;
     naspect := length (dir_tree_find ev FIFFB_ASPECT) |}.

(** The units of the evoked blocks [evs] that are ordinary aspects. *)
Definition ordinary_units (evs : list (node F)) : list (node F * node F) :=
  flat_map (fun ev => map (pair ev) (dir_tree_find ev FIFFB_ASPECT)) evs.

End Tree.

(** ** A small file, on exact rationals *)

Module Example.

Definition q (z : Z) : Qc := of_int z.

Definition ch (k : Z) (c : Qc) (name : string) : ch_info Qc :=
  {| scanno := k; logno := k; ch_kind := 1; range := q 1; cal := c;
     coil_type := 3012; loc := []; ch_unit := 112; unit_mul := 0;
     ch_name := name |}.

(** Two channels with the calibrations 1 and 2, numbered from 1 as in a
    recording, sampled at 600 Hz. *)
Definition info0 : @meas_info Qc unit unit :=
  {| sfreq := q 600; highpass := q 0; lowpass := q 40; nchan := 2;
     meas_date := None; dev_head_t := None; ctf_head_t := None;
     chs := [ch 1 (q 1) "MEG 001"; ch 2 (q 2) "MEG 002"];
     dig := None; projs := []; comps := []; bads := [];
     meas_id := None; filename := None |}.

Definition epoch_2x3 : matrix Qc :=
  mkMat 2 3 [[q 1; q 2; q 3]; [q 4; q 5; q 6]].

(** An aspect block with one epoch tag of shape 2 x 3. *)
Definition aspect0 : node Qc :=
  Node FIFFB_ASPECT
       [T_int FIFF_ASPECT_KIND 100; T_int FIFF_NAVE 5;
        T_float_matrix FIFF_EPOCH epoch_2x3] [].

Definition evoked0 : node Qc :=
  Node FIFFB_EVOKED
       [T_string FIFF_COMMENT "left"; T_int FIFF_FIRST_SAMPLE (-1);
        T_int FIFF_LAST_SAMPLE 1]
       [aspect0].

Definition meas_of (evs : list (node Qc)) : node Qc :=
  Node FIFFB_MEAS [T_id FIFF_BLOCK_ID None]
       [Node FIFFB_MEAS_INFO [] []; Node FIFFB_PROCESSED_DATA [] evs].

Definition meas0 : node Qc := meas_of [evoked0].

(** Old style epochs: one tag per channel.  [row_epochs] holds them as
    rows (1 x 2), [column_epochs] as columns (2 x 1). *)
Definition row_epochs : list (matrix Qc) :=
  [mkMat 1 2 [[q 1; q 2]]; mkMat 1 2 [[q 3; q 4]]].

Definition column_epochs : list (matrix Qc) :=
  [mkMat 2 1 [[q 1]; [q 2]]; mkMat 2 1 [[q 3]; [q 4]]].

Definition old_style (epochs : list (matrix Qc)) : node Qc :=
  Node FIFFB_EVOKED
       [T_int FIFF_FIRST_SAMPLE 0; T_int FIFF_LAST_SAMPLE 1]
       [Node FIFFB_ASPECT
             (T_int FIFF_ASPECT_KIND 100
                :: map (T_float_matrix FIFF_EPOCH) epochs) []].

Definition aspect_of (ev : node Qc) : node Qc :=
  match children ev with
  | a :: _ => a
  | [] => ev
  end.

(** An aspect block without epoch tag. *)
Definition evoked_no_epoch : node Qc := old_style [].

(** An evoked block with an aspect and a signal-minus-shield aspect. *)
Definition evoked_smsh : node Qc :=
  Node FIFFB_EVOKED
       [T_int FIFF_FIRST_SAMPLE (-1); T_int FIFF_LAST_SAMPLE 1]
       [aspect0;
        Node FIFFB_SMSH_ASPECT
             [T_int FIFF_ASPECT_KIND 100; T_int FIFF_NAVE 5;
              T_float_matrix FIFF_EPOCH epoch_2x3] []].

(** A file system that holds one file, whose measurement info decodes to
    [i] and whose measurement block is [meas]. *)
Definition fiff_open_one (name : string) (meas : node Qc) (f : string)
  : result (node Qc) :=
  if String.eqb f name then Ok (Node FIFFB_ROOT [] [meas])
  else Raise IOError.

Definition read_meas_info_as (i : @meas_info Qc unit unit) (tree : node Qc)
  : result (@meas_info Qc unit unit * node Qc) :=
  match dir_tree_find tree FIFFB_MEAS with
  | meas :: _ => Ok (i, meas)
  | [] => Raise (ValueError Could_not_find_processed_data)
  end.

Definition read_evoked_one (meas : node Qc) (setno : Z)
    (baseline : option (option Qc * option Qc))
  : result (@Evoked Qc unit unit) :=
  read_evoked (fiff_open_one "test-ave.fif" meas) (read_meas_info_as info0)
              "test-ave.fif" setno baseline.

(** The collaborators of [save] when there is nothing to carry over. *)
Definition nothing {A : Type} (_ : A) : list (tag Qc) * option error :=
  ([], None).

Definition write_evoked_plain (name : string) (e : @Evoked Qc unit unit)
  : result unit * wstate unit unit :=
  write_evoked (fun _ => true) (fun m => Ok m) (fun _ => Raise IOError)
               nothing nothing nothing name e.

(** The dataset of the file above, as assembled without baseline. *)
Definition dataset0 : @Evoked Qc unit unit :=
  {| info := info0; nave := 5; aspect_kind := 100; first := -1; last := 1;
     comment := "left";
     times := [Q2Qc (-1 # 600); Q2Qc (0 # 600); Q2Qc (1 # 600)];
     data := mkMat 2 3 [[q 1; q 2; q 3]; [q 8; q 10; q 12]] |}.

End Example.

(** ** The baseline window as the specification words it *)

Section BaselineWindow.
Context {F : Type} {SF : Scalar F}.

(** [imin] is the index of the first time [>= b]. *)
Definition first_at_or_after (b : F) (ts : list F) (imin : nat) : Prop :=
  (exists t, nth_error ts imin = Some t /\ fle b t = true) /\
  forall j t, (j < imin)%nat -> nth_error ts j = Some t -> fle b t = false.

(** [imax] is one past the index of the last time [<= b]. *)
Definition past_last_at_or_before (b : F) (ts : list F) (imax : nat) : Prop :=
  exists k,
    imax = S k /\
    (exists t, nth_error ts k = Some t /\ fle t b = true) /\
    forall j t, (k < j)%nat -> nth_error ts j = Some t -> fle t b = false.

Definition window_start (bmin : option F) (ts : list F) (imin : nat) : Prop :=
  match bmin with
  | None => imin = 0%nat
  | Some b => first_at_or_after b ts imin
  end.

Definition window_stop (bmax : option F) (ts : list F) (nsamp : Z)
    (imax : nat) : Prop :=
  match bmax with
  | None => Z.of_nat imax = nsamp
  | Some b => past_last_at_or_before b ts imax
  end.

(** Row [k], scaled by the factor [k] of [cs]. *)
Definition scale_rows (cs : list F) (rows : list (list F)) : list (list F) :=
  map (fun p => map (fmul (fst p)) (snd p)) (combine cs rows).

(** The entries of a row at the indices [imin], ..., [imax - 1]. *)
Definition window_entries (imin imax : nat) (row : list F) : list F :=
  map (fun j => nth j row fzero) (seq imin (imax - imin)).

(** Their mean: their sum, taken from the left, over their number. *)
Definition window_mean (imin imax : nat) (row : list F) : F :=
  fdiv (fold_left fadd (window_entries imin imax row) fzero)
       (of_int (Z.of_nat (imax - imin))).

(** The row from whose every entry the mean of the window is
    subtracted. *)
Definition corrected_row (imin imax : nat) (row : list F) : list F :=
  map (fun x => fsub x (window_mean imin imax row)) row.

End BaselineWindow.

(** ** What [save] does to the dataset and to the file, in closed form *)

Section SaveEffects.
Context {F : Type} {SF : Scalar F}.
Variables proj comp : Type.

(** The channel records after the first [m] rounds of the loop "Channel
    information", counted from round [k]. *)
Fixpoint renumber_from (k m : nat) (cs : list (ch_info F))
  : list (ch_info F) :=
  match m, cs with
  | S m', c :: cs' => set_scanno (Z.of_nat k) c :: renumber_from (S k) m' cs'
  | _, _ => cs
  end.

Definition renumber (m : nat) (cs : list (ch_info F)) : list (ch_info F) :=
  renumber_from 0 m cs.

(** The dataset whose first [m] channel records carry their index as scan
    number, and that is [e] otherwise. *)
Definition renumbered (m : nat) (e : @Evoked F proj comp)
  : @Evoked F proj comp :=
  set_info (set_chs (renumber m (chs (info e))) (info e)) e.

(** Sequences of whole blocks and plain tags that start neither a
    processed-data nor an evoked block. *)
Definition quiet (ts : list (tag F)) : Prop :=
  balanced ts /\
  starts_no FIFFB_PROCESSED_DATA ts /\ starts_no FIFFB_EVOKED ts.

(** The tags of the evoked block that [save] writes for the dataset [e]
    and the decalibrated matrix [m]. *)
Definition evoked_block_tags (e : @Evoked F proj comp) (m : matrix F)
  : list (tag F) :=
  [T_block_start FIFFB_EVOKED]
    ++ (if Nat.ltb 0 (String.length (comment e))
        then [T_string FIFF_COMMENT (comment e)] else [])
    ++ [T_int FIFF_FIRST_SAMPLE (to_i4 (first e));
        T_int FIFF_LAST_SAMPLE (to_i4 (last e));
        T_block_start FIFFB_ASPECT;
        T_int FIFF_ASPECT_KIND (to_i4 (aspect_kind e));
        T_int FIFF_NAVE (to_i4 (nave e));
        T_float_matrix FIFF_EPOCH (array_f4 m);
        T_block_end FIFFB_ASPECT;
        T_block_end FIFFB_EVOKED].

(** The tags of the file header. *)
Definition header_tags : list (tag F) :=
  [T_id FIFF_FILE_ID None; T_int FIFF_DIR_POINTER (-1);
   T_int FIFF_FREE_LIST (-1)].

(** The matrix [np.dot(decal, evoked)] that [save] encodes. *)
Definition decalibrated (e : @Evoked F proj comp) : result (matrix F) :=
  rbind (decal_matrix (info e)) (fun decal => dot decal (data e)).

End SaveEffects.

(** ** Specifications of the steps of [save] *)

Section SaveSteps.
Context {F : Type} {SF : Scalar F}.
Variables proj comp : Type.

(** The step [c], started in the state [s], renumbers the first [m]
    channel records of the dataset and leaves the rest of it alone, and
    appends tags [ts] to the file; if it returns, [m] is [n] and [ts]
    satisfies [P]. *)
Definition acts_at {A : Type} (s : @wstate F proj comp) (c : W proj comp A)
    (n : nat) (P : list (tag F) -> Prop) : Prop :=
  exists (m : nat) (ts : list (tag F)),
    w_self (snd (c s)) = renumbered m (w_self s) /\
    w_fid (snd (c s)) = w_fid s ++ ts /\
    forall a, fst (c s) = Ok a -> m = n /\ P ts.

(** The collaborators write whole blocks and plain tags, and neither a
    processed-data nor an evoked block. *)
Definition quiet_collaborators
    (copy_tree : list (node F) -> list (tag F) * option error)
    (write_proj : list proj -> list (tag F) * option error)
    (write_ctf_comp : list comp -> list (tag F) * option error) : Prop :=
  (forall nodes, quiet (fst (copy_tree nodes))) /\
  (forall p, quiet (fst (write_proj p))) /\
  (forall c, quiet (fst (write_ctf_comp c))).

End SaveSteps.

(** [ts] is quiet whenever the collaborators are. *)
Definition quiet_if {F : Type} (H : Prop) (ts : list (tag F)) : Prop :=
  H -> quiet ts.

(** [ts] is a measurement-info block with a quiet body, and [G] holds. *)
Definition info_block_if {F : Type} (H G : Prop) (ts : list (tag F)) : Prop :=
  exists body,
    ts = T_block_start FIFFB_MEAS_INFO :: body ++ [T_block_end FIFFB_MEAS_INFO]
    /\ quiet_if H body /\ G.

Definition closes_info_block_if {F : Type} (H G : Prop) (ts : list (tag F))
  : Prop :=
  exists body,
    ts = body ++ [T_block_end FIFFB_MEAS_INFO] /\ quiet_if H body /\ G.

(** The tags [save] writes before the measurement info. *)
Definition prologue_tags {F proj comp : Type} (e : @Evoked F proj comp)
  : list (tag F) :=
  header_tags
    ++ [T_block_start FIFFB_MEAS; T_id FIFF_BLOCK_ID None]
    ++ match meas_id (info e) with
       | Some i =>
           [T_id FIFF_PARENT_BLOCK_ID
                 (Some {| version := to_i4 (version i);
                          machid0 := to_i4 (machid0 i);
                          machid1 := to_i4 (machid1 i);
                          secs := to_i4 (secs i);
                          usecs := to_i4 (usecs i) |})]
       | None => []
       end.

(** The tags [save] writes after the evoked block. *)
Definition epilogue_tags {F : Type} : list (tag F) :=
  [T_block_end FIFFB_PROCESSED_DATA; T_block_end FIFFB_MEAS; T_nop].

(** Neither [n] nor a block under it is a processed-data or an evoked
    block. *)
Definition silent {F : Type} (n : node F) : Prop :=
  block n <> FIFFB_PROCESSED_DATA /\ block n <> FIFFB_EVOKED /\
  dir_tree_find n FIFFB_PROCESSED_DATA = [] /\
  dir_tree_find n FIFFB_EVOKED = [].

(** The comment read back from a file written for the comment [c]. *)
Definition comment_read_back (c : string) : string :=
  match c with
  | EmptyString => "No comment"%string
  | _ => c
  end.

(** The block tree of the evoked block that [save] writes. *)
Definition written_evoked {F proj comp : Type} {SF : Scalar F}
    (e : @Evoked F proj comp) (m : matrix F) : node F :=
  Node FIFFB_EVOKED
       ((if Nat.ltb 0 (String.length (comment e))
         then [T_string FIFF_COMMENT (comment e)] else [])
          ++ [T_int FIFF_FIRST_SAMPLE (to_i4 (first e));
              T_int FIFF_LAST_SAMPLE (to_i4 (last e))])
       [Node FIFFB_ASPECT
             [T_int FIFF_ASPECT_KIND (to_i4 (aspect_kind e));
              T_int FIFF_NAVE (to_i4 (nave e));
              T_float_matrix FIFF_EPOCH (array_f4 m)] []].

(** ** More inputs for the examples *)

Module Inputs.
Import Example.

(** A file whose only aspect holds no epoch tag. *)
Definition meas_no_epoch : node Qc := meas_of [evoked_no_epoch].

(** A file with an aspect and a signal-minus-shield aspect. *)
Definition meas_smsh : node Qc := meas_of [evoked_smsh].

(** A file with two evoked blocks, of one and of two aspects. *)
Definition meas_uneven : node Qc :=
  meas_of [evoked0;
           Node FIFFB_EVOKED
                [T_int FIFF_FIRST_SAMPLE (-1); T_int FIFF_LAST_SAMPLE 1]
                [aspect0; aspect0]].

(** The dataset without its channel records. *)
Definition dataset_no_channels : @Evoked Qc unit unit :=
  set_info (set_chs [] info0) dataset0.

(** The dataset with an empty comment. *)
Definition dataset_no_comment : @Evoked Qc unit unit :=
  {| info := info0; nave := 5; aspect_kind := 100; first := -1; last := 1;
     comment := ""; times := times dataset0; data := data dataset0 |}.

(** Reading back what [write_evoked] wrote for [e]. *)
Definition read_back (e : @Evoked Qc unit unit) (setno : Z)
  : result (@Evoked Qc unit unit) :=
  read_evoked
    (fun _ => Ok (make_dir_tree (w_fid (snd (write_evoked_plain "out.fif" e)))))
    (read_meas_info_as info0) "out.fif" setno None.

End Inputs.

(** ** The scans, tag kind by tag kind *)

Definition int_kind_eq_dec (a b : int_kind) : {a = b} + {a <> b}.
Proof. decide equality. Defined.

Definition float_kind_eq_dec (a b : float_kind) : {a = b} + {a <> b}.
Proof. decide equality. Defined.

Definition string_kind_eq_dec (a b : string_kind) : {a = b} + {a <> b}.
Proof. decide equality. Defined.

Section TagValues.
Context {F : Type}.

(** The payloads of the tags of one kind, in directory order. *)
Definition ints_of (k : int_kind) (dir : list (tag F)) : list Z :=
  flat_map (fun t => match t with
                     | T_int k' v => if int_kind_eq_dec k k' then [v] else []
                     | _ => []
                     end) dir.

Definition floats_of (k : float_kind) (dir : list (tag F)) : list F :=
  flat_map (fun t => match t with
                     | T_float k' v => if float_kind_eq_dec k k' then [v] else []
                     | _ => []
                     end) dir.

Definition strings_of (k : string_kind) (dir : list (tag F)) : list string :=
  flat_map (fun t => match t with
                     | T_string k' s =>
                         if string_kind_eq_dec k k' then [s] else []
                     | _ => []
                     end) dir.

Definition epochs_of (dir : list (tag F)) : list (matrix F) :=
  flat_map (fun t => match t with
                     | T_float_matrix FIFF_EPOCH m => [m]
                     | _ => []
                     end) dir.

Definition channels_of (dir : list (tag F)) : list (ch_info F) :=
  flat_map (fun t => match t with
                     | T_ch_info c => [c]
                     | _ => []
                     end) dir.

(** The last element of a list, if it has one. *)
Definition last_value {A : Type} (l : list A) : option A := hd_error (rev l).

Definition value_or {A : Type} (d : A) (o : option A) : A :=
  match o with
  | Some a => a
  | None => d
  end.

(** The sampling rate in effect once an evoked block with the directory
    [dir] is scanned, as the specification words it: the rate of the last
    [FIFF_SFREQ] tag of the block where the last channel count of the
    block is positive and that rate is positive, the rate of the
    measurement info otherwise. *)
Definition rate_in_effect {SF : Scalar F} (file_rate : F)
    (dir : list (tag F)) : F :=
  if 0 <? value_or 0 (last_value (ints_of FIFF_NCHAN dir))
  then
    match last_value (floats_of FIFF_SFREQ dir) with
    | Some s => if flt fzero s then s else file_rate
    | None => file_rate
    end
  else file_rate.

(** The aspect block of the evoked block that [save] writes. *)
Definition written_aspect {proj comp : Type} {SF : Scalar F}
    (e : @Evoked F proj comp) (m : matrix F) : node F :=
  Node FIFFB_ASPECT
       [T_int FIFF_ASPECT_KIND (to_i4 (aspect_kind e));
        T_int FIFF_NAVE (to_i4 (nave e));
        T_float_matrix FIFF_EPOCH (array_f4 m)] [].

(** The record that [write_ch_info] encodes for the channel [ch]. *)
Definition encoded_channel {SF : Scalar F} (ch : ch_info F) : ch_info F :=
  {| scanno := to_i4 (scanno ch); logno := to_i4 (logno ch);
     ch_kind := to_i4 (ch_kind ch); range := to_f4 (range ch);
     cal := to_f4 (cal ch); coil_type := to_i4 (coil_type ch);
     loc := map to_f4 (loc ch); ch_unit := to_i4 (ch_unit ch);
     unit_mul := to_i4 (unit_mul ch);
     ch_name := substring 0 15 (ch_name ch) |}.

(** The tags that the loop "Channel information" writes in its rounds
    [k], ..., [k + n - 1] for the channel records [cs] of these rounds:
    one tag per round for which there is a record, the record carrying
    the number of the round as scan number. *)
Definition channel_tags {SF : Scalar F} (k n : nat) (cs : list (ch_info F))
  : list (tag F) :=
  map (fun p => T_ch_info
                  (encoded_channel (set_scanno (Z.of_nat (fst p)) (snd p))))
      (combine (seq k n) cs).

End TagValues.

(** ** The measurement info block that [save] writes, tag by tag *)

Section SaveLayout.
Context {F : Type} {SF : Scalar F}.
Variables proj comp : Type.
Variable linalg_inv : matrix F -> result (matrix F).
Variable fiff_open : string -> result (node F).
Variable copy_tree : list (node F) -> list (tag F) * option error.
Variable write_proj : list proj -> list (tag F) * option error.
Variable write_ctf_comp : list comp -> list (tag F) * option error.

(** The block tree of the file the dataset was read from, where the
    dataset names one that can be opened. *)
Definition original_of (e : @Evoked F proj comp) : option (node F) :=
  match filename (info e) with
  | Some f =>
      match fiff_open f with
      | Ok tree => Some tree
      | Raise _ => None
      end
  | None => None
  end.

(** A block of kind [b] is among the blocks [bs] found in [tree]. *)
Definition found_in (tree : node F) (b : block_kind) (bs : list block_kind)
  : bool :=
  existsb (fun b' => block_eqb b' b
                     && Nat.ltb 0 (length (dir_tree_find tree b'))) bs.

(** What [copy_tree] writes for the blocks [bs] of [tree]. *)
Definition copied_tags (tree : node F) (bs : list block_kind)
  : list (tag F) :=
  flat_map (fun b => fst (copy_tree (dir_tree_find tree b))) bs.

(** "General" *)
Definition general_tags (i : @meas_info F proj comp) : list (tag F) :=
  [T_float FIFF_SFREQ (to_f4 (sfreq i));
   T_float FIFF_HIGHPASS (to_f4 (highpass i));
   T_float FIFF_LOWPASS (to_f4 (lowpass i));
   T_int FIFF_NCHAN (to_i4 (nchan i))]
    ++ match meas_date i with
       | Some d => [T_int FIFF_MEAS_DATE (to_i4 d)]
       | None => []
       end.

(** The tag of a coordinate transformation whose inverse can be
    computed. *)
Definition transform_tags (t : option (coord_trans F)) : list (tag F) :=
  match t with
  | Some c =>
      match linalg_inv (trans c) with
      | Ok trans_inv =>
          [T_coord_trans {| from_ := to_i4 (from_ c); to := to_i4 (to c);
                            trans := array_f4 (trans c) |}
                         (array_f4 trans_inv)]
      | Raise _ => []
      end
  | None => []
  end.

(** "Polhemus data" *)
Definition dig_tags (ds : list (dig_point F)) : list (tag F) :=
  T_block_start FIFFB_ISOTRAK
    :: map (fun d => T_dig_point
                       {| dig_kind := to_i4 (dig_kind d);
                          ident := to_i4 (ident d);
                          dig_r := map to_f4 (firstn 3 (dig_r d)) |}) ds
    ++ [T_block_end FIFFB_ISOTRAK].

(** "Bad channels" *)
Definition bads_tags (names : list string) : list (tag F) :=
  if Nat.ltb 0 (length names)
  then [T_block_start FIFFB_MNE_BAD_CHANNELS;
        T_string FIFF_MNE_CH_NAME_LIST (String.concat ":" names);
        T_block_end FIFFB_MNE_BAD_CHANNELS]
  else [].

(** The flags [have_hpi_result] and [have_isotrak] after "Blocks from the
    original". *)
Definition have_hpi_result (e : @Evoked F proj comp) : bool :=
  match original_of e with
  | Some tree => found_in tree FIFFB_HPI_RESULT blocks
  | None => false
  end.

Definition have_isotrak (e : @Evoked F proj comp) : bool :=
  match original_of e with
  | Some tree => found_in tree FIFFB_ISOTRAK blocks
  | None => false
  end.

(** The measurement info block of a successful [save] of the dataset [e]:
    the blocks carried over from the original file, the general tags, the
    coordinate transformations unless an HPI result block was carried
    over, the channel records, the digitizer points unless an isotrak
    block was carried over, what [write_proj] and [write_ctf_comp] write,
    and the bad channels. *)
Definition meas_info_tags (e : @Evoked F proj comp) : list (tag F) :=
  let i := info e in
  [T_block_start FIFFB_MEAS_INFO]
    ++ match original_of e with
       | Some tree => copied_tags tree blocks
       | None => []
       end
    ++ general_tags i
    ++ (if have_hpi_result e then []
        else transform_tags (dev_head_t i) ++ transform_tags (ctf_head_t i))
    ++ channel_tags 0 (Z.to_nat (nchan i)) (chs i)
    ++ match dig i with
       | Some ds => if have_isotrak e then [] else dig_tags ds
       | None => []
       end
    ++ fst (write_proj (projs i))
    ++ fst (write_ctf_comp (comps i))
    ++ bads_tags (bads i)
    ++ [T_block_end FIFFB_MEAS_INFO].

Definition is_none {A : Type} (o : option A) : bool :=
  match o with
  | None => true
  | Some _ => false
  end.

(** The original file, if the dataset names one, can be opened and
    [copy_tree] raises for none of its blocks. *)
Definition original_copied (e : @Evoked F proj comp) : bool :=
  match filename (info e) with
  | Some f =>
      match fiff_open f with
      | Ok tree =>
          forallb (fun b => is_none (snd (copy_tree (dir_tree_find tree b))))
                  blocks
      | Raise _ => false
      end
  | None => true
  end.

(** The transform, if there is one, can be written: it has four columns
    or more and can be inverted, and so has the inverse. *)
Definition writable (t : option (coord_trans F)) : bool :=
  match t with
  | Some c =>
      Nat.ltb 3 (ncols (trans c))
      && match linalg_inv (trans c) with
         | Ok trans_inv => Nat.ltb 3 (ncols trans_inv)
         | Raise _ => false
         end
  | None => true
  end.

(** What "Measurement info" needs to go through. *)
Definition meas_info_succeeds (e : @Evoked F proj comp) : bool :=
  let i := info e in
  original_copied e
  && (have_hpi_result e
      || (writable (dev_head_t i) && writable (ctf_head_t i)))
  && Nat.leb (Z.to_nat (nchan i)) (length (chs i))
  && is_none (snd (write_proj (projs i)))
  && is_none (snd (write_ctf_comp (comps i))).

(** What [save] needs to go through: the file can be created, the
    measurement info can be written, and the data can be decalibrated. *)
Definition save_succeeds (can_open : string -> bool) (name : string)
    (e : @Evoked F proj comp) : bool :=
  can_open name
  && meas_info_succeeds e
  && match decalibrated e with
     | Ok _ => true
     | Raise _ => false
     end.

End SaveLayout.

(** ** [write.py], field by field

    The writers of [write.py] once more, at the level of what they hand to
    [fid.write]: every [np.array(x, dtype).tostring()] is the sequence of
    the elements of the array, each a [field] of the byte width of the
    [dtype]. *)

Module Bytes.

Section Fields.
Context {F : Type} {SF : Scalar F}.

(** One element of an array converted with [tostring]: [dtype] ['>i4'],
    ['>f4'], ['>f8'] or ['>c']. *)
Inductive field : Type :=
| I4 (z : Z)
| F4 (x : F)
| F8 (x : F)
| C1 (c : Ascii.ascii).

Definition field_size (f : field) : nat :=
  match f with
  | I4 _ => 4
  | F4 _ => 4
  | F8 _ => 8
  | C1 _ => 1
  end.

(** The number of bytes of a sequence of fields. *)
Definition byte_count (fs : list field) : nat :=
  fold_right (fun f n => (field_size f + n)%nat) 0%nat fs.

(** The [data] argument of [_write]: a Python or numpy scalar, an
    [np.ndarray] with its elements in storage order, a Python list, or a
    [str] with its characters. *)
Inductive py_data (A : Type) : Type :=
| Py_scalar (x : A)
| Py_ndarray (xs : list A)
| Py_list (xs : list A)
| Py_str (s : list A).

(** The elements of [np.array(data, dtype)]. *)
Definition elements {A : Type} (data : py_data A) : list A :=
  match data with
  | Py_scalar x => [x]
  | Py_ndarray xs => xs
  | Py_list xs => xs
  | Py_str s => s
  end.

Definition FIFFV_NEXT_SEQ : Z := 0.

(** [_write]; [dtype] converts one element. *)
Definition _write {A : Type} (data : py_data A) (kind data_size FIFFT_TYPE : Z)
    (dtype : A -> field) : list field :=
  let data_size :=
    match data with
    | Py_ndarray xs => data_size * Z.of_nat (length xs)
    | _ => data_size
    end in
  let data_size :=
    match data with
    | Py_str s => data_size * Z.of_nat (length s)
    | _ => data_size
    end in
  [I4 (to_i4 kind); I4 (to_i4 FIFFT_TYPE); I4 (to_i4 data_size);
   I4 (to_i4 FIFFV_NEXT_SEQ)]
    ++ map dtype (elements data).

Definition write_int (kind : Z) (data : py_data Z) : list field :=
  let FIFFT_INT := 3 in
  let data_size := 4 in
  _write data kind data_size FIFFT_INT (fun z => I4 (to_i4 z)).

Definition write_double (kind : Z) (data : py_data F) : list field :=
  let FIFFT_DOUBLE := 5 in
  let data_size := 8 in
  _write data kind data_size FIFFT_DOUBLE F8.

Definition write_float (kind : Z) (data : py_data F) : list field :=
  let FIFFT_FLOAT := 4 in
  let data_size := 4 in
  _write data kind data_size FIFFT_FLOAT (fun x => F4 (to_f4 x)).

Definition write_string (kind : Z) (data : string) : list field :=
  let FIFFT_STRING := 10 in
  let data_size := 1 in
  _write (Py_str (list_ascii_of_string data)) kind data_size FIFFT_STRING C1.

Definition write_name_list (kind : Z) (data : list string) : list field :=
  write_string kind (String.concat ":" data).

(** [np.array(mat, dtype='>f4').tostring()]: the rows one after the
    other. *)
Definition floats (rows : list (list F)) : list field :=
  map (fun x => F4 (to_f4 x)) (concat rows).

Definition write_float_matrix (kind : Z) (mat : matrix F) : list field :=
  let FIFFT_FLOAT := 4 in
  let FIFFT_MATRIX := Z.shiftl 1 30 in
  let FIFFT_MATRIX_FLOAT := Z.lor FIFFT_FLOAT FIFFT_MATRIX in
  let data_size := 4 * Z.of_nat (nrows mat * ncols mat) + 4 * 3 in
  [I4 (to_i4 kind); I4 (to_i4 FIFFT_MATRIX_FLOAT); I4 (to_i4 data_size);
   I4 (to_i4 FIFFV_NEXT_SEQ)]
    ++ floats (cells mat)
    ++ [I4 (to_i4 (Z.of_nat (ncols mat))); I4 (to_i4 (Z.of_nat (nrows mat)));
        I4 (to_i4 2)].

(** The id that [write_id] generates is made of two random numbers and of
    the time of the call, here as the integers they are converted to. *)
Variable random_machid : Z * Z.
Variable time_time : Z.

Definition write_id (kind : Z) (id_ : option fiff_id) : list field :=
  let id_ :=
    match id_ with
    | Some i => i
    | None =>
        {| version := Z.lor (Z.shiftl 1 16) 2;
           machid0 := fst random_machid; machid1 := snd random_machid;
           secs := time_time; usecs := 0 |}
    end in
  let FIFFT_ID_STRUCT := 31 in
  let data_size := 5 * 4 in
  [I4 (to_i4 kind); I4 (to_i4 FIFFT_ID_STRUCT); I4 (to_i4 data_size);
   I4 (to_i4 FIFFV_NEXT_SEQ)]
    ++ [I4 (to_i4 (version id_)); I4 (to_i4 (machid0 id_));
        I4 (to_i4 (machid1 id_)); I4 (to_i4 (secs id_));
        I4 (to_i4 (usecs id_))].

Definition start_block (kind : Z) : list field :=
  let FIFF_BLOCK_START := 104 in
  write_int FIFF_BLOCK_START (Py_scalar kind).

Definition end_block (kind : Z) : list field :=
  let FIFF_BLOCK_END := 105 in
  write_int FIFF_BLOCK_END (Py_scalar kind).

(** The header of a file that could be opened. *)
Definition start_file : list field :=
  let FIFF_FILE_ID := 100 in
  let FIFF_DIR_POINTER := 101 in
  let FIFF_FREE_LIST := 106 in
  write_id FIFF_FILE_ID None
    ++ write_int FIFF_DIR_POINTER (Py_scalar (-1))
    ++ write_int FIFF_FREE_LIST (Py_scalar (-1)).

(** [FIFF.FIFF_NOP], [FIFF.FIFFT_VOID] and [FIFF.FIFFV_NEXT_NONE] are
    defined in [constants.py], which is not part of the sources. *)
Variables FIFF_NOP FIFFT_VOID FIFFV_NEXT_NONE : Z.

Definition end_file : list field :=
  let data_size := 0 in
  [I4 (to_i4 FIFF_NOP); I4 (to_i4 FIFFT_VOID); I4 (to_i4 data_size);
   I4 (to_i4 FIFFV_NEXT_NONE)].

(** [m[:3, :3]] and [m[:3, 3]]; the second raises an [IndexError] when [m]
    has fewer than four columns. *)
Definition rot_of (m : matrix F) : list (list F) :=
  map (firstn 3) (firstn 3 (cells m)).

Definition move_of (m : matrix F) : result (list F) :=
  if Nat.ltb 3 (ncols m)
  then Ok (map (fun r => nth 3 r fzero) (firstn 3 (cells m)))
  else Raise IndexError.

Variable linalg_inv : matrix F -> result (matrix F).

(** The fields written, and the exception raised, if any. *)
Definition write_coord_trans (c : coord_trans F) : list field * option error :=
  let FIFF_COORD_TRANS := 222 in
  let FIFFT_COORD_TRANS_STRUCT := 35 in
  let data_size := 4 * 2 * 12 + 4 * 2 in
  let head :=
    [I4 (to_i4 FIFF_COORD_TRANS); I4 (to_i4 FIFFT_COORD_TRANS_STRUCT);
     I4 (to_i4 data_size); I4 (to_i4 FIFFV_NEXT_SEQ);
     I4 (to_i4 (from_ c)); I4 (to_i4 (to c))] in
  match move_of (trans c) with
  | Raise e => (head, Some e)
  | Ok move =>
      let forward :=
        head ++ floats (rot_of (trans c)) ++ floats [move] in
      match linalg_inv (trans c) with
      | Raise e => (forward, Some e)
      | Ok trans_inv =>
          match move_of trans_inv with
          | Raise e => (forward, Some e)
          | Ok move_inv =>
              (forward ++ floats (rot_of trans_inv) ++ floats [move_inv], None)
          end
      end
  end.

(** ['\0' * n] *)
Definition nul_padding (n : nat) : list field := repeat (C1 Ascii.zero) n.

Definition write_ch_info (ch : ch_info F) : list field :=
  let FIFF_CH_INFO := 203 in
  let FIFFT_CH_INFO_STRUCT := 30 in
  let data_size := 4 * 13 + 4 * 7 + 16 in
  let ch_name :=
    if Nat.eqb (String.length (ch_name ch)) 0
    then ch_name ch
    else substring 0 15 (ch_name ch) in
  [I4 (to_i4 FIFF_CH_INFO); I4 (to_i4 FIFFT_CH_INFO_STRUCT);
   I4 (to_i4 data_size); I4 (to_i4 FIFFV_NEXT_SEQ)]
    ++ [I4 (to_i4 (scanno ch)); I4 (to_i4 (logno ch));
        I4 (to_i4 (ch_kind ch)); F4 (to_f4 (range ch)); F4 (to_f4 (cal ch));
        I4 (to_i4 (coil_type ch))]
    ++ floats [loc ch]
    ++ [I4 (to_i4 (ch_unit ch)); I4 (to_i4 (unit_mul ch))]
    ++ map C1 (list_ascii_of_string ch_name)
    ++ (if Nat.ltb (String.length ch_name) 16
        then nul_padding (16 - String.length ch_name)
        else []).

Definition write_dig_point (dig : dig_point F) : list field :=
  let FIFF_DIG_POINT := 213 in
  let FIFFT_DIG_POINT_STRUCT := 33 in
  let data_size := 5 * 4 in
  [I4 (to_i4 FIFF_DIG_POINT); I4 (to_i4 FIFFT_DIG_POINT_STRUCT);
   I4 (to_i4 data_size); I4 (to_i4 FIFFV_NEXT_SEQ)]
    ++ [I4 (to_i4 (dig_kind dig)); I4 (to_i4 (ident dig))]
    ++ floats [firstn 3 (dig_r dig)].

(** [write_named_matrix] raises before it writes. *)
Definition write_named_matrix (kind : Z) (mat : matrix F)
  : list field * option error :=
  ([], Some NotImplementedError).

(** The size announced in the header of a tag is the number of bytes that
    follow the header. *)
Definition size_field_ok (fs : list field) : bool :=
  match fs with
  | I4 _ :: I4 _ :: I4 n :: I4 _ :: payload =>
      n =? Z.of_nat (byte_count payload)
  | _ => false
  end.

End Fields.

End Bytes.

(** ** Inputs for the examples of the further properties *)

Module MoreInputs.
Import Example Inputs.

(** The file system that holds what [write_evoked] wrote for [e]. *)
Definition written_file (e : @Evoked Qc unit unit) (f : string)
  : result (node Qc) :=
  Ok (make_dir_tree (w_fid (snd (write_evoked_plain "out.fif" e)))).

(** A channel record with the twelve numbers of a location. *)
Definition ch_located : ch_info Qc :=
  {| scanno := 1; logno := 1; ch_kind := 1; range := q 1; cal := q 1;
     coil_type := 3012;
     loc := [q 0; q 0; q 0; q 1; q 0; q 0; q 0; q 1; q 0; q 0; q 0; q 1];
     ch_unit := 112; unit_mul := 0; ch_name := "MEG 0113" |}.

Definition identity_4x4 : matrix Qc :=
  mkMat 4 4 [[q 1; q 0; q 0; q 0]; [q 0; q 1; q 0; q 0];
             [q 0; q 0; q 1; q 0]; [q 0; q 0; q 0; q 1]].

(** An evoked block with channel information of its own: one channel
    with the calibration 3, sampled at 1000 Hz. *)
Definition aspect_local : node Qc :=
  Node FIFFB_ASPECT
       [T_int FIFF_ASPECT_KIND 100;
        T_float_matrix FIFF_EPOCH (mkMat 1 3 [[q 1; q 2; q 3]])] [].

Definition evoked_local : node Qc :=
  Node FIFFB_EVOKED
       [T_int FIFF_NCHAN 1; T_float FIFF_SFREQ (q 1000);
        T_ch_info (ch 7 (q 3) "LOC 001");
        T_int FIFF_FIRST_SAMPLE (-1); T_int FIFF_LAST_SAMPLE 1]
       [aspect_local].

(** The dataset as [read_evoked] leaves it: it names the file it was
    read from. *)
Definition dataset_of_file : @Evoked Qc unit unit :=
  set_info (set_filename (Some "test-ave.fif"%string) info0) dataset0.

End MoreInputs.

(** ** Binary64, the arithmetic of Python and numpy floats

    The operations of [Scalar] as IEEE 754 defines them for the binary64
    format (53 bits of precision, rounding to nearest even), with the
    conversion to binary32 and back for [dtype='>f4']. *)

Module Binary64.

Definition float : Type := SpecFloat.spec_float.

(** [float(z)] *)
Definition of_Z (z : Z) : float := SpecFloat.binary_normalize 53 1024 z 0 false.

(** [np.array(x, dtype='>f4')], read as a binary64 number again. *)
Definition to_single (x : float) : float :=
  match x with
  | SpecFloat.S754_finite s m e =>
      match SpecFloat.binary_round 24 128 s m e with
      | SpecFloat.S754_finite s' m' e' =>
          SpecFloat.binary_round 53 1024 s' m' e'
      | y => y
      end
  | _ => x
  end.

#[export] Instance b64_scalar : Scalar float := {
  fzero := SpecFloat.S754_zero false;
  fone := of_Z 1;
  fadd := SpecFloat.SFadd 53 1024;
  fsub := SpecFloat.SFsub 53 1024;
  fmul := SpecFloat.SFmul 53 1024;
  fdiv := SpecFloat.SFdiv 53 1024;
  of_int := of_Z;
  to_f4 := to_single;
  fle := SpecFloat.SFleb;
  flt := SpecFloat.SFltb
}.

Definition infinity : float := SpecFloat.S754_infinity false.

(** The small file of [Example] once more, in binary64: two channels with
    the calibrations 1.0 and 2.0, sampled at 600 Hz. *)
Definition ch (k : Z) (c : float) (name : string) : ch_info float :=
  {| scanno := k; logno := k; ch_kind := 1; range := of_Z 1; cal := c;
     coil_type := 3012; loc := []; ch_unit := 112; unit_mul := 0;
     ch_name := name |}.

Definition info0 : @meas_info float unit unit :=
  {| sfreq := of_Z 600; highpass := of_Z 0; lowpass := of_Z 40; nchan := 2;
     meas_date := None; dev_head_t := None; ctf_head_t := None;
     chs := [ch 1 (of_Z 1) "MEG 001"; ch 2 (of_Z 2) "MEG 002"];
     dig := None; projs := []; comps := []; bads := [];
     meas_id := None; filename := None |}.

Definition epoch_2x3 : matrix float :=
  mkMat 2 3 [[of_Z 1; of_Z 2; of_Z 3]; [of_Z 4; of_Z 5; of_Z 6]].

Definition aspect0 : node float :=
  Node FIFFB_ASPECT
       [T_int FIFF_ASPECT_KIND 100; T_int FIFF_NAVE 5;
        T_float_matrix FIFF_EPOCH epoch_2x3] [].

Definition evoked0 : node float :=
  Node FIFFB_EVOKED
       [T_string FIFF_COMMENT "left"; T_int FIFF_FIRST_SAMPLE (-1);
        T_int FIFF_LAST_SAMPLE 1]
       [aspect0].

(** The dataset of that file, as assembled without baseline. *)
Definition dataset0 : @Evoked float unit unit :=
  {| info := info0; nave := 5; aspect_kind := 100; first := -1; last := 1;
     comment := "left"; times := time_axis (-1) 1 (of_Z 600);
     data := mkMat 2 3 [[of_Z 1; of_Z 2; of_Z 3]; [of_Z 8; of_Z 10; of_Z 12]] |}.

(** An epoch with an infinite value in channel 0 and 1.0 in channel 1. *)
Definition epoch_inf : matrix float := mkMat 2 1 [[infinity]; [of_Z 1]].

Definition nothing {A : Type} (_ : A) : list (tag float) * option error :=
  ([], None).

Definition write_evoked_plain (name : string) (e : @Evoked float unit unit)
  : result unit * wstate unit unit :=
  write_evoked (fun _ => true) (fun m => Ok m) (fun _ => Raise IOError)
               nothing nothing nothing name e.

(** One measurement info for every file: the decoding of the measurement
    info is not part of the sources. *)
Definition read_meas_info_as (i : @meas_info float unit unit)
    (tree : node float)
  : result (@meas_info float unit unit * node float) :=
  match dir_tree_find tree FIFFB_MEAS with
  | meas :: _ => Ok (i, meas)
  | [] => Raise (ValueError Could_not_find_processed_data)
  end.

(** The file system that holds what [write_evoked] wrote for [e]. *)
Definition written_file (e : @Evoked float unit unit) (f : string)
  : result (node float) :=
  Ok (make_dir_tree (w_fid (snd (write_evoked_plain "out.fif" e)))).

End Binary64.

(** * Properties *)

(** ** Selection *)

Section SelectionFacts.
Context {F : Type}.

Lemma identify_aspects_plain (evs : list (node F)) (c : nat) :
  Forall (fun ev => dir_tree_find ev FIFFB_SMSH_ASPECT = []) evs ->
  Forall (fun ev => length (dir_tree_find ev FIFFB_ASPECT) = 0%nat
                    \/ length (dir_tree_find ev FIFFB_ASPECT) = c) evs ->
  forall n is_smsh sets,
    is_smsh = None \/ (exists rows, is_smsh = Some (rows, c)) ->
    identify_aspects evs n is_smsh sets
    = Ok ((n + length (ordinary_units evs))%nat, sets ++ map set_of evs).
Proof.
  induction 1 as [|ev evs Hev _ IH]; intros Hc n is_smsh sets Hs.
  - simpl. now rewrite Nat.add_0_r, app_nil_r.
  - inversion Hc as [|? ? Hlen Hrest]; subst.
    assert (Hgo : forall n' sm,
               sm = None \/ (exists rows, sm = Some (rows, c)) ->
               n' = (n + length (dir_tree_find ev FIFFB_ASPECT))%nat ->
               identify_aspects evs n' sm (sets ++ [set_of ev])
               = Ok ((n + length (ordinary_units (ev :: evs)))%nat,
                     sets ++ map set_of (ev :: evs))).
    { intros n' sm Hsm ->. rewrite (IH Hrest _ _ _ Hsm).
      cbn [ordinary_units flat_map map].
      now rewrite length_app, length_map, <- app_assoc, Nat.add_assoc. }
    cbn [identify_aspects naspect]. rewrite Hev.
    change (Nat.ltb 0 (length (@nil (node F)))) with false.
    fold (set_of ev).
    destruct (Nat.ltb_spec 0 (length (dir_tree_find ev FIFFB_ASPECT)))
      as [Hpos|Hzero].
    + assert (Hk : length (dir_tree_find ev FIFFB_ASPECT) = c)
        by (destruct Hlen; [lia | assumption]).
      destruct Hs as [-> | (rows & ->)].
      * cbn [rbind]. apply Hgo; [right; exists 1%nat; now rewrite Hk | lia].
      * destruct (Nat.eqb_spec c (length (dir_tree_find ev FIFFB_ASPECT)));
          [| congruence].
        cbn [rbind]. apply Hgo; [right; now exists (S rows) | lia].
    + cbn [rbind]. apply Hgo; [exact Hs | lia].
Qed.

Lemma identify_aspects_smsh (evs : list (node F)) :
  Exists (fun ev => dir_tree_find ev FIFFB_SMSH_ASPECT <> []) evs ->
  forall n is_smsh sets,
    exists e, identify_aspects evs n is_smsh sets = Raise e.
Proof.
  induction evs as [|ev evs IH]; intros Hex n is_smsh sets.
  - inversion Hex.
  - cbn [identify_aspects].
    destruct (if Nat.ltb 0 _ then _ else _) as [[sm n']|e];
      [| now exists e].
    cbn [rbind].
    destruct (dir_tree_find ev FIFFB_SMSH_ASPECT) as [|sa sas] eqn:E.
    + cbn [length Nat.ltb Nat.leb]. apply IH.
      inversion Hex; subst; [congruence | assumption].
    + now exists TypeError.
Qed.

Lemma locate_aspect_spec (ev : node F) (s : aspect_set) (len : nat) :
  forall (a0 : nat) (p setno : Z),
    p <= setno ->
    (a0 + len <= length (aspects s))%nat ->
    (setno < p + Z.of_nat len ->
     exists a,
       nth_error (aspects s) (a0 + Z.to_nat (setno - p)) = Some a /\
       locate_aspect ev s (seq a0 len) p setno = inl (Ok (ev, a))) /\
    (p + Z.of_nat len <= setno ->
     locate_aspect ev s (seq a0 len) p setno = inr (p + Z.of_nat len)).
Proof.
  induction len as [|len IH]; intros a0 p setno Hp Hlen; simpl seq;
    cbn [locate_aspect].
  - split; [lia | intros _; f_equal; lia].
  - destruct (Z.eqb_spec p setno) as [->|Hne].
    + split; [intros _ | lia].
      replace (setno - setno) with 0 by lia. rewrite Nat.add_0_r.
      destruct (nth_error (aspects s) a0) as [a|] eqn:E.
      * now exists a.
      * apply nth_error_None in E. lia.
    + destruct (IH (S a0) (p + 1) setno) as [IHin IHout]; [lia | lia |].
      split.
      * intros Hlt. destruct IHin as (a & Ha & Hloc); [lia |].
        exists a. split; [| exact Hloc].
        replace (a0 + Z.to_nat (setno - p))%nat
          with (S a0 + Z.to_nat (setno - (p + 1)))%nat by lia.
        exact Ha.
      * intros Hge. rewrite IHout by lia. f_equal. lia.
Qed.

Lemma locate_spec (evs : list (node F)) :
  forall (p setno : Z),
    p <= setno ->
    (setno < p + Z.of_nat (length (ordinary_units evs)) ->
     exists u,
       nth_error (ordinary_units evs) (Z.to_nat (setno - p)) = Some u /\
       locate (combine evs (map set_of evs)) p setno = Ok u) /\
    (p + Z.of_nat (length (ordinary_units evs)) <= setno ->
     locate (combine evs (map set_of evs)) p setno = Raise TypeError).
Proof.
  induction evs as [|ev evs IH]; intros p setno Hp.
  - simpl. split; [lia | reflexivity].
  - cbn [ordinary_units flat_map map combine locate].
    fold (ordinary_units evs).
    rewrite length_app, length_map.
    set (asp := dir_tree_find ev FIFFB_ASPECT).
    destruct (locate_aspect_spec ev (set_of ev) (length asp) 0%nat Hp)
      as [Hin Hout]; [unfold asp; simpl; lia |].
    cbn [set_of naspect]. fold asp.
    destruct (Z.ltb_spec setno (p + Z.of_nat (length asp))) as [Hlt|Hge].
    + split; [intros _ | lia].
      destruct Hin as (a & Ha & Hloc); [exact Hlt |].
      cbn [set_of aspects] in Ha. fold asp in Ha. simpl in Ha.
      exists (ev, a). split.
      * rewrite nth_error_app1 by (rewrite length_map; lia).
        now rewrite nth_error_map, Ha.
      * now rewrite Hloc.
    + rewrite Hout by exact Hge.
      destruct (IH (p + Z.of_nat (length asp)) setno Hge) as [IHin IHout].
      split.
      * intros Hlt. destruct IHin as (u & Hu & Hloc); [lia |].
        exists u. split; [| exact Hloc].
        rewrite nth_error_app2 by (rewrite length_map; lia).
        rewrite length_map.
        replace (Z.to_nat (setno - p) - length asp)%nat
          with (Z.to_nat (setno - (p + Z.of_nat (length asp)))) by lia.
        exact Hu.
      * intros Hge'. apply IHout. lia.
Qed.

Lemma selectable_units_plain (meas : node F) :
  no_smsh meas ->
  selectable_units meas = ordinary_units (dir_tree_find meas FIFFB_EVOKED).
Proof.
  unfold no_smsh, selectable_units, ordinary_units.
  induction 1 as [|ev evs Hev _ IH]; simpl.
  - reflexivity.
  - now rewrite Hev, app_nil_r, IH.
Qed.

(** Without signal-minus-shield aspects the selector returns the unit at
    index [setno] of the enumeration, and refuses an index past the end. *)
Lemma select_plain (meas : node F) (setno : Z) :
  dir_tree_find meas FIFFB_PROCESSED_DATA <> [] ->
  dir_tree_find meas FIFFB_EVOKED <> [] ->
  no_smsh meas -> aspects_agree meas ->
  (0 <= setno < Z.of_nat (total_count meas) ->
   exists u,
     nth_error (selectable_units meas) (Z.to_nat setno) = Some u /\
     select meas setno = Ok u) /\
  (Z.of_nat (total_count meas) <= setno ->
   select meas setno = Raise (ValueError Selector_out_of_range)) /\
  (setno < 0 ->
   select meas setno = Raise (ValueError Selector_out_of_range)).
Proof.
  intros Hproc Hev Hplain (c & Hagree). unfold total_count.
  rewrite (selectable_units_plain Hplain). unfold select.
  destruct (dir_tree_find meas FIFFB_PROCESSED_DATA) as [|pr prs];
    [congruence |].
  destruct (dir_tree_find meas FIFFB_EVOKED) as [|e es] eqn:Eev;
    [congruence |].
  cbn [length Nat.eqb]. rewrite <- Eev in *.
  rewrite (identify_aspects_plain Hplain Hagree) by now left.
  cbn [rbind app Nat.add].
  set (evs := dir_tree_find meas FIFFB_EVOKED).
  destruct (locate_spec evs (p := 0) (setno := Z.max 0 setno))
    as [Hin _]; [lia |].
  repeat split.
  - intros [H0 Hlt].
    destruct (Z.geb_spec setno (Z.of_nat (length (ordinary_units evs))));
      [lia |].
    destruct (Z.ltb_spec setno 0); [lia |]. cbn [orb].
    rewrite Z.max_r in Hin by lia.
    destruct Hin as (u & Hu & Hloc); [lia |].
    exists u. split; [| exact Hloc].
    now replace (setno - 0) with setno in Hu by lia.
  - intros Hge.
    destruct (Z.geb_spec setno (Z.of_nat (length (ordinary_units evs))));
      [reflexivity | lia].
  - intros Hneg.
    destruct (Z.ltb_spec setno 0); [| lia].
    now rewrite orb_true_r.
Qed.

(** A signal-minus-shield aspect anywhere in the file makes the selector
    raise, whatever the index. *)
Lemma select_smsh (meas : node F) (setno : Z) :
  ~ no_smsh meas -> exists e, select meas setno = Raise e.
Proof.
  intros Hsm. unfold select.
  destruct (Nat.eqb _ 0); [now eexists |].
  destruct (Nat.eqb _ 0); [now eexists |].
  destruct (@identify_aspects_smsh (dir_tree_find meas FIFFB_EVOKED))
    with (n := 0%nat) (is_smsh := @None (nat * nat))
         (sets := @nil (@aspect_set F)) as (e & ->).
  - unfold no_smsh in Hsm. apply neg_Forall_Exists_neg in Hsm.
    + exact Hsm.
    + intros ev. destruct (dir_tree_find ev FIFFB_SMSH_ASPECT);
        [now left | right; discriminate].
  - now exists e.
Qed.

End SelectionFacts.

(** ** Assembly *)

Lemma rbind_Ok {A B : Type} (r : result A) (k : A -> result B) (b : B) :
  rbind r k = Ok b -> exists a, r = Ok a /\ k a = Ok b.
Proof.
  destruct r as [a|e]; simpl; intros H; [now exists a | discriminate].
Qed.

Section AssemblyFacts.
Context {F : Type} {SF : Scalar F}.
Variables proj comp : Type.

Local Abbreviation meas_info := (@meas_info F proj comp).
Local Abbreviation Evoked := (@Evoked F proj comp).

Lemma gather_Ok (i : meas_info) (ev asp : node F) (g : gathered proj comp) :
  gather i ev asp = Ok g ->
  local_channels (scan_evoked ev) i = Ok (g_info g) /\
  sample_range (scan_evoked ev) = Ok (g_first g, g_last g) /\
  g_vars g = scan_aspect asp (default_comment (v_comment (scan_evoked ev))) /\
  a_aspect_kind (g_vars g) = Some (g_aspect_kind g) /\
  raw_data (a_epoch (g_vars g)) (nchan (g_info g))
           (g_last g - g_first g + 1) = Ok (g_raw g).
Proof.
  unfold gather. intros H.
  apply rbind_Ok in H. destruct H as (i' & Hi & H).
  apply rbind_Ok in H. destruct H as ([f l] & Hr & H).
  destruct (a_aspect_kind _) as [ak|] eqn:Hak; [| discriminate].
  apply rbind_Ok in H. destruct H as (m & Hm & H).
  injection H as <-. simpl. auto.
Qed.

Lemma assemble_Ok (i : meas_info) (ev asp : node F)
    (baseline : option (option F * option F)) (d : Evoked) :
  assemble i ev asp baseline = Ok d ->
  exists g m,
    gather i ev asp = Ok g /\
    calibrate (g_info g) (g_raw g) = Ok m /\
    apply_baseline baseline (times d) m = Ok (data d) /\
    times d = time_axis (g_first g) (g_last g) (sfreq (g_info g)) /\
    info d = g_info g /\ first d = g_first g /\ last d = g_last g /\
    nave d = a_nave (g_vars g) /\ aspect_kind d = g_aspect_kind g /\
    comment d = a_comment (g_vars g).
Proof.
  unfold assemble. intros H.
  apply rbind_Ok in H. destruct H as (g & Hg & H).
  apply rbind_Ok in H. destruct H as (m & Hm & H).
  apply rbind_Ok in H. destruct H as (m' & Hb & H).
  injection H as <-. exists g, m. simpl. repeat split; auto.
Qed.

Lemma raw_data_ncols (epoch : list (matrix F)) (n nsamp : Z) (m : matrix F) :
  raw_data epoch n nsamp = Ok m -> Z.of_nat (ncols m) = nsamp.
Proof.
  unfold raw_data. destruct (_ && _); [discriminate |]. intros H.
  apply rbind_Ok in H. destruct H as (a & _ & H).
  destruct (Z.eqb_spec (Z.of_nat (ncols a)) nsamp) as [E|E]; simpl in H;
    [| discriminate].
  now injection H as <-.
Qed.

Lemma dot_shape (a b m : matrix F) :
  dot a b = Ok m ->
  ncols a = nrows b /\ nrows m = nrows a /\ ncols m = ncols b.
Proof.
  unfold dot. destruct (Nat.eqb_spec (ncols a) (nrows b)); [| discriminate].
  intros H. injection H as <-. auto.
Qed.

Lemma cals_of_length (ks : list nat) (c : list (ch_info F)) (cals : list F) :
  cals_of ks c = Ok cals -> length cals = length ks.
Proof.
  revert cals. induction ks as [|k ks IH]; simpl; intros cals H.
  - now injection H as <-.
  - destruct (nth_error c k); [| discriminate].
    apply rbind_Ok in H. destruct H as (cs & Hcs & H).
    injection H as <-. simpl. f_equal. now apply IH.
Qed.

Lemma calibrate_shape (i : meas_info) (a m : matrix F) :
  calibrate i a = Ok m ->
  nrows a = Z.to_nat (nchan i) /\ nrows m = nrows a /\ ncols m = ncols a.
Proof.
  unfold calibrate. intros H.
  apply rbind_Ok in H. destruct H as (cals & Hc & H).
  apply cals_of_length in Hc. rewrite length_seq in Hc.
  apply dot_shape in H. unfold diag in H. simpl in H.
  destruct H as (H1 & H2 & H3). repeat split; congruence.
Qed.

Lemma apply_baseline_shape (baseline : option (option F * option F))
    (ts : list F) (a m : matrix F) :
  apply_baseline baseline ts a = Ok m ->
  nrows m = nrows a /\ ncols m = ncols a.
Proof.
  unfold apply_baseline. destruct baseline as [[bmin bmax]|]; intros H.
  - apply rbind_Ok in H. destruct H as (imin & _ & H).
    apply rbind_Ok in H. destruct H as (imax & _ & H).
    injection H as <-. auto.
  - injection H as <-. auto.
Qed.

Lemma arange_length (lo hi : Z) : length (arange lo hi) = Z.to_nat (hi - lo).
Proof. unfold arange. now rewrite length_map, length_seq. Qed.

Lemma arange_nth (lo hi : Z) (n : nat) :
  (n < Z.to_nat (hi - lo))%nat ->
  nth_error (arange lo hi) n = Some (lo + Z.of_nat n).
Proof.
  intros Hn. unfold arange. rewrite nth_error_map.
  rewrite (nth_error_nth' _ 0%nat) by (now rewrite length_seq).
  now rewrite seq_nth.
Qed.

(** The index [np.where(mask)[0][0]] is the first at which [mask] holds. *)
Lemma np_where_first (mask : list bool) :
  forall (off i : nat),
    item_first (np_where mask off) = Ok i ->
    (off <= i)%nat /\ nth_error mask (i - off) = Some true /\
    forall j, (j < i - off)%nat -> nth_error mask j = Some false.
Proof.
  induction mask as [|b mask IH]; intros off i; simpl.
  - discriminate.
  - destruct b; simpl.
    + intros H. injection H as <-. rewrite Nat.sub_diag.
      repeat split; [lia | intros j Hj; lia].
    + intros H. apply IH in H. destruct H as (Hle & Hi & Hbefore).
      replace (i - off)%nat with (S (i - S off)) by lia.
      repeat split; [lia | exact Hi |].
      intros [|j] Hj; [reflexivity | apply Hbefore; lia].
Qed.

Lemma np_where_app (m1 m2 : list bool) (off : nat) :
  np_where (m1 ++ m2) off = np_where m1 off ++ np_where m2 (off + length m1).
Proof.
  revert off. induction m1 as [|b m1 IH]; intros off; simpl.
  - now rewrite Nat.add_0_r.
  - rewrite IH, app_assoc. f_equal. f_equal. lia.
Qed.

(** The index [np.where(mask)[0][-1]] is the last at which [mask] holds. *)
Lemma np_where_last (mask : list bool) (i : nat) :
  item_last (np_where mask 0) = Ok i ->
  nth_error mask i = Some true /\
  forall j, (i < j < length mask)%nat -> nth_error mask j = Some false.
Proof.
  induction mask as [|b mask IH] using rev_ind; unfold item_last.
  - discriminate.
  - rewrite np_where_app. simpl. rewrite app_nil_r, rev_app_distr.
    destruct b; simpl.
    + intros H. injection H as <-. split.
      * now rewrite nth_error_app2, Nat.sub_diag by lia.
      * intros j. rewrite length_app. simpl. lia.
    + intros H. apply IH in H. destruct H as (Hi & Hafter).
      assert (i < length mask)%nat
        by (apply nth_error_Some; congruence).
      split.
      * now rewrite nth_error_app1.
      * intros j. rewrite length_app. simpl. intros Hj.
        destruct (Nat.eq_dec j (length mask)) as [->|Hne].
        -- now rewrite nth_error_app2, Nat.sub_diag by lia.
        -- rewrite nth_error_app1 by lia. apply Hafter. lia.
Qed.

End AssemblyFacts.


Section AssemblyClaims.
Context {F : Type} {SF : Scalar F}.
Variables proj comp : Type.

Local Abbreviation meas_info := (@meas_info F proj comp).
Local Abbreviation Evoked := (@Evoked F proj comp).

Lemma assemble_sample_count (i : meas_info) (ev asp : node F)
    (baseline : option (option F * option F)) (d : Evoked) :
  assemble i ev asp baseline = Ok d ->
  Z.of_nat (ncols (data d)) = last d - first d + 1 /\
  length (times d) = ncols (data d).
Proof.
  intros H. apply assemble_Ok in H.
  destruct H as (g & m & Hg & Hm & Hb & Ht & _ & Hf & Hl & _).
  apply gather_Ok in Hg. destruct Hg as (_ & _ & _ & _ & Hraw).
  apply raw_data_ncols in Hraw. apply calibrate_shape in Hm.
  apply apply_baseline_shape in Hb.
  destruct Hm as (_ & _ & Hm). destruct Hb as (_ & Hb).
  assert (Hc : Z.of_nat (ncols (data d)) = last d - first d + 1)
    by (rewrite Hb, Hm, Hf, Hl; exact Hraw).
  split; [exact Hc |].
  rewrite Ht. unfold time_axis. rewrite length_map, arange_length.
  rewrite <- Hf, <- Hl. lia.
Qed.

(** The time axis of an assembled dataset, by the sampling rate of its
    info. *)
Lemma time_axis_of_info (i : meas_info) (ev asp : node F)
    (baseline : option (option F * option F)) (d : Evoked) :
  assemble i ev asp baseline = Ok d ->
  Z.of_nat (length (times d)) = last d - first d + 1 /\
  length (times d) = ncols (data d) /\
  local_channels (scan_evoked ev) i = Ok (info d) /\
  forall n : nat,
    (n < length (times d))%nat ->
    nth_error (times d) n
    = Some (fdiv (of_int (first d + Z.of_nat n)) (sfreq (info d))).
Proof.
  intros H. destruct (assemble_sample_count _ _ _ _ H) as (Hc & Hlen).
  apply assemble_Ok in H.
  destruct H as (g & m & Hg & _ & _ & Ht & Hi & Hf & Hl & _).
  apply gather_Ok in Hg. destruct Hg as (Hloc & _).
  repeat split.
  - now rewrite Hlen.
  - exact Hlen.
  - now rewrite Hi.
  - intros n Hn. rewrite Ht in *. unfold time_axis in *.
    rewrite length_map, arange_length in Hn.
    rewrite nth_error_map, arange_nth by exact Hn.
    simpl. now rewrite Hi, Hf.
Qed.

Lemma baseline_imin_spec (bmin : option F) (ts : list F) (imin : nat) :
  baseline_imin bmin ts = Ok imin -> window_start bmin ts imin.
Proof.
  destruct bmin as [b|]; simpl; intros H.
  - apply np_where_first in H. destruct H as (_ & Hi & Hbefore).
    rewrite Nat.sub_0_r in *. rewrite nth_error_map in Hi. split.
    + destruct (nth_error ts imin) as [t|]; [| discriminate].
      exists t. split; [reflexivity | now injection Hi].
    + intros j t Hj Ht. specialize (Hbefore j Hj).
      rewrite nth_error_map, Ht in Hbefore. now injection Hbefore.
  - now injection H.
Qed.

Lemma baseline_imax_spec (bmax : option F) (ts : list F) (imax : nat) :
  baseline_imax bmax ts = Ok imax ->
  window_stop bmax ts (Z.of_nat (length ts)) imax.
Proof.
  destruct bmax as [b|]; simpl; intros H.
  - apply rbind_Ok in H. destruct H as (k & Hk & H). injection H as <-.
    apply np_where_last in Hk. destruct Hk as (Hi & Hafter).
    rewrite nth_error_map in Hi. exists k. repeat split.
    + destruct (nth_error ts k) as [t|]; [| discriminate].
      exists t. split; [reflexivity | now injection Hi].
    + intros j t Hj Ht.
      assert (j < length ts)%nat by (apply nth_error_Some; congruence).
      specialize (Hafter j). rewrite length_map in Hafter.
      rewrite nth_error_map, Ht in Hafter.
      assert (E : Some (fle t b) = Some false) by (apply Hafter; lia).
      now injection E.
  - now injection H as <-.
Qed.

Lemma np_where_first_complete (mask : list bool) :
  forall (off i : nat),
    nth_error mask i = Some true ->
    (forall j, (j < i)%nat -> nth_error mask j = Some false) ->
    item_first (np_where mask off) = Ok (off + i)%nat.
Proof.
  induction mask as [|b mask IH]; intros off i Hi Hbefore.
  - destruct i; discriminate.
  - destruct i as [|i].
    + injection Hi as ->. cbn. now rewrite Nat.add_0_r.
    + assert (Hb : b = false).
      { specialize (Hbefore 0%nat). cbn in Hbefore.
        assert (E : Some b = Some false) by (apply Hbefore; lia).
        now injection E. }
      subst b. cbn [np_where app]. rewrite (IH (S off) i).
      * f_equal. lia.
      * exact Hi.
      * intros j Hj. apply (Hbefore (S j)). lia.
Qed.

Lemma np_where_none (mask : list bool) :
  forall off : nat,
    (forall j, (j < length mask)%nat -> nth_error mask j = Some false) ->
    np_where mask off = [].
Proof.
  induction mask as [|b mask IH]; intros off Hall; [reflexivity |].
  assert (Hb : b = false).
  { specialize (Hall 0%nat). cbn in Hall.
    assert (E : Some b = Some false) by (apply Hall; lia).
    now injection E. }
  subst b. cbn [np_where app]. apply IH.
  intros j Hj. apply (Hall (S j)). cbn. lia.
Qed.

Lemma np_where_last_complete (mask : list bool) (k : nat) :
  nth_error mask k = Some true ->
  (forall j, (k < j < length mask)%nat -> nth_error mask j = Some false) ->
  item_last (np_where mask 0) = Ok k.
Proof.
  intros Hk Hafter.
  destruct (nth_error_split mask k Hk) as (l1 & l2 & -> & Hl1).
  rewrite np_where_app. cbn [np_where Nat.add].
  rewrite (np_where_none l2).
  - unfold item_last. rewrite app_nil_r, rev_app_distr, Hl1. reflexivity.
  - intros j Hj. specialize (Hafter (length l1 + S j)%nat).
    rewrite length_app in Hafter. cbn [length] in Hafter.
    rewrite nth_error_app2 in Hafter by lia.
    replace (length l1 + S j - length l1)%nat with (S j) in Hafter by lia.
    apply Hafter. lia.
Qed.

Lemma baseline_imin_complete (bmin : option F) (ts : list F) (imin : nat) :
  window_start bmin ts imin -> baseline_imin bmin ts = Ok imin.
Proof.
  destruct bmin as [b|]; simpl; [| now intros ->].
  intros ((t & Ht & Hle) & Hbefore).
  apply (np_where_first_complete (map (fun t => fle b t) ts) 0).
  - now rewrite nth_error_map, Ht, <- Hle.
  - intros j Hj. rewrite nth_error_map.
    destruct (nth_error ts j) as [tj|] eqn:Ej.
    + cbn. f_equal. now apply (Hbefore j).
    + apply nth_error_None in Ej.
      assert (imin < length ts)%nat by (apply nth_error_Some; congruence).
      lia.
Qed.

Lemma baseline_imax_complete (bmax : option F) (ts : list F) (imax : nat) :
  window_stop bmax ts (Z.of_nat (length ts)) imax ->
  baseline_imax bmax ts = Ok imax.
Proof.
  destruct bmax as [b|]; simpl.
  - intros (k & -> & (t & Ht & Hle) & Hafter).
    rewrite (@np_where_last_complete (map (fun t => fle t b) ts) k).
    + reflexivity.
    + now rewrite nth_error_map, Ht, <- Hle.
    + intros j Hj. rewrite length_map in Hj. rewrite nth_error_map.
      destruct (nth_error ts j) as [tj|] eqn:Ej.
      * cbn. f_equal. apply (Hafter j); [lia | exact Ej].
      * apply nth_error_None in Ej. lia.
  - intros H. f_equal. lia.
Qed.

Lemma baseline_correction_computed (i : meas_info) (ev asp : node F)
    (baseline : option (option F * option F)) (d : Evoked) :
  assemble i ev asp baseline = Ok d ->
  exists (g : gathered proj comp) (calibrated : matrix F),
    gather i ev asp = Ok g /\
    calibrate (g_info g) (g_raw g) = Ok calibrated /\
    assemble i ev asp None = Ok (set_data calibrated d) /\
    match baseline with
    | None => data d = calibrated
    | Some (bmin, bmax) =>
        exists imin imax : nat,
          window_start bmin (times d) imin /\
          window_stop bmax (times d) (last d - first d + 1) imax /\
          nrows (data d) = nrows calibrated /\
          ncols (data d) = ncols calibrated /\
          cells (data d)
          = map (fun row =>
                   map (fun x => fsub x (mean (slice imin imax row))) row)
                (cells calibrated)
    end.
Proof.
  intros H. destruct (assemble_sample_count _ _ _ _ H) as (Hc & Hlen).
  pose proof H as H'. apply assemble_Ok in H'.
  destruct H' as (g & m & Hg & Hm & Hb & Ht & Hi & Hf & Hl & Hn & Hk & Hcm).
  exists g, m. repeat split; try assumption.
  - unfold assemble. rewrite Hg. cbn [rbind]. rewrite Hm. cbn [rbind].
    cbn [apply_baseline rbind]. unfold set_data.
    now rewrite Ht, Hi, Hf, Hl, Hn, Hk, Hcm.
  - destruct baseline as [[bmin bmax]|]; cbn [apply_baseline] in Hb.
    + apply rbind_Ok in Hb. destruct Hb as (imin & Himin & Hb).
      apply rbind_Ok in Hb. destruct Hb as (imax & Himax & Hb).
      injection Hb as Hb. exists imin, imax.
      apply baseline_imin_spec in Himin. apply baseline_imax_spec in Himax.
      rewrite Hlen, Hc in Himax. rewrite <- Hb. simpl.
      repeat split; assumption.
    + now injection Hb.
Qed.

Lemma baseline_correction_succeeds (i : meas_info) (ev asp : node F)
    (bmin bmax : option F) (d0 : Evoked) (imin imax : nat) :
  assemble i ev asp None = Ok d0 ->
  window_start bmin (times d0) imin ->
  window_stop bmax (times d0) (last d0 - first d0 + 1) imax ->
  assemble i ev asp (Some (bmin, bmax))
  = Ok (set_data (subtract_row_means imin imax (data d0)) d0).
Proof.
  intros H Hmin Hmax.
  destruct (assemble_sample_count _ _ _ _ H) as (Hc & Hlen).
  apply assemble_Ok in H.
  destruct H as (g & m & Hg & Hm & Hb & Ht & Hi & Hf & Hl & Hn & Hk & Hcm).
  cbn [apply_baseline] in Hb. injection Hb as Hb.
  rewrite <- Hc, <- Hlen in Hmax.
  apply baseline_imin_complete in Hmin. apply baseline_imax_complete in Hmax.
  unfold assemble. rewrite Hg. cbn [rbind]. rewrite Hm. cbn [rbind].
  cbn [apply_baseline]. rewrite <- Ht, Hmin. cbn [rbind]. rewrite Hmax.
  cbn [rbind]. unfold set_data.
  now rewrite Hb, Hi, Hf, Hl, Hn, Hk, Hcm.
Qed.

End AssemblyClaims.

(** ** The data matrix before calibration *)

Section RawData.
Context {F : Type} {SF : Scalar F}.
Variables proj comp : Type.

Local Abbreviation meas_info := (@meas_info F proj comp).
Local Abbreviation Evoked := (@Evoked F proj comp).

Lemma raw_data_count (epoch : list (matrix F)) (n nsamp : Z) :
  Z.of_nat (length epoch) <> 1 ->
  Z.of_nat (length epoch) <> n ->
  raw_data epoch n nsamp = Raise (ValueError Epoch_tags_unreasonable).
Proof.
  intros H1 Hn. unfold raw_data.
  destruct (Z.eqb_spec (Z.of_nat (length epoch)) 1); [contradiction |].
  destruct (Z.eqb_spec (Z.of_nat (length epoch)) n); [contradiction |].
  reflexivity.
Qed.

Lemma transpose_column (e : matrix F) :
  ncols e = 1%nat ->
  transpose e = mkMat 1 (nrows e) [column 0 (cells e)].
Proof. unfold transpose. now intros ->. Qed.

Lemma stack_epochs_columns (n : nat) (rest : list (matrix F)) :
  Forall (fun e => ncols e = 1%nat /\ nrows e = n) rest ->
  forall all_data : matrix F,
    ncols all_data = n ->
    stack_epochs all_data rest
    = Ok (mkMat (nrows all_data + length rest) n
                (cells all_data ++ map (fun e => column 0 (cells e)) rest)).
Proof.
  induction 1 as [|e rest [Hc Hr] _ IH]; intros all_data Hn; simpl.
  - rewrite Nat.add_0_r, app_nil_r. destruct all_data; simpl in *; congruence.
  - rewrite (transpose_column _ Hc). unfold r_. simpl.
    rewrite Hn, Hr, Nat.eqb_refl. simpl. rewrite IH by reflexivity. simpl.
    rewrite <- app_assoc. simpl. do 2 f_equal. lia.
Qed.

(** Epochs stored as columns are put together as the rows of the data. *)
Lemma raw_data_columns (epoch : list (matrix F)) (nsamp : Z) :
  epoch <> [] ->
  Forall (fun e => ncols e = 1%nat /\ Z.of_nat (nrows e) = nsamp) epoch ->
  raw_data epoch (Z.of_nat (length epoch)) nsamp
  = Ok (mkMat (length epoch) (Z.to_nat nsamp)
              (map (fun e => column 0 (cells e)) epoch)).
Proof.
  intros Hne Hall. unfold raw_data. rewrite Z.eqb_refl, andb_false_r.
  destruct epoch as [|e0 rest]; [congruence |].
  inversion Hall as [|? ? [Hc Hr] Hrest]; subst.
  assert (Hrest' : Forall (fun e => ncols e = 1%nat
                                    /\ nrows e = Z.to_nat (Z.of_nat (nrows e0)))
                          rest).
  { eapply Forall_impl; [| exact Hrest]. simpl. intros e [H1 H2].
    split; [exact H1 | lia]. }
  destruct (Z.eqb_spec (Z.of_nat (length (e0 :: rest))) 1) as [E1|E1].
  - destruct rest; [| simpl in E1; lia]. simpl.
    rewrite Hc. simpl. rewrite (transpose_column _ Hc). simpl.
    rewrite Z.eqb_refl. simpl. now rewrite Nat2Z.id.
  - cbn [rbind]. rewrite (transpose_column _ Hc).
    rewrite (stack_epochs_columns Hrest') by (simpl; lia).
    cbn [rbind ncols nrows cells]. rewrite Z2Nat.id by lia.
    rewrite Z.eqb_refl. simpl. reflexivity.
Qed.

(** A single epoch stored as one row serves a single channel. *)
Lemma raw_data_single_row (e0 : matrix F) (nsamp : Z) :
  wf_matrix e0 -> nrows e0 = 1%nat -> Z.of_nat (ncols e0) = nsamp ->
  exists m,
    raw_data [e0] 1 nsamp = Ok m /\ nrows m = 1%nat /\ cells m = cells e0.
Proof.
  intros [Hlen Hrows] Hr Hc. subst nsamp. unfold raw_data.
  cbn [length Z.of_nat Pos.of_succ_nat Z.eqb Pos.eqb negb andb rbind].
  destruct (Nat.eqb_spec (ncols e0) 1) as [E|E]; cbn [andb rbind].
  - rewrite (transpose_column _ E). cbn [ncols]. rewrite Hr, E.
    cbn [Z.of_nat Pos.of_succ_nat Z.eqb Pos.eqb negb].
    eexists. split; [reflexivity |]. split; [reflexivity |].
    cbn [cells].
    destruct (cells e0) as [|r0 [|r1 rs]]; simpl in *; try lia.
    inversion Hrows as [|? ? Hr0 _]; subst. rewrite E in Hr0.
    destruct r0 as [|x [|y r0]]; simpl in *; try lia. reflexivity.
  - rewrite Z.eqb_refl. cbn [negb]. now exists e0.
Qed.

Lemma assemble_epoch_count (i : meas_info) (ev asp : node F)
    (baseline : option (option F * option F)) :
  let v := scan_evoked ev in
  let a := scan_aspect asp (default_comment (v_comment v)) in
  Z.of_nat (length (a_epoch a)) <> 1 ->
  (forall i', local_channels v i = Ok i' ->
              Z.of_nat (length (a_epoch a)) <> nchan i') ->
  (forall d : Evoked, assemble i ev asp baseline <> Ok d) /\
  (forall i' fl ak,
      local_channels v i = Ok i' -> sample_range v = Ok fl ->
      a_aspect_kind a = Some ak ->
      assemble i ev asp baseline = Raise (ValueError Epoch_tags_unreasonable)).
Proof.
  intros v a H1 Hn. split.
  - intros d H. apply assemble_Ok in H. destruct H as (g & m & Hg & _).
    apply gather_Ok in Hg. destruct Hg as (Hloc & _ & Hv & _ & Hraw).
    fold v in Hloc, Hv. rewrite Hv in Hraw. fold a in Hraw.
    rewrite raw_data_count in Hraw; [discriminate | exact H1 |].
    now apply Hn.
  - intros i' [f l] ak Hloc Hfl Hak. unfold assemble, gather.
    fold v. rewrite Hloc. cbn [rbind]. rewrite Hfl. cbn [rbind].
    fold a. rewrite Hak.
    rewrite raw_data_count; [reflexivity | exact H1 |].
    now apply Hn.
Qed.

(** C3 (as amended): an aspect whose number of epoch tags is neither 1 nor
    the channel count yields no dataset, and the exception is the
    epoch-count [ValueError] once the scans before it went through; with
    as many epoch tags as channels, each holding one column of [nsamp]
    values, row [k] of the matrix before calibration is epoch [k] laid out
    as a row; a single epoch stored as one row serves one channel. *)
Theorem epoch_tags_assembled :
  (forall (i : meas_info) (ev asp : node F)
          (baseline : option (option F * option F)),
      let v := scan_evoked ev in
      let a := scan_aspect asp (default_comment (v_comment v)) in
      Z.of_nat (length (a_epoch a)) <> 1 ->
      (forall i', local_channels v i = Ok i' ->
                  Z.of_nat (length (a_epoch a)) <> nchan i') ->
      (forall d : Evoked, assemble i ev asp baseline <> Ok d) /\
      (forall i' fl ak,
          local_channels v i = Ok i' -> sample_range v = Ok fl ->
          a_aspect_kind a = Some ak ->
          assemble i ev asp baseline = Raise (ValueError Epoch_tags_unreasonable)
          /\ classify (ValueError Epoch_tags_unreasonable)
             = DataConsistencyError)) /\
  (forall (epoch : list (matrix F)) (nsamp : Z),
      epoch <> [] ->
      Forall (fun e => ncols e = 1%nat /\ Z.of_nat (nrows e) = nsamp) epoch ->
      exists m,
        raw_data epoch (Z.of_nat (length epoch)) nsamp = Ok m /\
        nrows m = length epoch /\ Z.of_nat (ncols m) = nsamp /\
        forall k e,
          nth_error epoch k = Some e ->
          nth_error (cells m) k = Some (column 0 (cells e))) /\
  (forall (e0 : matrix F) (nsamp : Z),
      wf_matrix e0 -> nrows e0 = 1%nat -> Z.of_nat (ncols e0) = nsamp ->
      exists m,
        raw_data [e0] 1 nsamp = Ok m /\ nrows m = 1%nat /\
        cells m = cells e0).
Proof.
  split; [| split].
  - intros i ev asp baseline v a H1 Hn.
    destruct (assemble_epoch_count i ev asp baseline H1 Hn) as [Hno Herr].
    split; [exact Hno |]. intros i' fl ak Hi Hfl Hak.
    split; [now apply (Herr i' fl ak) | reflexivity].
  - intros epoch nsamp Hne Hall. eexists. split.
    + now apply raw_data_columns.
    + simpl. repeat split.
      * inversion Hall as [|e ? [_ He] _]; subst; [congruence | lia].
      * intros k e Hk. now rewrite nth_error_map, Hk.
  - exact raw_data_single_row.
Qed.

End RawData.

(** ** Writing *)

Section BalancedFacts.
Context {F : Type}.

Lemma balanced_app (l1 l2 : list (tag F)) :
  balanced l1 -> balanced l2 -> balanced (l1 ++ l2).
Proof.
  induction 1 as [|t l Ht _ IH|b b' la lb Ha _ _ IHb]; intros H2; simpl.
  - exact H2.
  - apply balanced_tag; auto.
  - rewrite <- app_assoc. simpl. apply balanced_block; auto.
Qed.

Lemma quiet_nil : quiet (@nil (tag F)).
Proof.
  split; [constructor | split; intros H; inversion H].
Qed.

Lemma quiet_app (l1 l2 : list (tag F)) :
  quiet l1 -> quiet l2 -> quiet (l1 ++ l2).
Proof.
  intros (B1 & P1 & E1) (B2 & P2 & E2). split; [| split].
  - now apply balanced_app.
  - intros H. apply in_app_or in H. destruct H; [now apply P1 | now apply P2].
  - intros H. apply in_app_or in H. destruct H; [now apply E1 | now apply E2].
Qed.

Lemma quiet_tag (t : tag F) : is_block_tag t = false -> quiet [t].
Proof.
  intros Ht. split; [| split].
  - apply balanced_tag; [exact Ht | constructor].
  - intros [H|[]]. subst. discriminate.
  - intros [H|[]]. subst. discriminate.
Qed.

Lemma quiet_block (b : block_kind) (l : list (tag F)) :
  b <> FIFFB_PROCESSED_DATA -> b <> FIFFB_EVOKED -> quiet l ->
  quiet (T_block_start b :: l ++ [T_block_end b]).
Proof.
  intros Hp He (B & P & E). split; [| split].
  - apply balanced_block; [exact B | constructor].
  - intros [H|H]; [congruence |].
    apply in_app_or in H. destruct H as [H|[H|[]]];
      [now apply P | discriminate].
  - intros [H|H]; [congruence |].
    apply in_app_or in H. destruct H as [H|[H|[]]];
      [now apply E | discriminate].
Qed.

End BalancedFacts.

Section RenumberFacts.
Context {F : Type}.
Variables proj comp : Type.

Local Abbreviation Evoked := (@Evoked F proj comp).

Lemma set_scanno_twice (k j : Z) (c : ch_info F) :
  set_scanno k (set_scanno j c) = set_scanno k c.
Proof. reflexivity. Qed.

Lemma renumber_from_0 (k : nat) (cs : list (ch_info F)) :
  renumber_from k 0 cs = cs.
Proof. now destruct cs. Qed.

Lemma renumber_from_max (cs : list (ch_info F)) :
  forall k m1 m2,
    renumber_from k m2 (renumber_from k m1 cs)
    = renumber_from k (Nat.max m1 m2) cs.
Proof.
  induction cs as [|c cs IH]; intros k m1 m2.
  - now destruct m1, m2.
  - destruct m1 as [|m1], m2 as [|m2]; simpl; try reflexivity.
    now rewrite IH.
Qed.

Lemma renumber_from_length (cs : list (ch_info F)) :
  forall k m, length (renumber_from k m cs) = length cs.
Proof.
  induction cs as [|c cs IH]; intros k [|m]; simpl; auto.
Qed.

(** One round of the loop "Channel information". *)
Lemma renumber_from_step (cs : list (ch_info F)) :
  forall k m c,
    nth_error (renumber_from k m cs) m = Some c ->
    firstn m (renumber_from k m cs)
      ++ set_scanno (Z.of_nat (k + m)) c :: skipn (S m) (renumber_from k m cs)
    = renumber_from k (S m) cs.
Proof.
  induction cs as [|c0 cs IH]; intros k m c.
  - destruct m; discriminate.
  - destruct m as [|m].
    + simpl. intros H. injection H as <-. now rewrite Nat.add_0_r.
    + intros H.
      change (renumber_from k (S m) (c0 :: cs))
        with (set_scanno (Z.of_nat k) c0 :: renumber_from (S k) m cs) in *.
      change (renumber_from k (S (S m)) (c0 :: cs))
        with (set_scanno (Z.of_nat k) c0 :: renumber_from (S k) (S m) cs).
      cbn [nth_error] in H. cbn [firstn skipn app].
      f_equal. rewrite <- (IH (S k) m c H). do 3 f_equal. lia.
Qed.

Lemma renumbered_0 (e : Evoked) : renumbered 0 e = e.
Proof.
  unfold renumbered, renumber. rewrite renumber_from_0.
  destruct e as [i ? ? ? ? ? ? ?]. destruct i. reflexivity.
Qed.

Lemma renumbered_max (m1 m2 : nat) (e : Evoked) :
  renumbered m2 (renumbered m1 e) = renumbered (Nat.max m1 m2) e.
Proof.
  unfold renumbered, renumber. simpl. now rewrite renumber_from_max.
Qed.

Lemma renumbered_step (k : nat) (e : Evoked) (ch : ch_info F) :
  nth_error (chs (info (renumbered k e))) k = Some ch ->
  set_info
    (set_chs (firstn k (chs (info (renumbered k e)))
                ++ set_scanno (Z.of_nat k) ch
                :: skipn (S k) (chs (info (renumbered k e))))
             (info (renumbered k e)))
    (renumbered k e)
  = renumbered (S k) e.
Proof.
  unfold renumbered.
  cbn [set_info set_chs set_channels info chs]. unfold renumber.
  intros E. pose proof (renumber_from_step _ 0 k E) as St.
  cbn [Nat.add] in St. rewrite St. reflexivity.
Qed.

Lemma renumbered_fields (m : nat) (e : Evoked) :
  nchan (info (renumbered m e)) = nchan (info e) /\
  length (chs (info (renumbered m e))) = length (chs (info e)) /\
  data (renumbered m e) = data e /\
  comment (renumbered m e) = comment e /\
  first (renumbered m e) = first e /\ last (renumbered m e) = last e /\
  nave (renumbered m e) = nave e /\
  aspect_kind (renumbered m e) = aspect_kind e /\
  times (renumbered m e) = times e /\
  map (fun c => cal c) (chs (info (renumbered m e)))
  = map (fun c => cal c) (chs (info e)).
Proof.
  unfold renumbered, renumber. simpl. repeat split.
  - apply renumber_from_length.
  - generalize 0%nat. revert m.
    induction (chs (info e)) as [|c cs IH]; intros [|m] k; simpl; auto.
    now rewrite IH.
Qed.

End RenumberFacts.

Section StepFacts.
Context {F : Type} {SF : Scalar F}.
Variables proj comp : Type.

Local Abbreviation Evoked := (@Evoked F proj comp).
Local Abbreviation wstate := (@wstate F proj comp).
Local Abbreviation W := (@W F proj comp).

Lemma acts_bind {A B : Type} (s : wstate) (c : W A) (k : A -> W B)
    (n1 n2 : nat) (P1 P2 P3 : list (tag F) -> Prop) :
  acts_at s c n1 P1 ->
  (forall a s', c s = (Ok a, s') ->
                w_self s' = renumbered n1 (w_self s) ->
                acts_at s' (k a) n2 P2) ->
  (forall t1 t2, P1 t1 -> P2 t2 -> P3 (t1 ++ t2)) ->
  acts_at s (wbind c k) (Nat.max n1 n2) P3.
Proof.
  intros (m1 & t1 & Hs & Hf & Hok) Hk HP. unfold acts_at, wbind.
  destruct (c s) as [[a|e] s'] eqn:E; simpl in *.
  - destruct (Hok a eq_refl) as [-> HP1].
    destruct (Hk a s' eq_refl Hs) as (m2 & t2 & Hs2 & Hf2 & Hok2).
    exists (Nat.max n1 m2), (t1 ++ t2). repeat split.
    + now rewrite Hs2, Hs, renumbered_max.
    + now rewrite Hf2, Hf, app_assoc.
    + destruct (Hok2 a0 H) as [-> _]. reflexivity.
    + destruct (Hok2 a0 H) as [_ HP2]. now apply HP.
  - exists m1, t1. repeat split; try assumption; discriminate.
Qed.

Lemma acts_conseq {A : Type} (s : wstate) (c : W A) (n : nat)
    (P P' : list (tag F) -> Prop) :
  acts_at s c n P -> (forall ts, P ts -> P' ts) -> acts_at s c n P'.
Proof.
  intros (m & ts & Hs & Hf & Hok) HP. exists m, ts.
  repeat split; try assumption; destruct (Hok a H); auto.
Qed.

Lemma acts_fid_write (s : wstate) (t : tag F) :
  acts_at s (fid_write t) 0 (eq [t]).
Proof.
  exists 0%nat, [t]. simpl. rewrite renumbered_0. auto.
Qed.

Lemma acts_wret {A : Type} (s : wstate) (a : A) :
  acts_at s (wret a) 0 (eq []).
Proof.
  exists 0%nat, []. simpl. rewrite renumbered_0, app_nil_r. auto.
Qed.

Lemma acts_wraise {A : Type} (s : wstate) (e : error) (n : nat)
    (P : list (tag F) -> Prop) :
  acts_at s (@wraise F proj comp A e) n P.
Proof.
  exists 0%nat, []. simpl. rewrite renumbered_0, app_nil_r.
  repeat split; discriminate.
Qed.

Lemma acts_self (s : wstate) : acts_at s (@self F proj comp) 0 (eq []).
Proof.
  exists 0%nat, []. simpl. rewrite renumbered_0, app_nil_r. auto.
Qed.

Lemma acts_lift {A : Type} (s : wstate) (r : result A) :
  acts_at s (lift r) 0 (eq []).
Proof. destruct r; [apply acts_wret | apply acts_wraise]. Qed.

Section Quiet.
Variable H : Prop.

Lemma quiet_if_app (t1 t2 : list (tag F)) :
  quiet_if H t1 -> quiet_if H t2 -> quiet_if H (t1 ++ t2).
Proof. intros H1 H2 Hc. apply quiet_app; auto. Qed.

Lemma quiet_if_nil (ts : list (tag F)) : [] = ts -> quiet_if H ts.
Proof. intros <- _. apply quiet_nil. Qed.

(** A quiet step, then the rest. *)
Lemma acts_quiet_bind {A B : Type} (s : wstate) (c : W A) (k : A -> W B)
    (n : nat) :
  acts_at s c 0 (quiet_if H) ->
  (forall a s', c s = (Ok a, s') -> w_self s' = w_self s ->
                acts_at s' (k a) n (quiet_if H)) ->
  acts_at s (wbind c k) n (quiet_if H).
Proof.
  intros Hc Hk. change n with (Nat.max 0 n).
  eapply acts_bind; [exact Hc | | apply quiet_if_app].
  intros a s' E Hs. rewrite renumbered_0 in Hs. eauto.
Qed.

Lemma acts_quiet_tag (s : wstate) (t : tag F) :
  is_block_tag t = false -> acts_at s (fid_write t) 0 (quiet_if H).
Proof.
  intros Ht. eapply acts_conseq; [apply acts_fid_write |].
  intros ts <- _. now apply quiet_tag.
Qed.

Lemma acts_quiet_wret {A : Type} (s : wstate) (a : A) :
  acts_at s (wret a) 0 (quiet_if H).
Proof.
  eapply acts_conseq; [apply acts_wret | apply quiet_if_nil].
Qed.

Lemma acts_quiet_self (s : wstate) :
  acts_at s (@self F proj comp) 0 (quiet_if H).
Proof.
  eapply acts_conseq; [apply acts_self | apply quiet_if_nil].
Qed.

Lemma acts_quiet_optional {A : Type} (s : wstate) (w : A -> W unit)
    (x : option A) :
  (forall a, acts_at s (w a) 0 (quiet_if H)) ->
  acts_at s (write_optional w x) 0 (quiet_if H).
Proof.
  intros Hw. destruct x; simpl; [apply Hw | apply acts_quiet_wret].
Qed.

Lemma acts_quiet_for_each {A : Type} (body : A -> W unit) (xs : list A) :
  (forall x s, acts_at s (body x) 0 (quiet_if H)) ->
  forall s, acts_at s (for_each body xs) 0 (quiet_if H).
Proof.
  intros Hb. induction xs as [|x xs IH]; intros s; simpl.
  - apply acts_quiet_wret.
  - apply acts_quiet_bind; [apply Hb | intros; apply IH].
Qed.

Lemma acts_quiet_call (s : wstate) (out : list (tag F) * option error) :
  quiet_if H (fst out) -> acts_at s (call out) 0 (quiet_if H).
Proof.
  intros Hq. unfold call. apply acts_quiet_bind.
  - exists 0%nat, (fst out). simpl. rewrite renumbered_0. auto.
  - intros _ s' _ _. destruct (snd out);
      [apply acts_wraise | apply acts_quiet_wret].
Qed.

Lemma acts_quiet_block (s : wstate) (b : block_kind) (c : W unit) :
  b <> FIFFB_PROCESSED_DATA -> b <> FIFFB_EVOKED ->
  (forall s', acts_at s' c 0 (quiet_if H)) ->
  acts_at s (wbind (start_block b) (fun _ => wbind c (fun _ => end_block b)))
          0 (quiet_if H).
Proof.
  intros Hp He Hc. change 0%nat with (Nat.max 0 (Nat.max 0 0)).
  eapply acts_bind with (P1 := eq [T_block_start b])
                        (P2 := fun ts => exists l, ts = l ++ [T_block_end b]
                                                   /\ quiet_if H l).
  - apply acts_fid_write.
  - intros _ s' _ _.
    eapply acts_bind with (P1 := quiet_if H) (P2 := eq [T_block_end b]).
    + apply Hc.
    + intros _ s'' _ _. apply acts_fid_write.
    + intros t1 t2 H1 <-. now exists t1.
  - intros t1 t2 <- (l & -> & Hl) Hq. simpl. apply quiet_block; auto.
Qed.

End Quiet.

End StepFacts.

Section SaveFacts.
Context {F : Type} {SF : Scalar F}.
Variables proj comp : Type.
Variable can_open : string -> bool.
Variable linalg_inv : matrix F -> result (matrix F).
Variable fiff_open : string -> result (node F).
Variable copy_tree : list (node F) -> list (tag F) * option error.
Variable write_proj : list proj -> list (tag F) * option error.
Variable write_ctf_comp : list comp -> list (tag F) * option error.

Local Abbreviation Evoked := (@Evoked F proj comp).
Local Abbreviation wstate := (@wstate F proj comp).
Local Abbreviation W := (@W F proj comp).
Local Abbreviation QC :=
  (quiet_collaborators copy_tree write_proj write_ctf_comp).

Lemma acts_write_coord_trans (s : wstate) (c : coord_trans F) :
  acts_at s (write_coord_trans linalg_inv c) 0 (quiet_if QC).
Proof.
  assert (Hstop : forall (n : nat) (e : error),
             acts_at s (wbind (fid_write (T_truncated n))
                              (fun _ => @wraise F proj comp unit e))
                     0 (quiet_if QC)).
  { intros n e. apply acts_quiet_bind; [now apply acts_quiet_tag |].
    intros. apply acts_wraise. }
  unfold write_coord_trans.
  destruct (Nat.ltb 3 (ncols (trans c))); [| apply Hstop].
  destruct (linalg_inv (trans c)) as [inv|e]; [| apply Hstop].
  destruct (Nat.ltb 3 (ncols inv)); [| apply Hstop].
  now apply acts_quiet_tag.
Qed.

Lemma acts_copy_blocks (tree : node F) (bs : list block_kind) :
  forall (have : bool * bool) (s : wstate),
    acts_at s (copy_blocks copy_tree tree bs have) 0 (quiet_if QC).
Proof.
  induction bs as [|b bs IH]; intros have s; simpl.
  - apply acts_quiet_wret.
  - apply acts_quiet_bind; [| intros; apply IH].
    apply acts_quiet_call. intros (Hc & _). apply Hc.
Qed.

Lemma acts_copy_from_original (s : wstate) :
  acts_at s (copy_from_original fiff_open copy_tree) 0 (quiet_if QC).
Proof.
  unfold copy_from_original.
  apply acts_quiet_bind; [apply acts_quiet_self |].
  intros a s' E _. destruct (filename (info a)).
  - destruct (fiff_open s0); [apply acts_copy_blocks | apply acts_wraise].
  - apply acts_quiet_wret.
Qed.

Lemma write_channel_run (k : nat) (s : wstate) :
  write_channel k s
  = match nth_error (chs (info (w_self s))) k with
    | None => (Raise IndexError, s)
    | Some ch =>
        write_ch_info (set_scanno (Z.of_nat k) ch)
          {| w_self :=
               set_info
                 (set_chs (firstn k (chs (info (w_self s)))
                             ++ set_scanno (Z.of_nat k) ch
                             :: skipn (S k) (chs (info (w_self s))))
                          (info (w_self s)))
                 (w_self s);
             w_fid := w_fid s |}
    end.
Proof.
  unfold write_channel, wbind, self. simpl.
  now destruct (nth_error (chs (info (w_self s))) k).
Qed.

(** The loop "Channel information" from round [k] on. *)
Lemma channel_loop_run (e0 : Evoked) (n : nat) :
  forall (k : nat) (s : wstate),
    w_self s = renumbered k e0 ->
    (k <= length (chs (info e0)))%nat ->
    exists (m : nat) (ts : list (tag F)),
      w_self (snd (for_each (@write_channel F SF proj comp) (seq k n) s))
      = renumbered m e0 /\
      w_fid (snd (for_each (@write_channel F SF proj comp) (seq k n) s))
      = w_fid s ++ ts /\
      (forall a,
          fst (for_each (@write_channel F SF proj comp) (seq k n) s) = Ok a ->
          m = (k + n)%nat /\ quiet ts) /\
      ((length (chs (info e0)) < k + n)%nat ->
       fst (for_each (@write_channel F SF proj comp) (seq k n) s)
       = Raise IndexError).
Proof.
  induction n as [|n IH]; intros k s Hs Hk.
  - exists k, []. cbn [seq for_each wret fst snd].
    rewrite app_nil_r, Nat.add_0_r.
    split; [exact Hs |]. split; [reflexivity |]. split.
    + intros _ _. split; [reflexivity | apply quiet_nil].
    + intros Hlen. lia.
  - cbn [seq for_each]. unfold wbind at 1 2 3 4.
    rewrite write_channel_run, Hs.
    destruct (nth_error (chs (info (renumbered k e0))) k) as [ch|] eqn:E.
    + assert (Hlt : (k < length (chs (info e0)))%nat).
      { assert (Hn : nth_error (chs (info (renumbered k e0))) k <> None)
          by congruence.
        apply nth_error_Some in Hn.
        unfold renumbered, renumber in Hn. simpl in Hn.
        now rewrite renumber_from_length in Hn. }
      unfold write_ch_info, fid_write. cbn [fst snd w_self w_fid].
      match goal with
      | |- context [for_each _ _ ?st] => set (s1 := st)
      end.
      assert (Hs1 : w_self s1 = renumbered (S k) e0).
      { unfold s1. cbn [w_self]. now apply renumbered_step. }
      destruct (IH (S k) s1 Hs1 Hlt) as (m & ts & Hm & Hf & Hok & Herr).
      exists m. eexists. split; [exact Hm |]. split.
      * rewrite Hf. unfold s1. cbn [w_fid]. rewrite <- app_assoc.
        reflexivity.
      * split.
        -- intros a Ha. destruct (Hok a Ha) as [-> Hq]. split; [lia |].
           apply (quiet_app (l1 := [_])); [now apply quiet_tag | exact Hq].
        -- intros Hlen. apply Herr. lia.
    + exists k, []. cbn [fst snd]. rewrite app_nil_r.
      repeat split; auto; discriminate.
Qed.

Lemma acts_channel_loop (s : wstate) (n : nat) (H : Prop) :
  acts_at s (for_each (@write_channel F SF proj comp) (seq 0 n)) n
          (fun ts => quiet_if H ts
                     /\ (n <= length (chs (info (w_self s))))%nat).
Proof.
  destruct (@channel_loop_run (w_self s) n 0%nat s)
    as (m & ts & Hm & Hf & Hok & Herr).
  - now rewrite renumbered_0.
  - lia.
  - exists m, ts. split; [exact Hm |]. split; [exact Hf |].
    intros a Ha. destruct (Hok a Ha) as [-> Hq]. split; [reflexivity |].
    split; [intros _; exact Hq |].
    destruct (Nat.le_gt_cases n (length (chs (info (w_self s)))))
      as [Hle|Hgt]; [exact Hle |].
    rewrite Herr in Ha by (simpl; lia). discriminate.
Qed.

Lemma acts_quiet_then_closes {A B : Type} (s : wstate) (c : W A)
    (k : A -> W B) (n : nat) (G : Prop) :
  acts_at s c 0 (quiet_if QC) ->
  (forall a s', c s = (Ok a, s') -> w_self s' = w_self s ->
                acts_at s' (k a) n (closes_info_block_if QC G)) ->
  acts_at s (wbind c k) n (closes_info_block_if QC G).
Proof.
  intros Hc Hk. change n with (Nat.max 0 n).
  eapply acts_bind; [exact Hc | |].
  - intros a s' E Hs. rewrite renumbered_0 in Hs. eauto.
  - intros t1 t2 H1 (body & -> & Hb & HG). exists (t1 ++ body).
    split; [now rewrite app_assoc |]. split; [now apply quiet_if_app | exact HG].
Qed.

Lemma acts_loop_then_closes {A B : Type} (s : wstate) (c : W A)
    (k : A -> W B) (n : nat) (G : Prop) :
  acts_at s c n (fun ts => quiet_if QC ts /\ G) ->
  (forall a s', c s = (Ok a, s') ->
                acts_at s' (k a) 0 (closes_info_block_if QC True)) ->
  acts_at s (wbind c k) n (closes_info_block_if QC G).
Proof.
  intros Hc Hk. rewrite <- (Nat.max_0_r n).
  eapply acts_bind; [exact Hc | |].
  - intros a s' E _. eauto.
  - intros t1 t2 [H1 HG] (body & -> & Hb & _). exists (t1 ++ body).
    split; [now rewrite app_assoc |]. split; [now apply quiet_if_app | exact HG].
Qed.

Lemma acts_write_meas_info (s : wstate) :
  acts_at s
    (write_meas_info linalg_inv fiff_open copy_tree write_proj write_ctf_comp)
    (Z.to_nat (nchan (info (w_self s))))
    (info_block_if QC (Z.to_nat (nchan (info (w_self s)))
                       <= length (chs (info (w_self s))))%nat).
Proof.
  unfold write_meas_info.
  change (Z.to_nat (nchan (info (w_self s))))
    with (Nat.max 0 (Z.to_nat (nchan (info (w_self s))))) at 1.
  eapply acts_bind with
    (P1 := eq [T_block_start FIFFB_MEAS_INFO])
    (P2 := closes_info_block_if QC
             (Z.to_nat (nchan (info (w_self s)))
              <= length (chs (info (w_self s))))%nat).
  { apply acts_fid_write. }
  2:{ intros t1 t2 <- (body & -> & Hb). now exists body. }
  intros _ s1 _ Hs1. rewrite renumbered_0 in Hs1. rewrite <- Hs1.
  apply acts_quiet_then_closes; [apply acts_copy_from_original |].
  intros have s2 _ Hs2. rewrite <- Hs2.
  apply acts_quiet_then_closes; [apply acts_quiet_self |].
  intros a s3 E Hs3. injection E as <- <-.
  do 4 (apply acts_quiet_then_closes;
        [now apply acts_quiet_tag | intros _ ? _ ?]).
  apply acts_quiet_then_closes.
  { apply acts_quiet_optional. intros. now apply acts_quiet_tag. }
  intros _ ? _ ?.
  apply acts_quiet_then_closes.
  { destruct (negb (fst have)); [| apply acts_quiet_wret].
    apply acts_quiet_bind.
    - apply acts_quiet_optional. intros. apply acts_write_coord_trans.
    - intros. apply acts_quiet_optional. intros.
      apply acts_write_coord_trans. }
  intros _ s9 _ Hs9.
  assert (Hself : w_self s9 = w_self s2) by congruence.
  apply acts_loop_then_closes.
  { rewrite <- Hself. apply acts_channel_loop. }
  intros _ ? _.
  apply acts_quiet_then_closes.
  { destruct (dig (info (w_self s2))) as [ds|]; [| apply acts_quiet_wret].
    destruct (negb (snd have)); [| apply acts_quiet_wret].
    apply acts_quiet_block; try discriminate.
    apply acts_quiet_for_each. intros. now apply acts_quiet_tag. }
  intros _ ? _ _.
  apply acts_quiet_then_closes.
  { apply acts_quiet_call. intros (_ & Hp & _). apply Hp. }
  intros _ ? _ _.
  apply acts_quiet_then_closes.
  { apply acts_quiet_call. intros (_ & _ & Hc). apply Hc. }
  intros _ ? _ _.
  apply acts_quiet_then_closes.
  { destruct (Nat.ltb 0 (length (bads (info (w_self s2)))));
      [| apply acts_quiet_wret].
    apply acts_quiet_block; try discriminate.
    intros. now apply acts_quiet_tag. }
  intros _ ? _ _.
  eapply acts_conseq; [apply acts_fid_write |].
  intros ts <-. exists []. split; [reflexivity |].
  split; [intros _; apply quiet_nil | exact I].
Qed.

Lemma cals_of_renumber (ks : list nat) (cs : list (ch_info F)) :
  forall k m, cals_of ks (renumber_from k m cs) = cals_of ks cs.
Proof.
  assert (Hnth : forall cs k m i,
             option_map (fun c : ch_info F => cal c)
                        (nth_error (renumber_from k m cs) i)
             = option_map (fun c => cal c) (nth_error cs i)).
  { clear. induction cs as [|c cs IH]; intros k [|m] [|i]; simpl; auto. }
  induction ks as [|i ks IH]; intros k m; simpl; [reflexivity |].
  specialize (Hnth cs k m i). rewrite IH.
  destruct (nth_error (renumber_from k m cs) i),
           (nth_error cs i); simpl in Hnth; try discriminate;
    [injection Hnth as -> |]; reflexivity.
Qed.

Lemma decal_of_renumber (ks : list nat) (cs : list (ch_info F)) :
  forall k m, decal_of ks (renumber_from k m cs) = decal_of ks cs.
Proof.
  assert (Hnth : forall cs k m i,
             option_map (fun c : ch_info F => cal c)
                        (nth_error (renumber_from k m cs) i)
             = option_map (fun c => cal c) (nth_error cs i)).
  { clear. induction cs as [|c cs IH]; intros k [|m] [|i]; simpl; auto. }
  induction ks as [|i ks IH]; intros k m; simpl; [reflexivity |].
  specialize (Hnth cs k m i). rewrite IH.
  destruct (nth_error (renumber_from k m cs) i),
           (nth_error cs i); simpl in Hnth; try discriminate;
    [injection Hnth as -> |]; reflexivity.
Qed.

(** The loop over the inverse calibrations goes through exactly when
    there is a channel record for every [k] and no calibration is zero. *)
Lemma decal_of_cals (ks : list nat) (cs : list (ch_info F)) :
  forall ds : list F,
    decal_of ks cs = Ok ds ->
    exists cals,
      cals_of ks cs = Ok cals /\
      Forall (fun c => is_zero c = false) cals /\
      ds = map (fun c => fdiv fone c) cals.
Proof.
  induction ks as [|k ks IH]; intros ds H; cbn [decal_of cals_of] in *.
  - injection H as <-. exists []. repeat split. constructor.
  - destruct (nth_error cs k) as [ch|]; [| discriminate H].
    destruct (is_zero (cal ch)) eqn:Ez; [discriminate H |].
    apply rbind_Ok in H. destruct H as (ds' & Hd & H). injection H as <-.
    destruct (IH ds' Hd) as (cals & Hc & Hnz & ->).
    exists (cal ch :: cals). rewrite Hc. cbn [rbind map].
    repeat split. now constructor.
Qed.

Lemma decal_of_nonzero (ks : list nat) (cs : list (ch_info F)) :
  forall cals : list F,
    cals_of ks cs = Ok cals ->
    Forall (fun c => is_zero c = false) cals ->
    decal_of ks cs = Ok (map (fun c => fdiv fone c) cals).
Proof.
  induction ks as [|k ks IH]; intros cals H Hnz; cbn [decal_of cals_of] in *.
  - injection H as <-. reflexivity.
  - destruct (nth_error cs k) as [ch|]; [| discriminate H].
    apply rbind_Ok in H. destruct H as (cals' & Hc & H). injection H as <-.
    inversion Hnz as [|? ? Hz Hnz']; subst. rewrite Hz.
    now rewrite (IH cals' Hc Hnz').
Qed.

Lemma decalibrated_renumbered (m : nat) (e : Evoked) :
  decalibrated (renumbered m e) = decalibrated e.
Proof.
  unfold decalibrated, decal_matrix, renumbered, renumber. simpl.
  now rewrite decal_of_renumber.
Qed.

Lemma decalibrated_Ok (D : Evoked) (w : matrix F) :
  decalibrated D = Ok w ->
  exists cals,
    cals_of (seq 0 (Z.to_nat (nchan (info D)))) (chs (info D)) = Ok cals /\
    Forall (fun c => is_zero c = false) cals /\
    dot (diag (map (fun c => fdiv fone c) cals)) (data D) = Ok w.
Proof.
  unfold decalibrated, decal_matrix.
  destruct (nchan (info D) <? 0); [discriminate |].
  destruct (decal_of _ _) as [ds|e] eqn:Ed; [| discriminate].
  apply decal_of_cals in Ed. destruct Ed as (cals & Hc & Hnz & ->).
  cbn [rbind]. intros H. now exists cals.
Qed.

Lemma to_i4_m1 : to_i4 (-1) = -1.
Proof. reflexivity. Qed.

Lemma write_evoked_block_run (s : wstate) :
  exists ts,
    snd (write_evoked_block (data (w_self s)) s)
    = {| w_self := w_self s; w_fid := w_fid s ++ ts |} /\
    match decalibrated (w_self s) with
    | Ok m =>
        fst (write_evoked_block (data (w_self s)) s) = Ok tt /\
        ts = evoked_block_tags (w_self s) m
    | Raise e => fst (write_evoked_block (data (w_self s)) s) = Raise e
    end.
Proof.
  unfold write_evoked_block, decalibrated, evoked_block_tags, wbind,
    start_block, end_block, self, write_string, write_int,
    write_float_matrix, fid_write, lift, wret, wraise.
  cbn [fst snd w_self w_fid].
  destruct (Nat.ltb 0 (String.length (comment (w_self s))));
    cbn [fst snd w_self w_fid];
    destruct (decal_matrix (info (w_self s))) as [decal|e];
    cbn [fst snd w_self w_fid rbind];
    try destruct (dot decal (data (w_self s))) as [m|e];
    cbn [fst snd w_self w_fid rbind];
    eexists; (split; [repeat rewrite <- app_assoc; reflexivity |]);
    auto.
Qed.

Lemma save_unfold (name : string) (D : Evoked) :
  can_open name = true ->
  write_evoked can_open linalg_inv fiff_open copy_tree write_proj
               write_ctf_comp name D
  = match write_meas_info linalg_inv fiff_open copy_tree write_proj
                          write_ctf_comp
                          {| w_self := D; w_fid := prologue_tags D |} with
    | (Ok _, s1) =>
        match write_evoked_block
                (data (w_self s1))
                {| w_self := w_self s1;
                   w_fid := w_fid s1 ++ [T_block_start FIFFB_PROCESSED_DATA] |}
        with
        | (Ok _, s2) =>
            (Ok tt, {| w_self := w_self s2;
                       w_fid := w_fid s2 ++ epilogue_tags |})
        | (Raise e, s2) => (Raise e, s2)
        end
    | (Raise e, s1) => (Raise e, s1)
    end.
Proof.
  intros Hopen. unfold write_evoked, save, start_file. rewrite Hopen.
  unfold for_each, write_optional.
  unfold prologue_tags, epilogue_tags, header_tags, wbind, write_id,
    write_int, start_block, end_block, end_file, self, fid_write, wret.
  cbn [fst snd w_self w_fid app option_map].
  change (to_i4 (-1)) with (-1).
  destruct (meas_id (info D)) as [i|];
    cbn [fst snd w_self w_fid app option_map];
    match goal with
    | |- context [write_meas_info _ _ _ _ _ ?s] =>
        destruct (write_meas_info linalg_inv fiff_open copy_tree write_proj
                                  write_ctf_comp s) as [[[]|e] s1]
    end; try reflexivity.
  all: cbn [fst snd w_self w_fid app option_map].
  all: match goal with
       | |- context [write_evoked_block ?m ?s] =>
           destruct (write_evoked_block m s) as [[[]|e] s2]
       end; try reflexivity.
  all: cbn [fst snd w_self w_fid app option_map]; rewrite <- ?app_assoc;
    reflexivity.
Qed.

(** What a call of [write_evoked] leaves behind: the dataset with some of
    its channel records renumbered, and a file that starts with the
    prologue; if the call returns, all [nchan] channels are renumbered and
    the file is complete. *)
Lemma save_run (name : string) (D : Evoked) :
  can_open name = true ->
  exists (m : nat) (ts : list (tag F)),
    w_self (snd (write_evoked can_open linalg_inv fiff_open copy_tree
                              write_proj write_ctf_comp name D))
    = renumbered m D /\
    w_fid (snd (write_evoked can_open linalg_inv fiff_open copy_tree
                             write_proj write_ctf_comp name D))
    = prologue_tags D ++ ts /\
    forall a,
      fst (write_evoked can_open linalg_inv fiff_open copy_tree
                        write_proj write_ctf_comp name D) = Ok a ->
      m = Z.to_nat (nchan (info D)) /\
      (Z.to_nat (nchan (info D)) <= length (chs (info D)))%nat /\
      exists body w,
        decalibrated D = Ok w /\ quiet_if QC body /\
        ts = T_block_start FIFFB_MEAS_INFO :: body
               ++ [T_block_end FIFFB_MEAS_INFO;
                   T_block_start FIFFB_PROCESSED_DATA]
               ++ evoked_block_tags D w ++ epilogue_tags.
Proof.
  intros Hopen. rewrite (save_unfold _ Hopen).
  destruct (acts_write_meas_info {| w_self := D; w_fid := prologue_tags D |})
    as (m & ts & Hs & Hf & Hok).
  cbn [w_self w_fid] in Hs, Hf, Hok.
  destruct (write_meas_info linalg_inv fiff_open copy_tree write_proj
                            write_ctf_comp _) as [[[]|e] s1].
  2:{ exists m, ts. cbn [fst snd] in *. repeat split; try assumption.
      all: discriminate. }
  cbn [fst snd] in Hs, Hf, Hok.
  destruct (Hok tt eq_refl) as [-> (body & -> & Hq & Hlen)].
  set (s1' := {| w_self := w_self s1;
                 w_fid := w_fid s1 ++ [T_block_start FIFFB_PROCESSED_DATA] |}).
  destruct (write_evoked_block_run s1') as (ts2 & Hst & Hres).
  change (w_self s1') with (w_self s1) in Hst, Hres.
  assert (Hd : decalibrated (w_self s1) = decalibrated D)
    by (rewrite Hs; apply decalibrated_renumbered).
  assert (Ht : forall w, evoked_block_tags (w_self s1) w
                         = evoked_block_tags D w)
    by (intros w; rewrite Hs; reflexivity).
  rewrite Hd in Hres.
  destruct (write_evoked_block (data (w_self s1)) s1') as [[[]|e] s2];
    cbn [fst snd] in Hst, Hres; subst s2; cbn [fst snd w_self w_fid].
  - destruct (decalibrated D) as [w|e] eqn:Ew; [| discriminate Hres].
    destruct Hres as [_ ->]. rewrite Ht.
    eexists. eexists. split; [exact Hs |]. split.
    + unfold s1'. cbn [w_fid]. rewrite Hf.
      rewrite <- !app_assoc. reflexivity.
    + intros a _. split; [reflexivity |]. split; [exact Hlen |].
      exists body, w. split; [reflexivity |]. split; [exact Hq |].
      cbn [app]. rewrite <- !app_assoc. reflexivity.
  - eexists. eexists. split; [exact Hs |]. split.
    + unfold s1'. cbn [w_fid]. rewrite Hf.
      rewrite <- !app_assoc. reflexivity.
    + discriminate.
Qed.

End SaveFacts.

Section WriterClaims.
Context {F : Type} {SF : Scalar F}.
Variables proj comp : Type.
Variable can_open : string -> bool.
Variable linalg_inv : matrix F -> result (matrix F).
Variable fiff_open : string -> result (node F).
Variable copy_tree : list (node F) -> list (tag F) * option error.
Variable write_proj : list proj -> list (tag F) * option error.
Variable write_ctf_comp : list comp -> list (tag F) * option error.

Local Abbreviation Evoked := (@Evoked F proj comp).
Local Abbreviation write_evoked' :=
  (write_evoked can_open linalg_inv fiff_open copy_tree write_proj
                write_ctf_comp).

Lemma renumber_from_nth (cs : list (ch_info F)) :
  forall (off m k : nat),
    nth_error (renumber_from off m cs) k
    = option_map (fun c => if Nat.ltb k m
                           then set_scanno (Z.of_nat (off + k)) c else c)
                 (nth_error cs k).
Proof.
  induction cs as [|c cs IH]; intros off m k.
  - destruct m, k; reflexivity.
  - destruct m as [|m], k as [|k]; simpl; try reflexivity.
    + destruct (nth_error cs k); reflexivity.
    + now rewrite Nat.add_0_r.
    + rewrite IH. replace (S off + k)%nat with (off + S k)%nat by lia.
      reflexivity.
Qed.

Lemma decalibrated_rows (D : Evoked) :
  Z.of_nat (nrows (data D)) <> nchan (info D) ->
  exists e, decalibrated D = Raise e.
Proof.
  intros Hrows. unfold decalibrated, decal_matrix.
  destruct (Z.ltb_spec (nchan (info D)) 0) as [Hneg|Hpos]; [now eexists |].
  destruct (decal_of _ _) as [ds|e] eqn:Ed; [| now eexists].
  apply decal_of_cals in Ed. destruct Ed as (cals & Ec & _ & ->).
  apply cals_of_length in Ec. rewrite length_seq in Ec.
  cbn [rbind]. unfold dot, diag. cbn [ncols]. rewrite length_map, Ec.
  destruct (Nat.eqb_spec (Z.to_nat (nchan (info D))) (nrows (data D)));
    [lia | now eexists].
Qed.

Lemma file_size_app (a b : list (tag F)) :
  file_size (a ++ b) = (file_size a + file_size b)%nat.
Proof.
  unfold file_size. induction a as [|t a IH]; cbn [fold_right app];
    [reflexivity |].
  rewrite IH. lia.
Qed.

(** C8 (as amended): [write_evoked] checks no shape before it writes.  For
    a dataset whose channel list is shorter than [nchan], or whose data has
    another number of rows than [nchan], the call raises, and by then the
    file holds the header (76 bytes) and what was written after it. *)
Theorem write_fails_after_header (name : string) (D : Evoked) :
  can_open name = true ->
  Z.of_nat (length (chs (info D))) < nchan (info D)
  \/ Z.of_nat (nrows (data D)) <> nchan (info D) ->
  exists (e : error) (ts : list (tag F)),
    fst (write_evoked' name D) = Raise e /\
    w_fid (snd (write_evoked' name D)) = header_tags ++ ts /\
    (76 <= file_size (w_fid (snd (write_evoked' name D))))%nat.
Proof.
  intros Hopen Hshape.
  destruct (@save_run _ _ _ _ can_open linalg_inv fiff_open copy_tree
                      write_proj write_ctf_comp name D Hopen)
    as (m & ts & _ & Hf & Hok).
  destruct (fst (write_evoked' name D)) as [a|e] eqn:Er.
  - exfalso. destruct (Hok a eq_refl) as (_ & Hlen & body & w & Hw & _).
    destruct Hshape as [Hshort|Hrows]; [lia |].
    destruct (decalibrated_rows D Hrows) as (e & He). congruence.
  - exists e. eexists. split; [reflexivity |].
    rewrite Hf. unfold prologue_tags. rewrite <- app_assoc.
    split; [reflexivity |].
    rewrite file_size_app. simpl. lia.
Qed.

(** C9 (as amended): [write_evoked] leaves every field of the dataset as it
    was, except the scan numbers of the channel records: record [k] carries
    the scan number [k] for [k < m], for some [m], and [m] is [nchan] when
    the call returns. *)
Theorem write_renumbers_channels (name : string) (D : Evoked) :
  exists m : nat,
    w_self (snd (write_evoked' name D)) = renumbered m D /\
    (forall a, fst (write_evoked' name D) = Ok a ->
               m = Z.to_nat (nchan (info D))) /\
    (forall k c,
        nth_error (chs (info D)) k = Some c ->
        nth_error (chs (info (renumbered m D))) k
        = Some (if Nat.ltb k m then set_scanno (Z.of_nat k) c else c)) /\
    renumbered m D = set_info (set_chs (chs (info (renumbered m D))) (info D)) D.
Proof.
  assert (Hm : exists m : nat,
             w_self (snd (write_evoked' name D)) = renumbered m D /\
             (forall a, fst (write_evoked' name D) = Ok a ->
                        m = Z.to_nat (nchan (info D)))).
  { destruct (can_open name) eqn:Hopen.
    - destruct (@save_run _ _ _ _ can_open linalg_inv fiff_open copy_tree
                          write_proj write_ctf_comp name D Hopen)
        as (m & ts & Hs & _ & Hok).
      exists m. split; [exact Hs |]. intros a Ha. now destruct (Hok a Ha).
    - exists 0%nat. unfold write_evoked, save, start_file, wbind.
      rewrite Hopen. cbn [wraise fst snd w_self].
      split; [now rewrite renumbered_0 | discriminate]. }
  destruct Hm as (m & Hs & Hok). exists m.
  split; [exact Hs |]. split; [exact Hok |]. split; [| reflexivity].
  intros k c Hk. unfold renumbered, renumber. cbn [info chs set_info set_chs
                                                   set_channels].
  now rewrite renumber_from_nth, Hk.
Qed.

End WriterClaims.

(** ** The block tree of a written file *)

Section TreeFacts.
Context {F : Type}.

Lemma dir_tree_find_Node (b0 : block_kind) (d : list (tag F))
    (cs : list (node F)) (b : block_kind) :
  dir_tree_find (Node b0 d cs) b
  = flat_map (fun c => (if block_eqb (block c) b then [c] else [])
                         ++ dir_tree_find c b) cs.
Proof.
  induction cs as [|c cs IH]; [reflexivity |].
  cbn [flat_map]. rewrite <- IH, <- app_assoc. reflexivity.
Qed.

Lemma block_eqb_neq (a b : block_kind) : a <> b -> block_eqb a b = false.
Proof.
  intros H. unfold block_eqb. now destruct (block_kind_eq_dec a b).
Qed.

Lemma find_silent (kl : list (node F)) (b0 : block_kind) (d : list (tag F))
    (more : list (node F)) (b : block_kind) :
  Forall silent kl ->
  b = FIFFB_PROCESSED_DATA \/ b = FIFFB_EVOKED ->
  dir_tree_find (Node b0 d (kl ++ more)) b = dir_tree_find (Node b0 d more) b.
Proof.
  intros Hkl Hb. rewrite !dir_tree_find_Node, flat_map_app.
  replace (flat_map _ kl) with (@nil (node F)); [reflexivity |].
  symmetry. induction Hkl as [|k kl (Hp & He & Fp & Fe) _ IH];
    [reflexivity |].
  cbn [flat_map]. rewrite IH.
  destruct Hb as [-> | ->].
  - now rewrite (block_eqb_neq Hp), Fp.
  - now rewrite (block_eqb_neq He), Fe.
Qed.

Lemma build_tree_plain (t : tag F) (ts : list (tag F)) (cur : frame)
    (stack : list frame) :
  is_block_tag t = false ->
  build_tree (t :: ts) cur stack = build_tree ts (add_tag t cur) stack.
Proof. destruct t; simpl; intros H; (discriminate || reflexivity). Qed.

(** A quiet sequence of tags adds its plain tags to the directory of the
    current block and its blocks, all silent, to the children. *)
Lemma build_tree_quiet (l : list (tag F)) :
  balanced l ->
  starts_no FIFFB_PROCESSED_DATA l -> starts_no FIFFB_EVOKED l ->
  exists (dl : list (tag F)) (kl : list (node F)),
    Forall silent kl /\
    forall rest cur stack,
      build_tree (l ++ rest) cur stack
      = build_tree rest
          {| fr_block := fr_block cur;
             fr_directory := rev dl ++ fr_directory cur;
             fr_children := rev kl ++ fr_children cur |} stack.
Proof.
  unfold starts_no.
  induction 1 as [|t l Ht _ IH|b b' l1 l2 _ IH1 _ IH2]; intros Hp He.
  - exists [], []. split; [constructor |]. intros rest [? ? ?] stack.
    reflexivity.
  - destruct IH as (dl & kl & Hkl & Hbuild).
    + intros H. apply Hp. now right.
    + intros H. apply He. now right.
    + exists (t :: dl), kl. split; [exact Hkl |].
      intros rest cur stack. cbn [app].
      rewrite (@build_tree_plain t _ _ _ Ht), Hbuild. cbn [add_tag fr_block
        fr_directory fr_children rev]. now rewrite <- app_assoc.
  - destruct IH1 as (dl1 & kl1 & Hkl1 & Hbuild1).
    { intros H. apply Hp. right. apply in_or_app. now left. }
    { intros H. apply He. right. apply in_or_app. now left. }
    destruct IH2 as (dl2 & kl2 & Hkl2 & Hbuild2).
    { intros H. apply Hp. right. apply in_or_app. right. now right. }
    { intros H. apply He. right. apply in_or_app. right. now right. }
    exists dl2, (Node b dl1 kl1 :: kl2). split.
    + constructor; [| exact Hkl2].
      assert (Hbp : b <> FIFFB_PROCESSED_DATA)
        by (intros ->; apply Hp; now left).
      assert (Hbe : b <> FIFFB_EVOKED) by (intros ->; apply He; now left).
      repeat split; try assumption.
      * rewrite <- (app_nil_r kl1). rewrite find_silent; auto.
      * rewrite <- (app_nil_r kl1). rewrite find_silent; auto.
    + intros rest cur stack. cbn [app build_tree].
      rewrite <- app_assoc. rewrite Hbuild1. cbn [app build_tree].
      rewrite Hbuild2.
      cbn [add_child close_frame fr_block fr_directory fr_children rev].
      unfold close_frame. cbn [fr_block fr_directory fr_children].
      rewrite !app_nil_r, !rev_involutive, <- app_assoc. reflexivity.
Qed.

End TreeFacts.

Section RoundTrip.
Context {F : Type} {SF : Scalar F}.
Variables proj comp : Type.

Local Abbreviation meas_info := (@meas_info F proj comp).
Local Abbreviation Evoked := (@Evoked F proj comp).

(** The block tree of a complete file written by [save]. *)
Lemma written_tree (D : Evoked) (body : list (tag F)) (w : matrix F) :
  quiet body ->
  exists (dl : list (tag F)) (kl : list (node F)),
    Forall silent kl /\
    make_dir_tree
      (prologue_tags D
         ++ T_block_start FIFFB_MEAS_INFO :: body
         ++ [T_block_end FIFFB_MEAS_INFO; T_block_start FIFFB_PROCESSED_DATA]
         ++ evoked_block_tags D w ++ epilogue_tags)
    = Node FIFFB_ROOT (header_tags ++ [T_nop])
           [Node FIFFB_MEAS (skipn 4 (prologue_tags D))
                 [Node FIFFB_MEAS_INFO dl kl;
                  Node FIFFB_PROCESSED_DATA [] [written_evoked D w]]].
Proof.
  intros (B & P & E).
  destruct (build_tree_quiet B P E) as (dl & kl & Hkl & Hb).
  exists dl, kl. split; [exact Hkl |].
  unfold make_dir_tree, prologue_tags, header_tags, evoked_block_tags,
    epilogue_tags, written_evoked.
  destruct (meas_id (info D));
    cbn [app build_tree add_tag add_child close_frame close_all rev skipn
         fr_block fr_directory fr_children];
    rewrite Hb;
    destruct (Nat.ltb 0 (String.length (comment D)));
    cbn [app build_tree close_all skipn];
    unfold add_tag, add_child, close_frame;
    cbn [app rev fr_block fr_directory fr_children];
    rewrite ?app_nil_r, ?rev_involutive; reflexivity.
Qed.

Lemma select_written (D : Evoked) (w : matrix F) (ids dl : list (tag F))
    (kl : list (node F)) (setno : Z) (u : node F * node F) :
  Forall silent kl ->
  select (Node FIFFB_MEAS ids
               [Node FIFFB_MEAS_INFO dl kl;
                Node FIFFB_PROCESSED_DATA [] [written_evoked D w]]) setno
  = Ok u ->
  fst u = written_evoked D w /\ children (written_evoked D w) = [snd u].
Proof.
  intros Hkl.
  assert (Hinfo : forall b,
             b = FIFFB_PROCESSED_DATA \/ b = FIFFB_EVOKED ->
             dir_tree_find (Node FIFFB_MEAS_INFO dl kl) b = []).
  { intros b Hb. rewrite <- (app_nil_r kl), find_silent; auto. }
  unfold select. rewrite !dir_tree_find_Node. cbn [flat_map block].
  rewrite !Hinfo by auto.
  unfold written_evoked.
  cbn -[to_i4 Z.of_nat Z.geb Z.ltb Z.eqb].
  destruct ((setno >=? Z.of_nat 1) || (setno <? 0)); [discriminate |].
  destruct (0 =? setno); [| discriminate].
  intros H. injection H as <-. split; reflexivity.
Qed.

Lemma comment_of_written (D : Evoked) (w : matrix F) (asp : node F) :
  children (written_evoked D w) = [asp] ->
  a_comment (scan_aspect asp
               (default_comment (v_comment (scan_evoked (written_evoked D w)))))
  = comment_read_back (comment D).
Proof.
  unfold written_evoked. cbn [children]. intros H. injection H as <-.
  destruct (comment D) as [|c s]; reflexivity.
Qed.

Variable can_open : string -> bool.
Variable linalg_inv : matrix F -> result (matrix F).
Variable fiff_open : string -> result (node F).
Variable copy_tree : list (node F) -> list (tag F) * option error.
Variable write_proj : list proj -> list (tag F) * option error.
Variable write_ctf_comp : list comp -> list (tag F) * option error.

Local Abbreviation write_evoked' :=
  (write_evoked can_open linalg_inv fiff_open copy_tree write_proj
                write_ctf_comp).

Lemma to_i4_id (z : Z) : - 2 ^ 31 <= z < 2 ^ 31 -> to_i4 z = z.
Proof.
  intros Hz. unfold to_i4. rewrite Z.mod_small; lia.
Qed.

Lemma integers_of_written (D : Evoked) (w : matrix F) (asp : node F) :
  children (written_evoked D w) = [asp] ->
  sample_range (scan_evoked (written_evoked D w))
  = Ok (to_i4 (first D), to_i4 (last D)) /\
  forall c,
    a_aspect_kind (scan_aspect asp c) = Some (to_i4 (aspect_kind D)) /\
    a_nave (scan_aspect asp c) = to_i4 (nave D).
Proof.
  unfold written_evoked. cbn [children]. intros H. injection H as <-.
  split; [| intros c; split; reflexivity].
  destruct (Nat.ltb 0 (String.length (comment D))); reflexivity.
Qed.

(** Reading back a complete file written by [save] assembles the evoked
    block and the aspect block that [save] wrote. *)
Lemma read_back_assembles (name : string) (D : Evoked) :
  can_open name = true ->
  fst (write_evoked' name D) = Ok tt ->
  quiet_collaborators copy_tree write_proj write_ctf_comp ->
  forall (file_system : string -> result (node F))
         (read_meas_info : node F -> result (meas_info * node F))
         (fname : string) (setno : Z)
         (baseline : option (option F * option F)) (D' : Evoked),
    file_system fname
    = Ok (make_dir_tree (w_fid (snd (write_evoked' name D)))) ->
    (forall tree i meas,
        read_meas_info tree = Ok (i, meas) ->
        hd_error (dir_tree_find tree FIFFB_MEAS) = Some meas) ->
    read_evoked file_system read_meas_info fname setno baseline = Ok D' ->
    exists (w : matrix F) (asp : node F) (i : meas_info),
      decalibrated D = Ok w /\
      children (written_evoked D w) = [asp] /\
      assemble i (written_evoked D w) asp baseline = Ok D'.
Proof.
  intros Hopen Hok HQ file_system read_meas_info fname setno baseline D'
         Hfs Hmeas.
  destruct (@save_run _ _ _ _ can_open linalg_inv fiff_open copy_tree
                      write_proj write_ctf_comp name D Hopen)
    as (m & ts & _ & Hf & Hdone).
  destruct (Hdone tt Hok) as (_ & _ & body & w & Hw & Hq & ->).
  destruct (written_tree D w (Hq HQ)) as (dl & kl & Hkl & Htree).
  rewrite Hf in Hfs. rewrite Htree in Hfs.
  unfold read_evoked, Evoked_init.
  destruct (setno <? 0); [discriminate |].
  rewrite Hfs. cbn [rbind].
  destruct (read_meas_info _) as [[i meas]|e] eqn:Hr; [| discriminate].
  cbn [rbind]. apply Hmeas in Hr. cbn in Hr. injection Hr as <-.
  unfold Evoked_of. intros H.
  apply rbind_Ok in H. destruct H as ([ev asp] & Hsel & Hasm).
  apply (select_written D w) in Hsel; [| exact Hkl].
  cbn [fst snd] in Hsel. destruct Hsel as [-> Hasp].
  now exists w, asp, (set_filename (Some fname) i).
Qed.

(** The integer fields of a dataset written by [save] and read back are
    those of the dataset, as 32-bit integers. *)
Lemma integers_read_back (name : string) (D : Evoked) :
  can_open name = true ->
  fst (write_evoked' name D) = Ok tt ->
  quiet_collaborators copy_tree write_proj write_ctf_comp ->
  forall (file_system : string -> result (node F))
         (read_meas_info : node F -> result (meas_info * node F))
         (fname : string) (setno : Z)
         (baseline : option (option F * option F)) (D' : Evoked),
    file_system fname
    = Ok (make_dir_tree (w_fid (snd (write_evoked' name D)))) ->
    (forall tree i meas,
        read_meas_info tree = Ok (i, meas) ->
        hd_error (dir_tree_find tree FIFFB_MEAS) = Some meas) ->
    read_evoked file_system read_meas_info fname setno baseline = Ok D' ->
    nave D' = to_i4 (nave D) /\ aspect_kind D' = to_i4 (aspect_kind D) /\
    first D' = to_i4 (first D) /\ last D' = to_i4 (last D).
Proof.
  intros Hopen Hok HQ file_system read_meas_info fname setno baseline D'
         Hfs Hmeas Hread.
  destruct (@read_back_assembles name D Hopen Hok HQ file_system
                                 read_meas_info fname setno baseline D'
                                 Hfs Hmeas Hread)
    as (w & asp & i & _ & Hasp & Hasm).
  apply assemble_Ok in Hasm.
  destruct Hasm as (g & _ & Hg & _ & _ & _ & _ & Hf & Hl & Hn & Hk & _).
  apply gather_Ok in Hg. destruct Hg as (_ & Hr & Hv & Hak & _).
  destruct (integers_of_written Hasp) as (Hrange & Hasp').
  rewrite Hrange in Hr. injection Hr as Hf' Hl'.
  destruct (Hasp' (default_comment
                     (v_comment (scan_evoked (written_evoked D w)))))
    as (Hkind & Hnave).
  rewrite Hv in Hak. rewrite Hkind in Hak. injection Hak as Hak.
  rewrite Hn, Hk, Hf, Hl, Hv, Hnave. auto.
Qed.

(** C10: the evoked block that [save] writes holds a comment tag exactly
    when the comment of the dataset is not empty; read back, a file
    written for an empty comment gives the comment "No comment", and a file
    written for another comment gives that comment.  The file is read
    through its block tree, the measurement block being the first one of
    the file, and the collaborators of [save] are assumed to write whole
    blocks, none of them a processed-data or an evoked block. *)
Theorem comment_written_and_read_back (name : string) (D : Evoked) :
  can_open name = true ->
  fst (write_evoked' name D) = Ok tt ->
  exists (pre : list (tag F)) (w : matrix F),
    w_fid (snd (write_evoked' name D))
    = pre ++ evoked_block_tags D w ++ epilogue_tags /\
    (forall s, In (T_string FIFF_COMMENT s) (evoked_block_tags D w)
               <-> s = comment D /\ comment D <> ""%string) /\
    (quiet_collaborators copy_tree write_proj write_ctf_comp ->
     forall (file_system : string -> result (node F))
            (read_meas_info : node F -> result (meas_info * node F))
            (fname : string) (setno : Z)
            (baseline : option (option F * option F)) (D' : Evoked),
       file_system fname
       = Ok (make_dir_tree (w_fid (snd (write_evoked' name D)))) ->
       (forall tree i meas,
           read_meas_info tree = Ok (i, meas) ->
           hd_error (dir_tree_find tree FIFFB_MEAS) = Some meas) ->
       read_evoked file_system read_meas_info fname setno baseline = Ok D' ->
       comment D' = comment_read_back (comment D)).
Proof.
  intros Hopen Hok.
  destruct (@save_run _ _ _ _ can_open linalg_inv fiff_open copy_tree
                      write_proj write_ctf_comp name D Hopen)
    as (m & ts & _ & Hf & Hdone).
  destruct (Hdone tt Hok) as (_ & _ & body & w & Hw & Hq & ->).
  exists (prologue_tags D ++ T_block_start FIFFB_MEAS_INFO :: body
            ++ [T_block_end FIFFB_MEAS_INFO;
                T_block_start FIFFB_PROCESSED_DATA]), w.
  split; [| split].
  - rewrite Hf. rewrite <- !app_assoc. cbn [app].
    rewrite <- !app_assoc. reflexivity.
  - intros s. unfold evoked_block_tags.
    destruct (comment D) as [|c cs] eqn:Ec; cbn; split.
    + intros H. repeat (destruct H as [H|H]; try discriminate). contradiction.
    + intros [_ H]. congruence.
    + intros H. repeat (destruct H as [H|H]; try discriminate);
        [| contradiction].
      injection H as <-. split; [reflexivity | discriminate].
    + intros [-> _]. right. now left.
  - intros HQ file_system read_meas_info fname setno baseline D' Hfs Hmeas
           Hread.
    destruct (@read_back_assembles name D Hopen Hok HQ file_system
                                   read_meas_info fname setno baseline D'
                                   Hfs Hmeas Hread)
      as (w' & asp & i & _ & Hasp & Hasm).
    apply assemble_Ok in Hasm.
    destruct Hasm as (g & _ & Hg & _ & _ & _ & _ & _ & _ & _ & _ & Hc).
    apply gather_Ok in Hg. destruct Hg as (_ & _ & Hv & _).
    rewrite Hc, Hv. now apply comment_of_written.
Qed.

End RoundTrip.

(** ** Lists, and the shape of the data before calibration *)

Section ListFacts.

Lemma map_seq_nth {A B : Type} (f : A -> B) (l : list A) (d : A) :
  map (fun i => f (nth i l d)) (seq 0 (length l)) = map f l.
Proof.
  induction l as [|a l IH]; [reflexivity |].
  cbn [length seq map]. rewrite <- seq_shift, map_map. cbn [nth].
  now rewrite IH.
Qed.

Lemma map_seq_combine {A B C : Type} (f : A -> B -> C) (d1 : A) (d2 : B)
    (l1 : list A) :
  forall l2 : list B,
    length l1 = length l2 ->
    map (fun i => f (nth i l1 d1) (nth i l2 d2)) (seq 0 (length l1))
    = map (fun p => f (fst p) (snd p)) (combine l1 l2).
Proof.
  induction l1 as [|a l1 IH]; intros [|b l2] Hlen; try discriminate;
    [reflexivity |].
  cbn [length seq map combine]. rewrite <- seq_shift, map_map. cbn [nth fst snd].
  f_equal. apply IH. now injection Hlen.
Qed.

End ListFacts.

Section RawDataShape.
Context {F : Type} {SF : Scalar F}.





End RawDataShape.

(** ** Selecting and reading *)

Section ReaderClaims.
Context {F : Type} {SF : Scalar F}.
Variables proj comp : Type.

Local Abbreviation meas_info := (@meas_info F proj comp).
Local Abbreviation Evoked := (@Evoked F proj comp).

(** X25: a negative index is refused before the file is
    opened.  For a file with processed data, an evoked block and no
    signal-minus-shield aspect, whose evoked blocks have equally many
    aspects, an index from 0 up to the number of selectable units selects
    the unit at that index, and the call then
    returns what the assembly of that unit returns; an index from that
    number on is refused.  Both refusals are selection range errors. *)
Theorem selection_range
    (file_system : string -> result (node F))
    (read_meas_info : node F -> result (meas_info * node F))
    (fname : string) (setno : Z) (baseline : option (option F * option F)) :
  (setno < 0 ->
   read_evoked file_system read_meas_info fname setno baseline
   = Raise (ValueError Selector_must_be_positive)) /\
  (forall tree i meas,
      file_system fname = Ok tree ->
      read_meas_info tree = Ok (i, meas) ->
      dir_tree_find meas FIFFB_PROCESSED_DATA <> [] ->
      dir_tree_find meas FIFFB_EVOKED <> [] ->
      no_smsh meas -> aspects_agree meas ->
      (0 <= setno < Z.of_nat (total_count meas) ->
       exists ev asp,
         nth_error (selectable_units meas) (Z.to_nat setno) = Some (ev, asp) /\
         read_evoked file_system read_meas_info fname setno baseline
         = assemble (set_filename (Some fname) i) ev asp baseline) /\
      (Z.of_nat (total_count meas) <= setno ->
       read_evoked file_system read_meas_info fname setno baseline
       = Raise (ValueError Selector_out_of_range))) /\
  classify (ValueError Selector_must_be_positive) = SelectionRangeError /\
  classify (ValueError Selector_out_of_range) = SelectionRangeError.
Proof.
  unfold read_evoked, Evoked_init. split; [| split; [| split; reflexivity]].
  - intros Hneg. destruct (Z.ltb_spec setno 0); [reflexivity | lia].
  - intros tree i meas Hfs Hrmi Hproc Hev Hplain Hagree.
    rewrite Hfs. cbn [rbind]. rewrite Hrmi. cbn [rbind]. unfold Evoked_of.
    destruct (select_plain setno Hproc Hev Hplain Hagree) as (Hin & Hout & _).
    split.
    + intros Hrange. destruct (Z.ltb_spec setno 0); [lia |].
      destruct (Hin Hrange) as ([ev asp] & Hu & Hsel).
      exists ev, asp. split; [exact Hu |]. now rewrite Hsel.
    + intros Hge. destruct (Z.ltb_spec setno 0); [lia |].
      now rewrite (Hout Hge).
Qed.

End ReaderClaims.

(** ** The model at work *)

Module Run.
Import Example Inputs.

(** The rationals satisfy the laws of exact arithmetic. *)
Lemma Qc_exact : ExactScalar Qc_scalar.
Proof.
  split; cbn [fzero fone fadd fmul fdiv Qc_scalar]; intros.
  - ring.
  - ring.
  - ring.
  - field. assumption.
Qed.

(** C2: in a file whose evoked block holds an aspect and a
    signal-minus-shield aspect the specification counts two selectable
    units; the code raises a [TypeError] for either index. *)
Theorem smsh_aspect_raises :
  total_count meas_smsh = 2%nat /\
  read_evoked_one meas_smsh 0 None = Raise TypeError /\
  read_evoked_one meas_smsh 1 None = Raise TypeError.
Proof. repeat split. Qed.

(** Evoked blocks with different numbers of aspects: [np.r_] refuses to
    put the rows of [is_smsh] together. *)
Lemma uneven_aspects_raise :
  total_count meas_uneven = 3%nat /\
  read_evoked_one meas_uneven 0 None
  = Raise (ValueError Shapes_not_aligned).
Proof. split; reflexivity. Qed.

(** C5: the file holds two evoked blocks, of one and of two aspects, each
    of which can be assembled; the specification counts three selectable
    units, and the code raises for every index in range: [np.r_] refuses
    to put the rows of [is_smsh], of one and of two zeros, together. *)
Theorem in_range_index_raises :
  total_count meas_uneven = 3%nat /\
  Forall (fun u => exists d, assemble info0 (fst u) (snd u) None = Ok d)
         (selectable_units meas_uneven) /\
  read_evoked_one meas_uneven 0 None = Raise (ValueError Shapes_not_aligned) /\
  read_evoked_one meas_uneven 1 None = Raise (ValueError Shapes_not_aligned) /\
  read_evoked_one meas_uneven 2 None = Raise (ValueError Shapes_not_aligned).
Proof.
  split; [reflexivity |]. split; [| repeat split].
  repeat constructor; eexists; vm_compute; reflexivity.
Qed.

(** An index in range selects a unit; reading it still fails where the
    unit cannot be assembled, as for an aspect without epoch tag. *)
Lemma selection_fails_in_range :
  total_count meas_no_epoch = 1%nat /\
  read_evoked_one meas_no_epoch 0 None
  = Raise (ValueError Epoch_tags_unreasonable).
Proof. split; reflexivity. Qed.

(** C3, counterexample: as many single-row epochs as channels, two of two
    samples each; transposed and put under one another they form a 4 x 1
    array, and the sample count is refused. *)
Lemma row_epochs_not_assembled :
  Z.of_nat (length row_epochs) = nchan info0 /\
  Forall (fun e => nrows e = 1%nat /\ ncols e = 2%nat) row_epochs /\
  assemble info0 (old_style row_epochs) (aspect_of (old_style row_epochs))
           None
  = Raise (ValueError Incorrect_number_of_samples).
Proof.
  split; [reflexivity |]. split; [| reflexivity].
  repeat constructor.
Qed.


(** C8, counterexample: two channels declared, no channel record; the
    call raises an [IndexError] when 232 bytes are in the file. *)
Lemma no_validation_before_writing :
  Z.of_nat (length (chs (info dataset_no_channels)))
  < nchan (info dataset_no_channels) /\
  fst (write_evoked_plain "out.fif" dataset_no_channels) = Raise IndexError /\
  file_size (w_fid (snd (write_evoked_plain "out.fif" dataset_no_channels)))
  = 232%nat.
Proof. repeat split. Qed.

(** C9, counterexample: the scan numbers 1 and 2 of the dataset are 0 and
    1 after the call. *)
Lemma write_changes_scan_numbers :
  fst (write_evoked_plain "out.fif" dataset0) = Ok tt /\
  map (fun c => scanno c) (chs (info dataset0)) = [1; 2] /\
  map (fun c => scanno c)
      (chs (info (w_self (snd (write_evoked_plain "out.fif" dataset0)))))
  = [0; 1] /\
  w_self (snd (write_evoked_plain "out.fif" dataset0)) <> dataset0.
Proof.
  split; [reflexivity |]. split; [reflexivity |]. split; [reflexivity |].
  intros E.
  apply (f_equal (fun e => map (fun c => scanno c) (chs (info e)))) in E.
  vm_compute in E. discriminate E.
Qed.

(** *** The theorems at these inputs *)

Lemma epoch_tags_assembled_witness :
  exists m,
    raw_data column_epochs 2 2 = Ok m /\
    nth_error (cells m) 1 = Some [q 3; q 4].
Proof.
  destruct (@epoch_tags_assembled Qc Qc_scalar unit unit) as (_ & B & _).
  destruct (B column_epochs 2) as (m & Hm & _ & _ & Hrows).
  - discriminate.
  - repeat constructor.
  - exists m. split; [exact Hm |]. apply (Hrows 1%nat _ eq_refl).
Defined.

Lemma selection_range_witness :
  exists ev asp,
    nth_error (selectable_units meas0) 0 = Some (ev, asp) /\
    read_evoked_one meas0 0 None
    = assemble (set_filename (Some "test-ave.fif"%string) info0) ev asp None.
Proof.
  destruct (selection_range (fiff_open_one "test-ave.fif" meas0)
                            (read_meas_info_as info0) "test-ave.fif" 0 None)
    as (_ & H & _).
  destruct (H (Node FIFFB_ROOT [] [meas0]) info0 meas0) as (Hin & _).
  - reflexivity.
  - reflexivity.
  - discriminate.
  - discriminate.
  - repeat constructor.
  - exists 1%nat. constructor; [now right | constructor].
  - apply Hin. split; [lia | reflexivity].
Defined.

Lemma write_fails_after_header_witness :
  exists e ts,
    fst (write_evoked_plain "out.fif" dataset_no_channels) = Raise e /\
    w_fid (snd (write_evoked_plain "out.fif" dataset_no_channels))
    = header_tags ++ ts /\
    (76 <= file_size
             (w_fid (snd (write_evoked_plain "out.fif" dataset_no_channels))))%nat.
Proof.
  apply (@write_fails_after_header
           Qc Qc_scalar unit unit (fun _ => true) (fun m => Ok m)
           (fun _ => Raise IOError) nothing nothing nothing).
  - reflexivity.
  - left. reflexivity.
Defined.

Lemma comment_written_and_read_back_witness :
  (exists d, read_back dataset_no_comment 0 = Ok d) /\
  forall d, read_back dataset_no_comment 0 = Ok d ->
            comment d = "No comment"%string.
Proof.
  split.
  - destruct (read_back dataset_no_comment 0) as [d|e] eqn:H;
      [now exists d | vm_compute in H; discriminate H].
  - intros d Hd.
    destruct (@comment_written_and_read_back
                Qc Qc_scalar unit unit (fun _ => true) (fun m => Ok m)
                (fun _ => Raise IOError) nothing nothing nothing
                "out.fif" dataset_no_comment)
      as (pre & w & _ & _ & Hread).
    + reflexivity.
    + reflexivity.
    + apply (Hread (conj (fun _ => quiet_nil)
                         (conj (fun _ => quiet_nil) (fun _ => quiet_nil)))
               (fun _ => Ok (make_dir_tree
                               (w_fid (snd (write_evoked_plain
                                              "out.fif" dataset_no_comment)))))
               (read_meas_info_as info0) "out.fif"%string 0 None d).
      * reflexivity.
      * intros tree i meas. unfold read_meas_info_as.
        destruct (dir_tree_find tree FIFFB_MEAS); [discriminate |].
        intros E. now injection E as _ <-.
      * exact Hd.
Defined.

End Run.

(** * Further properties *)

(** ** The scans of the evoked block and of the aspect block *)

Section ScanFacts.
Context {F : Type} {SF : Scalar F}.
Variables proj comp : Type.

Local Abbreviation meas_info := (@meas_info F proj comp).
Local Abbreviation Evoked := (@Evoked F proj comp).

Lemma last_value_snoc {A : Type} (l : list A) (x : A) :
  last_value (l ++ [x]) = Some x.
Proof. unfold last_value. now rewrite rev_unit. Qed.

Lemma scan_evoked_from (dir : list (tag F)) :
  fold_left scan_evoked_tag dir evoked_vars0
  = {| v_nchan := value_or 0 (last_value (ints_of FIFF_NCHAN dir));
       v_sfreq := last_value (floats_of FIFF_SFREQ dir);
       v_chs := channels_of dir;
       v_comment := last_value (strings_of FIFF_COMMENT dir);
       v_first := last_value (ints_of FIFF_FIRST_SAMPLE dir);
       v_last := last_value (ints_of FIFF_LAST_SAMPLE dir) |}.
Proof.
  induction dir as [|t dir IH] using rev_ind; [reflexivity |].
  rewrite fold_left_app. cbn [fold_left]. rewrite IH.
  unfold ints_of, floats_of, strings_of, channels_of.
  rewrite !flat_map_app. cbn [flat_map].
  destruct t as [b|b|k v|k v|k s|k m|k v|c inv|c|d| |code size|size];
    try destruct k; cbn;
    rewrite ?app_nil_r, ?last_value_snoc; reflexivity.
Qed.

Lemma scan_aspect_from (dir : list (tag F)) (comment0 : string) :
  fold_left scan_aspect_tag dir
            {| a_comment := comment0; a_aspect_kind := None; a_nave := 1;
               a_epoch := [] |}
  = {| a_comment :=
         value_or comment0 (last_value (strings_of FIFF_COMMENT dir));
       a_aspect_kind := last_value (ints_of FIFF_ASPECT_KIND dir);
       a_nave := value_or 1 (last_value (ints_of FIFF_NAVE dir));
       a_epoch := epochs_of dir |}.
Proof.
  induction dir as [|t dir IH] using rev_ind; [reflexivity |].
  rewrite fold_left_app. cbn [fold_left]. rewrite IH.
  unfold ints_of, strings_of, epochs_of.
  rewrite !flat_map_app. cbn [flat_map].
  destruct t as [b|b|k v|k v|k s|k m|k v|c inv|c|d| |code size|size];
    try destruct k; cbn;
    rewrite ?app_nil_r, ?last_value_snoc; reflexivity.
Qed.

(** X1: the scan of an evoked block keeps, for the comment, the first and
    the last sample, the channel count and the sampling rate, the payload
    of the last tag of the kind in the directory; the channel count is 0
    where the block has no such tag; the channel records are collected in
    directory order; tags of other kinds change nothing. *)
Theorem scan_evoked_by_kind (my_evoked : node F) :
  let dir := directory my_evoked in
  scan_evoked my_evoked
  = {| v_nchan := value_or 0 (last_value (ints_of FIFF_NCHAN dir));
       v_sfreq := last_value (floats_of FIFF_SFREQ dir);
       v_chs := channels_of dir;
       v_comment := last_value (strings_of FIFF_COMMENT dir);
       v_first := last_value (ints_of FIFF_FIRST_SAMPLE dir);
       v_last := last_value (ints_of FIFF_LAST_SAMPLE dir) |}.
Proof. intros dir. apply scan_evoked_from. Qed.

(** X2: the scan of an aspect block keeps the payload of the last comment,
    aspect-kind and average-count tag of the directory; the comment is the
    one of the evoked block and the average count is 1 where the block has
    no such tag; the epochs are collected in directory order; tags of
    other kinds change nothing. *)
Theorem scan_aspect_by_kind (my_aspect : node F) (comment0 : string) :
  let dir := directory my_aspect in
  scan_aspect my_aspect comment0
  = {| a_comment :=
         value_or comment0 (last_value (strings_of FIFF_COMMENT dir));
       a_aspect_kind := last_value (ints_of FIFF_ASPECT_KIND dir);
       a_nave := value_or 1 (last_value (ints_of FIFF_NAVE dir));
       a_epoch := epochs_of dir |}.
Proof. intros dir. apply scan_aspect_from. Qed.

(** X3: in an assembled dataset, [first], [last] and [aspect_kind] are the
    payloads of the last tags of their kinds in the evoked block and in
    the aspect block, which therefore hold such tags; [nave] is the last
    average count of the aspect block, or 1; the comment is the last
    comment of the aspect block, else the last comment of the evoked
    block, else "No comment". *)
Theorem assembled_fields_by_kind (i : meas_info) (ev asp : node F)
    (baseline : option (option F * option F)) (d : Evoked) :
  assemble i ev asp baseline = Ok d ->
  last_value (ints_of FIFF_FIRST_SAMPLE (directory ev)) = Some (first d) /\
  last_value (ints_of FIFF_LAST_SAMPLE (directory ev)) = Some (last d) /\
  last_value (ints_of FIFF_ASPECT_KIND (directory asp))
  = Some (aspect_kind d) /\
  nave d = value_or 1 (last_value (ints_of FIFF_NAVE (directory asp))) /\
  comment d
  = value_or
      (value_or "No comment"%string
                (last_value (strings_of FIFF_COMMENT (directory ev))))
      (last_value (strings_of FIFF_COMMENT (directory asp))).
Proof.
  intros H. apply assemble_Ok in H.
  destruct H as (g & m & Hg & _ & _ & _ & _ & Hf & Hl & Hn & Hk & Hc).
  apply gather_Ok in Hg. destruct Hg as (_ & Hr & Hv & Hak & _).
  unfold scan_evoked, scan_aspect in *.
  rewrite scan_evoked_from in Hr, Hv. rewrite scan_aspect_from in Hv.
  unfold sample_range in Hr. cbn [v_first v_last v_comment] in Hr, Hv.
  rewrite Hv in Hak, Hn, Hc. cbn [a_aspect_kind a_nave a_comment] in *.
  destruct (last_value (ints_of FIFF_LAST_SAMPLE (directory ev))) as [l|];
    [| discriminate Hr].
  destruct (last_value (ints_of FIFF_FIRST_SAMPLE (directory ev))) as [f|];
    [| discriminate Hr].
  injection Hr as Hf' Hl'.
  rewrite Hf, Hl, Hk, Hn, Hc, Hak, <- Hf', <- Hl'.
  repeat split.
Qed.

End ScanFacts.

(** ** The shape of an assembled dataset *)

Section ShapeFacts.
Context {F : Type} {SF : Scalar F}.
Variables proj comp : Type.

Local Abbreviation meas_info := (@meas_info F proj comp).
Local Abbreviation Evoked := (@Evoked F proj comp).

Lemma dot_wf (a b m : matrix F) :
  length (cells a) = nrows a -> dot a b = Ok m -> wf_matrix m.
Proof.
  intros Ha. unfold dot. destruct (Nat.eqb (ncols a) (nrows b)); [| discriminate].
  intros H. injection H as <-. split; cbn [cells nrows ncols].
  - now rewrite length_map.
  - apply Forall_forall. intros r Hr. apply in_map_iff in Hr.
    destruct Hr as (ra & <- & _). now rewrite length_map, length_seq.
Qed.

Lemma calibrate_wf (i : meas_info) (a m : matrix F) :
  calibrate i a = Ok m -> wf_matrix m.
Proof.
  unfold calibrate. intros H. apply rbind_Ok in H.
  destruct H as (cals & _ & Hdot). eapply dot_wf; [| exact Hdot].
  unfold diag. cbn [cells nrows]. now rewrite length_map, length_seq.
Qed.

Lemma subtract_row_means_wf (imin imax : nat) (m : matrix F) :
  wf_matrix m -> wf_matrix (subtract_row_means imin imax m).
Proof.
  intros [Hlen Hrows]. split; cbn [cells nrows ncols subtract_row_means].
  - now rewrite length_map.
  - apply Forall_forall. intros r Hr. apply in_map_iff in Hr.
    destruct Hr as (r0 & <- & Hin). rewrite length_map.
    rewrite Forall_forall in Hrows. now apply Hrows.
Qed.

Lemma apply_baseline_wf (baseline : option (option F * option F))
    (ts : list F) (a m : matrix F) :
  apply_baseline baseline ts a = Ok m -> wf_matrix a -> wf_matrix m.
Proof.
  destruct baseline as [[bmin bmax]|]; cbn [apply_baseline].
  - intros H Ha. apply rbind_Ok in H. destruct H as (imin & _ & H).
    apply rbind_Ok in H. destruct H as (imax & _ & H). injection H as <-.
    now apply subtract_row_means_wf.
  - intros H. now injection H as <-.
Qed.

Lemma cals_of_bound (cs : list (ch_info F)) (ks : list nat) :
  forall cals : list F,
    cals_of ks cs = Ok cals -> Forall (fun k => (k < length cs)%nat) ks.
Proof.
  induction ks as [|k ks IH]; intros cals H; [constructor |].
  cbn [cals_of] in H.
  destruct (nth_error cs k) as [ch|] eqn:Ek; [| discriminate H].
  apply rbind_Ok in H. destruct H as (cals' & Hc & _).
  constructor; [| now apply (IH cals')].
  apply nth_error_Some. congruence.
Qed.

Lemma cals_of_seq_bound (cs : list (ch_info F)) (n : nat) (cals : list F) :
  cals_of (seq 0 n) cs = Ok cals -> (n <= length cs)%nat.
Proof.
  intros H. apply cals_of_bound in H. rewrite Forall_forall in H.
  destruct n as [|n]; [lia |].
  specialize (H n). rewrite in_seq in H. lia.
Qed.

(** X4: the data of an assembled dataset is a well-formed array of as many
    rows as the info counts channels and of [last - first + 1] columns,
    one per time instant; the info holds at least as many channel records
    as it counts channels. *)
Theorem assembled_shape (i : meas_info) (ev asp : node F)
    (baseline : option (option F * option F)) (d : Evoked) :
  assemble i ev asp baseline = Ok d ->
  wf_matrix (data d) /\
  Z.of_nat (nrows (data d)) = Z.max 0 (nchan (info d)) /\
  Z.of_nat (ncols (data d)) = last d - first d + 1 /\
  length (times d) = ncols (data d) /\
  nchan (info d) <= Z.of_nat (length (chs (info d))).
Proof.
  intros H. pose proof (assemble_sample_count _ _ _ _ H) as [Hn Ht].
  apply assemble_Ok in H.
  destruct H as (g & m & _ & Hm & Hb & _ & Hi & _).
  pose proof (calibrate_wf _ _ Hm) as Hwf.
  pose proof (calibrate_shape _ _ Hm) as (Hr & Hr' & _).
  pose proof (apply_baseline_shape _ _ _ Hb) as (Hr'' & _).
  unfold calibrate in Hm. apply rbind_Ok in Hm.
  destruct Hm as (cals & Hc & _). apply cals_of_seq_bound in Hc.
  rewrite Hi. repeat split; try assumption.
  - eapply apply_baseline_wf; eassumption.
  - eapply apply_baseline_wf; eassumption.
  - lia.
  - lia.
Qed.

End ShapeFacts.

(** ** Baseline windows *)

Section BaselineFacts.
Context {F : Type} {SF : Scalar F}.
Variables proj comp : Type.

Local Abbreviation meas_info := (@meas_info F proj comp).
Local Abbreviation Evoked := (@Evoked F proj comp).

(** The baseline is applied to the dataset assembled without it. *)
Lemma assemble_with_baseline (i : meas_info) (ev asp : node F)
    (baseline : option (option F * option F)) (d0 : Evoked) :
  assemble i ev asp None = Ok d0 ->
  assemble i ev asp baseline
  = rbind (apply_baseline baseline (times d0) (data d0))
          (fun m => Ok (set_data m d0)).
Proof.
  unfold assemble. destruct (gather i ev asp) as [g|e]; [| discriminate].
  cbn [rbind]. destruct (calibrate (g_info g) (g_raw g)) as [m|e];
    [| discriminate].
  cbn [rbind apply_baseline]. intros H. injection H as <-. reflexivity.
Qed.

Lemma np_where_all_false (p : F -> bool) (ts : list F) :
  (forall t, In t ts -> p t = false) -> np_where (map p ts) 0 = [].
Proof.
  intros H. apply np_where_none. intros j Hj. rewrite length_map in Hj.
  rewrite nth_error_map.
  destruct (nth_error ts j) as [t|] eqn:Et.
  - cbn. f_equal. apply H. eapply nth_error_In. exact Et.
  - apply nth_error_None in Et. lia.
Qed.

(** X5: a baseline whose lower limit lies after every time instant of the
    dataset, or whose upper limit lies before every one, makes the read
    raise an [IndexError]: there is no first, or no last, index of the
    window.  This holds in particular for a dataset without samples. *)
Theorem baseline_outside_raises (i : meas_info) (ev asp : node F)
    (d0 : Evoked) :
  assemble i ev asp None = Ok d0 ->
  (forall (b : F) (bmax : option F),
      (forall t, In t (times d0) -> fle b t = false) ->
      assemble i ev asp (Some (Some b, bmax)) = Raise IndexError) /\
  (forall (bmin : option F) (b : F) (imin : nat),
      baseline_imin bmin (times d0) = Ok imin ->
      (forall t, In t (times d0) -> fle t b = false) ->
      assemble i ev asp (Some (bmin, Some b)) = Raise IndexError).
Proof.
  intros H0. split.
  - intros b bmax Hb. rewrite assemble_with_baseline with (d0 := d0) by exact H0.
    cbn [apply_baseline baseline_imin].
    now rewrite (@np_where_all_false (fun t => fle b t) _ Hb).
  - intros bmin b imin Hmin Hb. rewrite assemble_with_baseline with (d0 := d0) by exact H0.
    cbn [apply_baseline]. rewrite Hmin. cbn [rbind baseline_imax].
    now rewrite (@np_where_all_false (fun t => fle t b) _ Hb).
Qed.

End BaselineFacts.

(** ** Baseline correction in exact arithmetic *)

Section ZeroMean.
Variables proj comp : Type.

Local Abbreviation meas_info := (@meas_info Qc proj comp).
Local Abbreviation Evoked := (@Evoked Qc proj comp).

Lemma Qc_of_int_succ (n : nat) :
  (of_int (Z.of_nat (S n)) : Qc) = (of_int (Z.of_nat n) + Q2Qc 1)%Qc.
Proof.
  cbn [of_int Qc_scalar]. unfold Qcplus. apply Q2Qc_eq_iff.
  cbn [this Q2Qc]. rewrite !Qred_correct.
  rewrite Nat2Z.inj_succ, <- Z.add_1_r, inject_Z_plus. reflexivity.
Qed.

Lemma Qc_of_int_pos (n : nat) :
  (0 < n)%nat -> (of_int (Z.of_nat n) : Qc) <> Q2Qc 0.
Proof.
  intros Hn E. cbn [of_int Qc_scalar] in E. apply Q2Qc_eq_iff in E.
  unfold Qeq in E. cbn in E. lia.
Qed.

Lemma fold_Qcplus_acc (xs : list Qc) :
  forall a b : Qc, fold_left Qcplus xs (a + b)%Qc = (fold_left Qcplus xs a + b)%Qc.
Proof.
  induction xs as [|x xs IH]; intros a b; [reflexivity |].
  cbn [fold_left]. rewrite <- IH. f_equal. ring.
Qed.

Lemma fold_Qcplus_shift (c : Qc) (xs : list Qc) :
  forall a : Qc,
    fold_left Qcplus (map (fun x => x - c)%Qc xs) a
    = (fold_left Qcplus xs a - of_int (Z.of_nat (length xs)) * c)%Qc.
Proof.
  induction xs as [|x xs IH]; intros a.
  - cbn [map fold_left length].
    change (of_int (Z.of_nat 0) : Qc) with (Q2Qc 0). ring.
  - cbn [map fold_left length]. rewrite IH, Qc_of_int_succ.
    replace (a + (x - c))%Qc with ((a + x) + (- c))%Qc by ring.
    rewrite fold_Qcplus_acc. ring.
Qed.

Lemma fsum_shift (c : Qc) (xs : list Qc) :
  fsum (map (fun x => fsub x c) xs)
  = (fsum xs - of_int (Z.of_nat (length xs)) * c)%Qc.
Proof. apply fold_Qcplus_shift. Qed.

Lemma mean_centred (xs : list Qc) :
  xs <> [] -> mean (map (fun x => fsub x (mean xs)) xs) = fzero.
Proof.
  intros Hxs. unfold mean at 1. rewrite fsum_shift, length_map.
  unfold mean. cbn [fdiv fzero Qc_scalar].
  assert (Hn : (of_int (Z.of_nat (length xs)) : Qc) <> Q2Qc 0).
  { apply Qc_of_int_pos. destruct xs; [congruence | cbn; lia]. }
  field. exact Hn.
Qed.

Lemma slice_map {A B : Type} (f : A -> B) (lo hi : nat) (xs : list A) :
  slice lo hi (map f xs) = map f (slice lo hi xs).
Proof. unfold slice. now rewrite skipn_map, firstn_map. Qed.

Lemma baseline_imax_bound {F : Type} {SF : Scalar F} (bmax : option F)
    (ts : list F) (imax : nat) :
  baseline_imax bmax ts = Ok imax -> (imax <= length ts)%nat.
Proof.
  destruct bmax as [b|]; cbn [baseline_imax].
  - intros H. apply rbind_Ok in H. destruct H as (k & Hk & H).
    injection H as <-. apply np_where_last in Hk. destruct Hk as [Hk _].
    assert (Hlt : (k < length (map (fun t => fle t b) ts))%nat)
      by (apply nth_error_Some; congruence).
    rewrite length_map in Hlt. lia.
  - intros H. injection H as <-. lia.
Qed.

(** X6: on exact rationals, after the baseline correction over a window
    that is not empty, the mean of every row of the data over the window
    is zero. *)
Theorem baseline_mean_is_zero (i : meas_info) (ev asp : node Qc)
    (bmin bmax : option Qc) (d : Evoked) :
  assemble i ev asp (Some (bmin, bmax)) = Ok d ->
  exists imin imax : nat,
    baseline_imin bmin (times d) = Ok imin /\
    baseline_imax bmax (times d) = Ok imax /\
    ((imin < imax)%nat ->
     Forall (fun row => mean (slice imin imax row) = fzero) (cells (data d))).
Proof.
  intros H. pose proof (assemble_sample_count _ _ _ _ H) as [_ Ht].
  apply assemble_Ok in H.
  destruct H as (g & m & _ & Hm & Hb & _).
  pose proof (calibrate_wf _ _ Hm) as [_ Hrows].
  cbn [apply_baseline] in Hb. apply rbind_Ok in Hb.
  destruct Hb as (imin & Hmin & Hb). apply rbind_Ok in Hb.
  destruct Hb as (imax & Hmax & Hb). injection Hb as Hd.
  exists imin, imax. split; [exact Hmin |]. split; [exact Hmax |].
  intros Hlt. apply baseline_imax_bound in Hmax.
  rewrite <- Hd in Ht |- *. cbn [subtract_row_means cells ncols] in Ht |- *.
  apply Forall_forall. intros row' Hrow. apply in_map_iff in Hrow.
  destruct Hrow as (row & <- & Hin).
  rewrite slice_map. apply mean_centred.
  rewrite Forall_forall in Hrows. specialize (Hrows row Hin).
  intros E. apply (f_equal (@length Qc)) in E. unfold slice in E.
  rewrite length_firstn, length_skipn in E. cbn [length] in E. lia.
Qed.

End ZeroMean.

(** ** Files that cannot be read *)

Section UnreadableFiles.
Context {F : Type} {SF : Scalar F}.
Variables proj comp : Type.

Local Abbreviation meas_info := (@meas_info F proj comp).
Local Abbreviation Evoked := (@Evoked F proj comp).

Lemma identify_aspects_uneven (evs : list (node F)) :
  Forall (fun ev => dir_tree_find ev FIFFB_SMSH_ASPECT = []) evs ->
  forall (n : nat) (is_smsh : option (nat * nat)) (sets : list aspect_set),
    match is_smsh with
    | None =>
        forall c : nat,
          ~ Forall (fun ev => length (dir_tree_find ev FIFFB_ASPECT) = 0%nat
                              \/ length (dir_tree_find ev FIFFB_ASPECT) = c)
                   evs
    | Some (_, c) =>
        ~ Forall (fun ev => length (dir_tree_find ev FIFFB_ASPECT) = 0%nat
                            \/ length (dir_tree_find ev FIFFB_ASPECT) = c)
                 evs
    end ->
    identify_aspects evs n is_smsh sets = Raise (ValueError Shapes_not_aligned).
Proof.
  induction 1 as [|ev evs Hs _ IH]; intros n is_smsh sets Hne.
  - exfalso. destruct is_smsh as [[r c]|];
      [apply Hne | apply (Hne 0%nat)]; constructor.
  - cbn [identify_aspects naspect]. rewrite Hs. cbn [length].
    destruct (Nat.ltb_spec 0 (length (dir_tree_find ev FIFFB_ASPECT)))
      as [Hpos|Hzero].
    + destruct is_smsh as [[r c]|].
      * destruct (Nat.eqb_spec c (length (dir_tree_find ev FIFFB_ASPECT)))
          as [Hc|Hc]; [| reflexivity].
        cbn [rbind Nat.ltb Nat.leb]. apply IH. intros HF. apply Hne.
        constructor; [right; congruence | exact HF].
      * cbn [rbind Nat.ltb Nat.leb]. apply IH. intros HF.
        apply (Hne (length (dir_tree_find ev FIFFB_ASPECT))).
        constructor; [now right | exact HF].
    + cbn [rbind Nat.ltb Nat.leb]. apply IH.
      destruct is_smsh as [[r c]|].
      * intros HF. apply Hne. constructor; [left; lia | exact HF].
      * intros c HF. apply (Hne c). constructor; [left; lia | exact HF].
Qed.

Variable file_system : string -> result (node F).
Variable read_meas_info : node F -> result (meas_info * node F).

(** X7: a file in which an evoked block holds a signal-minus-shield aspect
    cannot be read: whatever the index and the baseline, [read_evoked]
    raises. *)
Theorem smsh_files_unreadable (fname : string) (setno : Z)
    (baseline : option (option F * option F)) (tree : node F)
    (i : meas_info) (meas : node F) :
  file_system fname = Ok tree ->
  read_meas_info tree = Ok (i, meas) ->
  Exists (fun ev => dir_tree_find ev FIFFB_SMSH_ASPECT <> [])
         (dir_tree_find meas FIFFB_EVOKED) ->
  exists e, read_evoked file_system read_meas_info fname setno baseline
            = Raise e.
Proof.
  intros Hfs Hr Hex. unfold read_evoked, Evoked_init.
  destruct (setno <? 0); [now eexists |].
  rewrite Hfs. cbn [rbind]. rewrite Hr. cbn [rbind]. unfold Evoked_of.
  destruct (@select_smsh _ meas setno) as [e He].
  - unfold no_smsh. intros HF. apply Exists_exists in Hex.
    destruct Hex as (ev & Hin & Hne). rewrite Forall_forall in HF.
    now apply Hne, HF.
  - rewrite He. now exists e.
Qed.

(** X8: a file without signal-minus-shield aspects in which two evoked
    blocks hold different numbers of aspects, none of them zero, cannot be
    read either: for every index that is not negative, stacking the rows
    of [is_smsh] raises the [ValueError] of mismatched shapes. *)
Theorem uneven_aspect_counts_raise (fname : string) (setno : Z)
    (baseline : option (option F * option F)) (tree : node F)
    (i : meas_info) (meas : node F) :
  file_system fname = Ok tree ->
  read_meas_info tree = Ok (i, meas) ->
  dir_tree_find meas FIFFB_PROCESSED_DATA <> [] ->
  no_smsh meas -> ~ aspects_agree meas ->
  0 <= setno ->
  read_evoked file_system read_meas_info fname setno baseline
  = Raise (ValueError Shapes_not_aligned).
Proof.
  intros Hfs Hr Hp Hs Ha Hpos. unfold read_evoked, Evoked_init.
  destruct (Z.ltb_spec setno 0) as [|_]; [lia |].
  rewrite Hfs. cbn [rbind]. rewrite Hr. cbn [rbind].
  unfold Evoked_of, select.
  destruct (dir_tree_find meas FIFFB_PROCESSED_DATA) as [|p ps];
    [congruence |].
  cbn [length Nat.eqb].
  destruct (dir_tree_find meas FIFFB_EVOKED) as [|ev evs] eqn:Eev.
  - exfalso. apply Ha. exists 0%nat. rewrite Eev. constructor.
  - cbn [length Nat.eqb]. rewrite identify_aspects_uneven; [reflexivity | |].
    + unfold no_smsh in Hs. now rewrite Eev in Hs.
    + intros c HF. apply Ha. exists c. now rewrite Eev.
Qed.

End UnreadableFiles.

(** ** The loop "Channel information" of [save] *)

Section ChannelLoop.
Context {F : Type} {SF : Scalar F}.
Variables proj comp : Type.

Local Abbreviation Evoked := (@Evoked F proj comp).
Local Abbreviation wstate := (@wstate F proj comp).

Lemma skipn_nth_error {A : Type} (l : list A) :
  forall (k : nat) (x : A),
    nth_error l k = Some x -> skipn k l = x :: skipn (S k) l.
Proof.
  induction l as [|a l IH]; intros [|k] x H; try discriminate.
  - now injection H as <-.
  - cbn [skipn]. now apply IH.
Qed.

Lemma channel_loop_from (e0 : Evoked) (n : nat) :
  forall (k : nat) (s : wstate),
    w_self s = renumbered k e0 ->
    (k <= length (chs (info e0)))%nat ->
    for_each (@write_channel F SF proj comp) (seq k n) s
    = (if Nat.leb (k + n) (length (chs (info e0)))
       then Ok tt else Raise IndexError,
       {| w_self := renumbered (Nat.min (k + n) (length (chs (info e0)))) e0;
          w_fid := w_fid s ++ channel_tags k n (skipn k (chs (info e0))) |}).
Proof.
  induction n as [|n IH]; intros k s Hs Hk.
  - cbn [seq for_each wret]. unfold channel_tags. cbn [seq combine map].
    rewrite app_nil_r, Nat.add_0_r, Nat.min_l by exact Hk.
    destruct (Nat.leb_spec k (length (chs (info e0)))); [| lia].
    rewrite <- Hs. now destruct s.
  - cbn [seq for_each]. unfold wbind.
    rewrite write_channel_run, Hs.
    assert (Hnth : nth_error (chs (info (renumbered k e0))) k
                   = nth_error (chs (info e0)) k).
    { unfold renumbered, renumber. cbn [set_info set_chs set_channels info chs].
      rewrite renumber_from_nth, Nat.ltb_irrefl.
      now destruct (nth_error (chs (info e0)) k). }
    rewrite Hnth.
    destruct (nth_error (chs (info e0)) k) as [ch|] eqn:E.
    + assert (Hlt : (k < length (chs (info e0)))%nat)
        by (apply nth_error_Some; congruence).
      unfold write_ch_info, fid_write. cbn [w_self w_fid].
      match goal with
      | |- context [for_each _ _ ?st] => set (s1 := st)
      end.
      assert (Hs1 : w_self s1 = renumbered (S k) e0).
      { unfold s1. cbn [w_self]. apply renumbered_step. now rewrite Hnth. }
      rewrite (IH (S k) s1 Hs1 Hlt). unfold s1. cbn [w_fid].
      rewrite (skipn_nth_error _ _ E). unfold channel_tags.
      cbn [combine map fst snd]. rewrite <- app_assoc. cbn [app].
      now rewrite Nat.add_succ_r.
    + apply nth_error_None in E.
      assert (Hk' : k = length (chs (info e0))) by lia.
      destruct (Nat.leb_spec (k + S n) (length (chs (info e0)))); [lia |].
      rewrite Nat.min_r by lia. rewrite skipn_all2 by lia.
      unfold channel_tags. cbn [seq combine map]. rewrite app_nil_r.
      rewrite <- Hk', <- Hs. now destruct s.
Qed.

Lemma combine_seq_nth_error {A : Type} (n : nat) :
  forall (off k : nat) (cs : list A) (c : A),
    (k < n)%nat -> nth_error cs k = Some c ->
    nth_error (combine (seq off n) cs) k = Some ((off + k)%nat, c).
Proof.
  induction n as [|n IH]; intros off k cs c Hk E; [lia |].
  destruct cs as [|c0 cs]; [destruct k; discriminate |].
  destruct k as [|k]; cbn [seq combine nth_error] in *.
  - injection E as <-. now rewrite Nat.add_0_r.
  - rewrite (IH (S off) k cs c); [| lia | exact E].
    now rewrite Nat.add_succ_r.
Qed.

(** X9: the loop "Channel information" over [n] rounds writes one channel
    record per round, round [k] the record of channel [k] with the scan
    number [k], and leaves these scan numbers in the dataset.  Where the
    dataset holds fewer than [n] channel records it raises an
    [IndexError] after it has written, and renumbered, all the records
    there are. *)
Theorem channel_loop_records (n : nat) (s : wstate) :
  for_each (@write_channel F SF proj comp) (seq 0 n) s
  = (if Nat.leb n (length (chs (info (w_self s))))
     then Ok tt else Raise IndexError,
     {| w_self :=
          renumbered (Nat.min n (length (chs (info (w_self s))))) (w_self s);
        w_fid := w_fid s ++ channel_tags 0 n (chs (info (w_self s))) |}) /\
  length (channel_tags 0 n (chs (info (w_self s))))
  = Nat.min n (length (chs (info (w_self s)))) /\
  forall (k : nat) (ch : ch_info F),
    (k < n)%nat -> nth_error (chs (info (w_self s))) k = Some ch ->
    nth_error (channel_tags 0 n (chs (info (w_self s)))) k
    = Some (T_ch_info (encoded_channel (set_scanno (Z.of_nat k) ch))).
Proof.
  split; [| split].
  - rewrite (@channel_loop_from (w_self s) n 0 s).
    + reflexivity.
    + now rewrite renumbered_0.
    + lia.
  - unfold channel_tags. now rewrite length_map, length_combine, length_seq.
  - intros k ch Hk E. unfold channel_tags. rewrite nth_error_map.
    rewrite combine_seq_nth_error with (c := ch) by assumption.
    reflexivity.
Qed.

End ChannelLoop.

(** ** The file that [save] writes, and reading it back *)

Section WrittenFile.
Context {F : Type} {SF : Scalar F}.
Variables proj comp : Type.
Variable can_open : string -> bool.
Variable linalg_inv : matrix F -> result (matrix F).
Variable fiff_open : string -> result (node F).
Variable copy_tree : list (node F) -> list (tag F) * option error.
Variable write_proj : list proj -> list (tag F) * option error.
Variable write_ctf_comp : list comp -> list (tag F) * option error.

Local Abbreviation meas_info := (@meas_info F proj comp).
Local Abbreviation Evoked := (@Evoked F proj comp).
Local Abbreviation write_evoked' :=
  (write_evoked can_open linalg_inv fiff_open copy_tree write_proj
                write_ctf_comp).
Local Abbreviation QC :=
  (quiet_collaborators copy_tree write_proj write_ctf_comp).

Lemma balanced_evoked_block (D : Evoked) (w : matrix F) :
  balanced (evoked_block_tags D w).
Proof.
  unfold evoked_block_tags. cbn [app].
  match goal with
  | |- balanced (_ :: ?c ++ ?rest) =>
      change rest with
        ([T_int FIFF_FIRST_SAMPLE (to_i4 (first D));
          T_int FIFF_LAST_SAMPLE (to_i4 (last D));
          T_block_start FIFFB_ASPECT;
          T_int FIFF_ASPECT_KIND (to_i4 (aspect_kind D));
          T_int FIFF_NAVE (to_i4 (nave D));
          T_float_matrix FIFF_EPOCH (array_f4 w);
          T_block_end FIFFB_ASPECT] ++ [T_block_end FIFFB_EVOKED])
  end.
  rewrite app_assoc.
  apply (balanced_block FIFFB_EVOKED FIFFB_EVOKED); [| constructor].
  apply balanced_app.
  - destruct (Nat.ltb 0 (String.length (comment D)));
      repeat constructor.
  - do 2 (apply balanced_tag; [reflexivity |]).
    apply (@balanced_block _ FIFFB_ASPECT FIFFB_ASPECT
             [T_int FIFF_ASPECT_KIND (to_i4 (aspect_kind D));
              T_int FIFF_NAVE (to_i4 (nave D));
              T_float_matrix FIFF_EPOCH (array_f4 w)] []);
      repeat constructor.
Qed.

(** X10: the file of a successful [save] is the three header tags, one
    measurement block and the closing tag; inside the measurement block,
    and so in the whole file, every block that starts also ends, provided
    that holds of what the collaborators of [save] write. *)
Theorem written_file_layout (name : string) (D : Evoked) :
  can_open name = true ->
  fst (write_evoked' name D) = Ok tt ->
  QC ->
  balanced (w_fid (snd (write_evoked' name D))) /\
  exists mid : list (tag F),
    w_fid (snd (write_evoked' name D))
    = header_tags ++ T_block_start FIFFB_MEAS :: mid
        ++ [T_block_end FIFFB_MEAS; T_nop] /\
    balanced mid.
Proof.
  intros Hopen Hok HQ.
  destruct (@save_run _ _ _ _ can_open linalg_inv fiff_open copy_tree
                      write_proj write_ctf_comp name D Hopen)
    as (m & ts & _ & Hf & Hdone).
  destruct (Hdone tt Hok) as (_ & _ & body & w & _ & Hq & ->).
  destruct (Hq HQ) as (Hbody & _ & _).
  set (mid := skipn 4 (prologue_tags D)
                ++ (T_block_start FIFFB_MEAS_INFO :: body
                      ++ T_block_end FIFFB_MEAS_INFO :: [])
                ++ (T_block_start FIFFB_PROCESSED_DATA :: evoked_block_tags D w
                      ++ T_block_end FIFFB_PROCESSED_DATA :: [])).
  assert (Hpro : prologue_tags D
                 = header_tags ++ T_block_start FIFFB_MEAS
                     :: skipn 4 (prologue_tags D)) by reflexivity.
  assert (Hfile : w_fid (snd (write_evoked' name D))
                  = header_tags ++ T_block_start FIFFB_MEAS :: mid
                      ++ [T_block_end FIFFB_MEAS; T_nop]).
  { rewrite Hf. rewrite Hpro at 1. unfold epilogue_tags, mid.
    rewrite <- ?app_assoc. cbn [app]. rewrite <- ?app_assoc. cbn [app].
    rewrite <- ?app_assoc. reflexivity. }
  assert (Hmid : balanced mid).
  { unfold mid. repeat apply balanced_app.
    - unfold prologue_tags, header_tags.
      destruct (meas_id (info D)); repeat constructor.
    - apply balanced_block; [exact Hbody | constructor].
    - apply balanced_block; [apply balanced_evoked_block | constructor]. }
  split; [| exists mid; split; [exact Hfile | exact Hmid]].
  rewrite Hfile. unfold header_tags. cbn [app].
  do 3 (apply balanced_tag; [reflexivity |]).
  apply (@balanced_block _ FIFFB_MEAS FIFFB_MEAS mid [T_nop]);
    [exact Hmid | repeat constructor].
Qed.

Lemma select_written_all (D : Evoked) (w : matrix F) (ids dl : list (tag F))
    (kl : list (node F)) (setno : Z) :
  Forall silent kl ->
  let meas := Node FIFFB_MEAS ids
                   [Node FIFFB_MEAS_INFO dl kl;
                    Node FIFFB_PROCESSED_DATA [] [written_evoked D w]] in
  selectable_units meas = [(written_evoked D w, written_aspect D w)] /\
  select meas setno
  = if (setno >=? 1) || (setno <? 0)
    then Raise (ValueError Selector_out_of_range)
    else Ok (written_evoked D w, written_aspect D w).
Proof.
  intros Hkl meas.
  assert (Hinfo : forall b,
             b = FIFFB_PROCESSED_DATA \/ b = FIFFB_EVOKED ->
             dir_tree_find (Node FIFFB_MEAS_INFO dl kl) b = []).
  { intros b Hb. rewrite <- (app_nil_r kl), find_silent; auto. }
  split.
  - unfold selectable_units, meas. rewrite !dir_tree_find_Node.
    cbn [flat_map block]. rewrite !Hinfo by auto. reflexivity.
  - unfold select, meas. rewrite !dir_tree_find_Node. cbn [flat_map block].
    rewrite !Hinfo by auto.
    unfold written_evoked, written_aspect.
    cbn -[to_i4 Z.of_nat Z.geb Z.ltb Z.eqb].
    change (Z.of_nat 1) with 1.
    destruct (Z.geb_spec setno 1) as [|Hlt]; [reflexivity |].
    destruct (Z.ltb_spec setno 0) as [|Hge]; [reflexivity |].
    cbn [orb]. destruct (Z.eqb_spec 0 setno) as [|Hne]; [reflexivity | lia].
Qed.

(** Reading a complete file written by [save]: the file holds one
    dataset, assembled from the evoked block that [save] wrote and from
    the measurement info of the file. *)
Lemma read_written (name : string) (D : Evoked) :
  can_open name = true ->
  fst (write_evoked' name D) = Ok tt ->
  QC ->
  forall (file_system : string -> result (node F))
         (read_meas_info : node F -> result (meas_info * node F))
         (fname : string) (i0 : meas_info) (meas : node F),
    let tree := make_dir_tree (w_fid (snd (write_evoked' name D))) in
    file_system fname = Ok tree ->
    read_meas_info tree = Ok (i0, meas) ->
    hd_error (dir_tree_find tree FIFFB_MEAS) = Some meas ->
    exists w : matrix F,
      decalibrated D = Ok w /\
      selectable_units meas = [(written_evoked D w, written_aspect D w)] /\
      forall (setno : Z) (baseline : option (option F * option F)),
        read_evoked file_system read_meas_info fname setno baseline
        = if setno <? 0
          then Raise (ValueError Selector_must_be_positive)
          else if setno >=? 1
               then Raise (ValueError Selector_out_of_range)
               else assemble (set_filename (Some fname) i0)
                             (written_evoked D w) (written_aspect D w)
                             baseline.
Proof.
  intros Hopen Hok HQ file_system read_meas_info fname i0 meas tree
         Hfs Hr Hmeas.
  destruct (@save_run _ _ _ _ can_open linalg_inv fiff_open copy_tree
                      write_proj write_ctf_comp name D Hopen)
    as (m & ts & _ & Hf & Hdone).
  destruct (Hdone tt Hok) as (_ & _ & body & w & Hw & Hq & ->).
  destruct (written_tree D w (Hq HQ)) as (dl & kl & Hkl & Htree).
  remember (skipn 4 (prologue_tags D)) as ids eqn:Eids.
  unfold tree in *. clear tree. rewrite Hf, Htree in *.
  rewrite dir_tree_find_Node in Hmeas. cbn [flat_map block] in Hmeas.
  change (block_eqb FIFFB_MEAS FIFFB_MEAS) with true in Hmeas.
  cbn [app hd_error] in Hmeas. injection Hmeas as <-.
  destruct (@select_written_all D w ids dl kl 0 Hkl)
    as [Hunits _].
  exists w. split; [exact Hw |]. split; [exact Hunits |].
  intros setno baseline. unfold read_evoked, Evoked_init.
  destruct (setno <? 0) eqn:Eneg; [reflexivity |].
  rewrite Hfs. cbn [rbind]. rewrite Hr. cbn [rbind]. unfold Evoked_of.
  destruct (@select_written_all D w ids dl kl setno Hkl) as [_ Hsel].
  rewrite Hsel, Eneg, orb_false_r.
  now destruct (setno >=? 1).
Qed.

(** The dataset assembled from the blocks that [save] wrote. *)
Lemma assemble_written (D : Evoked) (w : matrix F) (i : meas_info)
    (baseline : option (option F * option F)) :
  assemble i (written_evoked D w) (written_aspect D w) baseline
  = rbind (raw_data [array_f4 w] (nchan i)
                    (to_i4 (last D) - to_i4 (first D) + 1))
      (fun raw =>
         rbind (calibrate i raw)
           (fun m =>
              let ts := time_axis (to_i4 (first D)) (to_i4 (last D))
                                  (sfreq i) in
              rbind (apply_baseline baseline ts m)
                (fun m' =>
                   Ok {| info := i; nave := to_i4 (nave D);
                         aspect_kind := to_i4 (aspect_kind D);
                         first := to_i4 (first D); last := to_i4 (last D);
                         comment := comment_read_back (comment D);
                         times := ts; data := m' |}))).
Proof.
  unfold assemble, gather, written_evoked, written_aspect, scan_evoked,
    scan_aspect.
  destruct (comment D) as [|c cs];
    cbn -[to_i4 raw_data calibrate apply_baseline time_axis];
    destruct (raw_data _ _ _) as [raw|e]; reflexivity.
Qed.

(** X11: a file written by [save] holds exactly one dataset: read back,
    it has one selectable unit, and every index other than 0 is refused
    with an error of the selection range. *)
Theorem written_file_holds_one_dataset (name : string) (D : Evoked) :
  can_open name = true ->
  fst (write_evoked' name D) = Ok tt ->
  QC ->
  forall (file_system : string -> result (node F))
         (read_meas_info : node F -> result (meas_info * node F))
         (fname : string) (i0 : meas_info) (meas : node F),
    let tree := make_dir_tree (w_fid (snd (write_evoked' name D))) in
    file_system fname = Ok tree ->
    read_meas_info tree = Ok (i0, meas) ->
    hd_error (dir_tree_find tree FIFFB_MEAS) = Some meas ->
    total_count meas = 1%nat /\
    forall (setno : Z) (baseline : option (option F * option F)),
      setno <> 0 ->
      exists e : error,
        read_evoked file_system read_meas_info fname setno baseline = Raise e /\
        classify e = SelectionRangeError.
Proof.
  intros Hopen Hok HQ file_system read_meas_info fname i0 meas tree
         Hfs Hr Hmeas.
  destruct (@read_written name D Hopen Hok HQ file_system read_meas_info
                          fname i0 meas Hfs Hr Hmeas)
    as (w & _ & Hunits & Hread).
  split.
  - unfold total_count. now rewrite Hunits.
  - intros setno baseline Hne. rewrite Hread.
    destruct (Z.ltb_spec setno 0); [now eexists |].
    destruct (Z.geb_spec setno 1); [now eexists | lia].
Qed.

(** X12: in a dataset read back from a file written by [save], the
    average count, the aspect kind and the first and the last sample are
    those of the dataset written, as 32-bit integers, hence the same
    where these fit 32 bits; the info is the measurement info of the file,
    untouched by the evoked block; the time axis runs from the first to
    the last sample at the sampling rate of that info. *)
Theorem fields_read_back (name : string) (D : Evoked) :
  can_open name = true ->
  fst (write_evoked' name D) = Ok tt ->
  QC ->
  forall (file_system : string -> result (node F))
         (read_meas_info : node F -> result (meas_info * node F))
         (fname : string) (i0 : meas_info) (meas : node F)
         (setno : Z) (baseline : option (option F * option F)) (D' : Evoked),
    let tree := make_dir_tree (w_fid (snd (write_evoked' name D))) in
    file_system fname = Ok tree ->
    read_meas_info tree = Ok (i0, meas) ->
    hd_error (dir_tree_find tree FIFFB_MEAS) = Some meas ->
    read_evoked file_system read_meas_info fname setno baseline = Ok D' ->
    setno = 0 /\
    info D' = set_filename (Some fname) i0 /\
    nave D' = to_i4 (nave D) /\ aspect_kind D' = to_i4 (aspect_kind D) /\
    first D' = to_i4 (first D) /\ last D' = to_i4 (last D) /\
    times D' = time_axis (to_i4 (first D)) (to_i4 (last D)) (sfreq i0) /\
    (- 2 ^ 31 <= nave D < 2 ^ 31 -> nave D' = nave D) /\
    (- 2 ^ 31 <= aspect_kind D < 2 ^ 31 -> aspect_kind D' = aspect_kind D) /\
    (- 2 ^ 31 <= first D < 2 ^ 31 -> first D' = first D) /\
    (- 2 ^ 31 <= last D < 2 ^ 31 -> last D' = last D).
Proof.
  intros Hopen Hok HQ file_system read_meas_info fname i0 meas setno
         baseline D' tree Hfs Hr Hmeas Hread.
  destruct (@read_written name D Hopen Hok HQ file_system read_meas_info
                          fname i0 meas Hfs Hr Hmeas)
    as (w & _ & _ & Hrw).
  rewrite Hrw in Hread.
  destruct (Z.ltb_spec setno 0); [discriminate Hread |].
  destruct (Z.geb_spec setno 1); [discriminate Hread |].
  rewrite assemble_written in Hread.
  apply rbind_Ok in Hread. destruct Hread as (raw & _ & Hread).
  apply rbind_Ok in Hread. destruct Hread as (m & _ & Hread).
  cbv zeta in Hread.
  apply rbind_Ok in Hread. destruct Hread as (m' & _ & Hread).
  injection Hread as <-. cbn [info nave aspect_kind first last times].
  split; [lia |].
  repeat split; try reflexivity; intros Hz; now apply to_i4_id.
Qed.

End WrittenFile.

(** ** Calibration, in every arithmetic that keeps the laws of the zeros *)

Section ZeroLaws.
Context {F : Type} {SF : Scalar F}.
Hypothesis ZA : ZeroArith SF.

Lemma same_value_refl (x : F) : same_value x x.
Proof. now left. Qed.

Lemma same_value_trans (x y z : F) :
  same_value x y -> same_value y z -> same_value x z.
Proof.
  intros [Hxy|[Hx Hy]] [Hyz|[Hy' Hz]]; subst;
    [now left | right; now split ..].
Qed.

Lemma Forall2_trans {A : Type} (R : A -> A -> Prop) :
  (forall x y z, R x y -> R y z -> R x z) ->
  forall a b c : list A, Forall2 R a b -> Forall2 R b c -> Forall2 R a c.
Proof.
  intros HR a b c Hab. revert c.
  induction Hab as [|x y a b Hxy _ IH]; intros c Hbc.
  - inversion Hbc. constructor.
  - inversion Hbc as [|? z ? c' Hyz Hbc']; subst.
    constructor; [eapply HR; eassumption | now apply IH].
Qed.

Lemma same_cells_trans (a b c : list (list F)) :
  same_cells a b -> same_cells b c -> same_cells a c.
Proof.
  apply Forall2_trans. intros x y z. apply Forall2_trans.
  exact same_value_trans.
Qed.

Lemma Forall2_map_in {A B : Type} (R : B -> B -> Prop) (f g : A -> B)
    (l : list A) :
  (forall x, In x l -> R (f x) (g x)) -> Forall2 R (map f l) (map g l).
Proof.
  induction l as [|a l IH]; intros H; cbn [map]; constructor.
  - apply H. now left.
  - apply IH. intros x Hx. apply H. now right.
Qed.

(** Adding zeros: a zero stays a zero, another value stays what it is. *)
Lemma fold_zeros (ts : list F) :
  Forall (fun t => is_zero t = true) ts ->
  forall acc : F,
    (is_zero acc = true -> is_zero (fold_left fadd ts acc) = true) /\
    (is_zero acc = false -> fold_left fadd ts acc = acc).
Proof.
  induction 1 as [|t ts Ht _ IH]; intros acc; cbn [fold_left].
  - split; auto.
  - split; intros Hacc.
    + apply IH. now apply (add_zeros ZA).
    + rewrite (add_zero_r ZA) by assumption. now apply IH.
Qed.

(** Beside the diagonal every product is a zero. *)
Lemma off_diag_terms (c : F) (i : nat) (col : list F) :
  Forall (fun x => is_finite x = true) col ->
  forall off : nat,
    (i < off)%nat ->
    Forall (fun t => is_zero t = true)
           (map (fun p => fmul (fst p) (snd p))
                (combine (map (fun j => if Nat.eqb i j then c else fzero)
                              (seq off (length col))) col)).
Proof.
  induction 1 as [|x col Hx _ IH]; intros off Hoff;
    cbn [length seq map combine fst snd]; constructor.
  - destruct (Nat.eqb_spec i off); [lia | exact Hx].
  - apply IH. lia.
Qed.

Lemma fold_diag_row_same (c : F) (i : nat) (col : list F) :
  Forall (fun x => is_finite x = true) col ->
  forall (off : nat) (acc : F),
    is_zero acc = true ->
    if Nat.leb off i && Nat.ltb i (off + length col)
    then same_value
           (fold_left fadd
              (map (fun p => fmul (fst p) (snd p))
                   (combine (map (fun j => if Nat.eqb i j then c else fzero)
                                 (seq off (length col))) col))
              acc)
           (fmul c (nth (i - off) col fzero))
    else is_zero
           (fold_left fadd
              (map (fun p => fmul (fst p) (snd p))
                   (combine (map (fun j => if Nat.eqb i j then c else fzero)
                                 (seq off (length col))) col))
              acc) = true.
Proof.
  induction 1 as [|x col Hx Hcol IH]; intros off acc Hacc.
  - cbn [length seq map combine fold_left].
    destruct (Nat.leb_spec off i), (Nat.ltb_spec i (off + 0));
      cbn [andb]; try exact Hacc.
    lia.
  - cbn [length seq map combine fold_left fst snd].
    destruct (Nat.eqb_spec i off) as [->|Hne].
    + rewrite Nat.leb_refl, Nat.sub_diag. cbn [nth].
      destruct (Nat.ltb_spec off (off + S (length col))); [| lia].
      cbn [andb].
      destruct (fold_zeros (@off_diag_terms c off col Hcol (S off)
                                            (Nat.lt_succ_diag_r off))
                           (fadd acc (fmul c x))) as [Hz Hnz].
      destruct (is_zero (fmul c x)) eqn:Ep.
      * right. split; [| exact Ep].
        apply Hz. now apply (add_zeros ZA).
      * left. rewrite (add_zero_l ZA) in * by assumption. now apply Hnz.
    + assert (Hacc' : is_zero (fadd acc (fmul fzero x)) = true)
        by (apply (add_zeros ZA); assumption).
      specialize (IH (S off) _ Hacc').
      destruct (Nat.leb_spec (S off) i), (Nat.leb_spec off i),
               (Nat.ltb_spec i (S off + length col)),
               (Nat.ltb_spec i (off + S (length col)));
        cbn [andb] in *; try lia; try exact IH.
      replace (i - off)%nat with (S (i - S off)) by lia. exact IH.
Qed.

Lemma dot_row_diag_row_same (v : list F) (rows : list (list F)) (i j : nat) :
  (i < length v)%nat -> length rows = length v ->
  Forall (fun x => is_finite x = true) (column j rows) ->
  same_value
    (dot_row (map (fun k => if Nat.eqb i k then nth i v fzero else fzero)
                  (seq 0 (length v)))
             (column j rows))
    (fmul (nth i v fzero) (nth j (nth i rows []) fzero)).
Proof.
  intros Hi Hlen Hfin. unfold dot_row, fsum.
  assert (Hcol : length (column j rows) = length v)
    by (unfold column; now rewrite length_map).
  pose proof (@fold_diag_row_same (nth i v fzero) i _ Hfin 0%nat fzero
                                  (zero_is_zero ZA)) as H.
  rewrite Hcol in H.
  destruct (Nat.ltb_spec i (0 + length v)) as [_|Hge]; [| simpl in Hge; lia].
  cbn [Nat.leb andb] in H. rewrite Nat.sub_0_r in H.
  replace (nth j (nth i rows []) fzero) with (nth i (column j rows) fzero);
    [exact H |].
  unfold column.
  rewrite (nth_indep _ fzero ((fun r : list F => nth j r fzero) []))
    by (rewrite length_map; lia).
  exact (map_nth (fun r : list F => nth j r fzero) rows [] i).
Qed.

(** Multiplying a matrix of finite entries by [diag(v)] from the left
    scales row [k] by [v[k]], the sign of a zero apart. *)
Lemma dot_diag_same (v : list F) (b m : matrix F) :
  wf_matrix b -> all_finite b ->
  dot (diag v) b = Ok m ->
  length v = nrows b /\ nrows m = nrows b /\ ncols m = ncols b /\
  same_cells (cells m) (scale_rows v (cells b)).
Proof.
  intros [Hlen Hrows] Hfin. unfold dot, diag. cbn [nrows ncols cells].
  destruct (Nat.eqb_spec (length v) (nrows b)) as [Hv|]; [| discriminate].
  intros H. injection H as <-. cbn [nrows ncols cells].
  split; [exact Hv |]. split; [exact Hv |]. split; [reflexivity |].
  unfold same_cells. rewrite map_map. unfold scale_rows.
  rewrite <- (map_seq_combine (fun c r => map (fmul c) r) fzero [])
    by congruence.
  apply Forall2_map_in. intros i Hi. apply in_seq in Hi.
  assert (Hr : length (nth i (cells b) []) = ncols b).
  { rewrite Forall_forall in Hrows. apply Hrows. apply nth_In. lia. }
  rewrite <- (map_seq_nth (fmul (nth i v fzero)) (nth i (cells b) []) fzero).
  rewrite Hr. apply Forall2_map_in. intros j Hj. apply in_seq in Hj.
  apply dot_row_diag_row_same; [lia | congruence |].
  unfold column. apply Forall_forall. intros x Hx. apply in_map_iff in Hx.
  destruct Hx as (r & <- & Hrin).
  unfold all_finite in Hfin. rewrite Forall_forall in Hfin.
  specialize (Hfin r Hrin). rewrite Forall_forall in Hfin. apply Hfin.
  apply nth_In. rewrite Forall_forall in Hrows. rewrite (Hrows r Hrin). lia.
Qed.

Lemma scale_row_inverse_same (c : F) (row : list F) :
  Forall (fun x => fmul c (fmul (fdiv fone c) x) = x) row ->
  forall wrow : list F,
    Forall2 same_value wrow (map (fmul (fdiv fone c)) row) ->
    Forall2 same_value (map (fmul c) wrow) row.
Proof.
  induction 1 as [|x row Hx _ IH]; intros wrow Hw; cbn [map] in Hw;
    inversion Hw as [|wx ? wrow' ? Hwx Hw']; subst; cbn [map];
    constructor.
  - destruct Hwx as [->|[Hz1 Hz2]].
    + rewrite Hx. apply same_value_refl.
    + rewrite <- Hx. now apply (mul_zeros ZA).
  - now apply IH.
Qed.

(** Where scaling by [1 / c] and then by [c] gives the entries back,
    scaling the rows scaled by [1 / c] gives the rows back. *)
Lemma scale_rows_inverse_same (cs : list F) (rows : list (list F)) :
  scaling_inverts cs rows ->
  forall w : list (list F),
    same_cells w (scale_rows (map (fun c => fdiv fone c) cs) rows) ->
    same_cells (scale_rows cs w) rows.
Proof.
  unfold scaling_inverts, same_cells, scale_rows.
  induction 1 as [|c row cs rows Hc _ IH]; intros w Hw;
    cbn [map combine fst snd] in Hw;
    inversion Hw as [|wrow ? w' ? Hrow Hw']; subst;
    cbn [map combine fst snd]; constructor.
  - now apply scale_row_inverse_same.
  - now apply IH.
Qed.

Lemma scale_rows_wf (v : list F) (b : matrix F) :
  wf_matrix b -> length v = nrows b ->
  wf_matrix (mkMat (nrows b) (ncols b) (scale_rows v (cells b))).
Proof.
  intros [Hlen Hrows] Hv. unfold wf_matrix, scale_rows.
  cbn [nrows ncols cells]. split.
  - rewrite length_map, length_combine. lia.
  - apply Forall_forall. intros r Hr. apply in_map_iff in Hr.
    destruct Hr as ([c r0] & <- & Hin). apply in_combine_r in Hin.
    rewrite length_map. rewrite Forall_forall in Hrows. now apply Hrows.
Qed.


End ZeroLaws.

(** ** The arithmetics that keep the laws of the zeros *)

Section RationalLaws.

Lemma Qc_is_zero (a : Qc) : is_zero a = true <-> a = Q2Qc 0.
Proof.
  unfold is_zero. cbn [fle fzero Qc_scalar]. unfold Qc_le_bool.
  split.
  - intros H. apply andb_true_iff in H. destruct H as [H1 H2].
    apply Qcle_antisym.
    + unfold Qcle. apply Qle_alt. unfold Qccompare in H1.
      destruct (a ?= Q2Qc 0)%Q; [discriminate | discriminate |].
      discriminate H1.
    + unfold Qcle. apply Qle_alt. unfold Qccompare in H2.
      destruct (Q2Qc 0 ?= a)%Q; [discriminate | discriminate |].
      discriminate H2.
  - intros ->. reflexivity.
Qed.

(** The rationals keep the laws of the zeros. *)
Lemma Qc_zero_arith : ZeroArith Qc_scalar.
Proof.
  split.
  - reflexivity.
  - intros a b Ha Hb. apply Qc_is_zero in Ha, Hb. subst. reflexivity.
  - intros a p Ha _. apply Qc_is_zero in Ha. subst.
    cbn [fadd Qc_scalar]. ring.
  - intros a p Ha _. apply Qc_is_zero in Ha. subst.
    cbn [fadd Qc_scalar]. ring.
  - intros c a b Ha Hb. apply Qc_is_zero in Ha, Hb. subst. now left.
Qed.

End RationalLaws.

Section Binary64Laws.
Import Binary64.

Lemma b64_is_zero (x : float) :
  is_zero x = match x with
              | SpecFloat.S754_zero _ => true
              | _ => false
              end.
Proof. destruct x as [s|s| |s m e]; try destruct s; reflexivity. Qed.

(** Binary64 keeps the laws of the zeros. *)
Lemma b64_zero_arith : ZeroArith b64_scalar.
Proof.
  split.
  - reflexivity.
  - intros a b Ha Hb. rewrite b64_is_zero in *.
    destruct a as [sa|sa| |sa ma ea]; try discriminate Ha.
    destruct b as [sb|sb| |sb mb eb]; try discriminate Hb.
    destruct sa, sb; reflexivity.
  - intros a p Ha Hp. rewrite b64_is_zero in *.
    destruct a as [sa|sa| |sa ma ea]; try discriminate Ha.
    destruct p as [sp|sp| |sp mp ep]; try discriminate Hp; reflexivity.
  - intros a p Ha Hp. rewrite b64_is_zero in *.
    destruct a as [sa|sa| |sa ma ea]; try discriminate Ha.
    destruct p as [sp|sp| |sp mp ep]; try discriminate Hp; reflexivity.
  - intros c a b Ha Hb. rewrite b64_is_zero in *.
    destruct a as [sa|sa| |sa ma ea]; try discriminate Ha.
    destruct b as [sb|sb| |sb mb eb]; try discriminate Hb.
    destruct c as [sc|sc| |sc mc ec]; cbn [fmul b64_scalar SpecFloat.SFmul];
      try (now left); right; rewrite !b64_is_zero; split; reflexivity.
Qed.

(** Binary64 is not exact: scaling 1.0 by 1/49 and then by 49 does not
    give 1.0 back. *)
Lemma b64_scaling_rounds :
  fmul (of_Z 49) (fmul (fdiv fone (of_Z 49)) (of_Z 1)) <> of_Z 1.
Proof. vm_compute. discriminate. Qed.

(** In binary64 an infinite value of one channel spoils the rows of the
    other channels: [0.0 * inf] is nan. *)
Lemma b64_infinity_spoils_rows :
  calibrate info0 epoch_inf
  = Ok (mkMat 2 1 [[infinity]; [SpecFloat.S754_nan]]).
Proof. vm_compute. reflexivity. Qed.

End Binary64Laws.

(** ** The calibration and the scaling that [save] applies *)

Section CalibrationClaim.
Context {F : Type} {SF : Scalar F}.
Variables proj comp : Type.
Variable can_open : string -> bool.
Variable linalg_inv : matrix F -> result (matrix F).
Variable fiff_open : string -> result (node F).
Variable copy_tree : list (node F) -> list (tag F) * option error.
Variable write_proj : list proj -> list (tag F) * option error.
Variable write_ctf_comp : list comp -> list (tag F) * option error.

Local Abbreviation meas_info := (@meas_info F proj comp).
Local Abbreviation Evoked := (@Evoked F proj comp).
Local Abbreviation write_evoked' :=
  (write_evoked can_open linalg_inv fiff_open copy_tree write_proj
                write_ctf_comp).




End CalibrationClaim.

(** ** The round trip *)

Section DataRoundTrip.
Context {F : Type} {SF : Scalar F}.
Variables proj comp : Type.
Variable can_open : string -> bool.
Variable linalg_inv : matrix F -> result (matrix F).
Variable fiff_open : string -> result (node F).
Variable copy_tree : list (node F) -> list (tag F) * option error.
Variable write_proj : list proj -> list (tag F) * option error.
Variable write_ctf_comp : list comp -> list (tag F) * option error.

Local Abbreviation meas_info := (@meas_info F proj comp).
Local Abbreviation Evoked := (@Evoked F proj comp).
Local Abbreviation write_evoked' :=
  (write_evoked can_open linalg_inv fiff_open copy_tree write_proj
                write_ctf_comp).
Local Abbreviation QC :=
  (quiet_collaborators copy_tree write_proj write_ctf_comp).

Lemma transpose_1x1 (m : matrix F) :
  wf_matrix m -> nrows m = 1%nat -> ncols m = 1%nat -> transpose m = m.
Proof.
  destruct m as [r c cs]. unfold wf_matrix, transpose.
  cbn [nrows ncols cells]. intros [Hlen Hrows] -> ->.
  destruct cs as [|row [|row' cs]]; try discriminate Hlen.
  inversion Hrows as [|? ? Hrow _]; subst.
  destruct row as [|x [|y row]]; try discriminate Hrow.
  reflexivity.
Qed.

(** Calibrating the matrix that [save] encodes gives the data back,
    the sign of a zero apart, where the scalings are inverse to one
    another on the data. *)
Lemma calibrate_decalibrated (ZA : ZeroArith SF) (D : Evoked)
    (w : matrix F) (cals : list F) :
  wf_matrix (data D) -> all_finite (data D) ->
  decalibrated D = Ok w -> all_finite w ->
  cals_of (seq 0 (Z.to_nat (nchan (info D)))) (chs (info D)) = Ok cals ->
  scaling_inverts cals (cells (data D)) ->
  wf_matrix w /\ nrows w = length cals /\ ncols w = ncols (data D) /\
  exists m,
    dot (diag cals) w = Ok m /\
    nrows m = nrows (data D) /\ ncols m = ncols (data D) /\
    same_cells (cells m) (cells (data D)).
Proof.
  intros Hwf Hfin Hw Hfw Hc Hinv. apply decalibrated_Ok in Hw.
  destruct Hw as (cals' & Hc' & _ & Hdot).
  rewrite Hc in Hc'. injection Hc' as <-.
  destruct (@dot_diag_same _ _ ZA _ _ _ Hwf Hfin Hdot)
    as (Hlen & Hnr & Hnc & Hcells).
  rewrite length_map in Hlen.
  assert (Hwfw : wf_matrix w).
  { eapply dot_wf; [| exact Hdot]. unfold diag. cbn [cells nrows].
    now rewrite length_map, length_seq. }
  split; [exact Hwfw |]. split; [congruence |]. split; [exact Hnc |].
  destruct (dot (diag cals) w) as [m|e] eqn:Em.
  - destruct (@dot_diag_same _ _ ZA _ _ _ Hwfw Hfw Em)
      as (_ & Hnr' & Hnc' & Hcells').
    exists m. split; [reflexivity |].
    split; [congruence |]. split; [congruence |].
    eapply same_cells_trans; [exact Hcells' |].
    now apply (scale_rows_inverse_same ZA).
  - unfold dot, diag in Em. cbn [ncols nrows] in Em.
    rewrite Hnr, Hlen, Nat.eqb_refl in Em. discriminate.
Qed.

(** X13: a dataset written by [save] and read back has the data it had,
    the sign of a zero apart, in every arithmetic that keeps the laws of
    the zeros, binary64 among them, provided that the data and the matrix
    written are finite, that the conversion to single precision leaves the
    matrix written as it is, and that scaling by [1 / cal] and then by
    [cal] gives back the entries of the data.  The integer fields are
    those written as 32-bit integers, the comment is the one written or
    "No comment", and the time axis is computed from the first and the
    last sample.  The dataset written has a well-formed data matrix with
    one column per sample; the measurement info read from the file gives
    the channels the calibrations they had. *)
Theorem round_trip (ZA : ZeroArith SF) (name : string) (D : Evoked)
    (w : matrix F) (cals : list F) :
  can_open name = true ->
  fst (write_evoked' name D) = Ok tt ->
  QC ->
  decalibrated D = Ok w ->
  cals_of (seq 0 (Z.to_nat (nchan (info D)))) (chs (info D)) = Ok cals ->
  wf_matrix (data D) ->
  all_finite (data D) ->
  all_finite w ->
  array_f4 w = w ->
  scaling_inverts cals (cells (data D)) ->
  Z.of_nat (ncols (data D)) = to_i4 (last D) - to_i4 (first D) + 1 ->
  forall (file_system : string -> result (node F))
         (read_meas_info : node F -> result (meas_info * node F))
         (fname : string) (i0 : meas_info) (meas : node F),
    let tree := make_dir_tree (w_fid (snd (write_evoked' name D))) in
    file_system fname = Ok tree ->
    read_meas_info tree = Ok (i0, meas) ->
    hd_error (dir_tree_find tree FIFFB_MEAS) = Some meas ->
    cals_of (seq 0 (Z.to_nat (nchan i0))) (chs i0) = Ok cals ->
    exists d : Evoked,
      read_evoked file_system read_meas_info fname 0 None = Ok d /\
      info d = set_filename (Some fname) i0 /\
      nave d = to_i4 (nave D) /\
      aspect_kind d = to_i4 (aspect_kind D) /\
      first d = to_i4 (first D) /\
      last d = to_i4 (last D) /\
      comment d = comment_read_back (comment D) /\
      times d = time_axis (to_i4 (first D)) (to_i4 (last D)) (sfreq i0) /\
      nrows (data d) = nrows (data D) /\
      ncols (data d) = ncols (data D) /\
      same_cells (cells (data d)) (cells (data D)).
Proof.
  intros Hopen Hok HQ Hw Hc Hwf Hfin Hfw Hf4 Hinv Hn file_system
         read_meas_info fname i0 meas tree Hfs Hr Hmeas Hcal.
  destruct (@read_written _ _ _ _ can_open linalg_inv fiff_open copy_tree
                          write_proj write_ctf_comp name D Hopen Hok HQ
                          file_system read_meas_info fname i0 meas Hfs Hr
                          Hmeas)
    as (w' & Hw' & _ & Hread).
  rewrite Hw in Hw'. injection Hw' as <-.
  rewrite Hread. cbn [Z.ltb Z.geb Z.compare]. rewrite assemble_written.
  destruct (@calibrate_decalibrated ZA D w cals Hwf Hfin Hw Hfw Hc Hinv)
    as (Hwfw & Hnr & Hnc & m & Hdot & Hmr & Hmc & Hcells).
  rewrite Hf4.
  assert (Hlen : length cals = Z.to_nat (nchan i0)).
  { apply cals_of_length in Hcal. now rewrite length_seq in Hcal. }
  assert (Hraw : raw_data [w] (nchan (set_filename (Some fname) i0))
                          (to_i4 (last D) - to_i4 (first D) + 1)
                 = Ok w).
  { unfold raw_data. cbn [length nchan set_filename].
    change (Z.of_nat 1 =? 1) with true. cbn [negb andb rbind].
    assert (Hpick : (if Nat.eqb (ncols w) 1 && (nchan i0 =? 1)
                     then Ok (transpose w) else Ok w) = Ok w).
    { destruct (Nat.eqb_spec (ncols w) 1) as [Hc1|]; [| reflexivity].
      destruct (Z.eqb_spec (nchan i0) 1) as [Hn1|]; [| reflexivity].
      cbn [andb].
      rewrite transpose_1x1; [reflexivity | exact Hwfw | | exact Hc1].
      rewrite Hnr, Hlen, Hn1. reflexivity. }
    rewrite Hpick. cbn [rbind].
    destruct (Z.eqb_spec (Z.of_nat (ncols w))
                         (to_i4 (last D) - to_i4 (first D) + 1))
      as [|Hne]; [reflexivity |].
    exfalso. apply Hne. now rewrite Hnc. }
  rewrite Hraw. cbn [rbind]. unfold calibrate.
  cbn [nchan chs set_filename]. rewrite Hcal. cbn [rbind].
  rewrite Hdot. cbn [rbind apply_baseline].
  eexists. split; [reflexivity |].
  cbn [info nave aspect_kind first last comment times data].
  repeat split; assumption.
Qed.

End DataRoundTrip.

(** ** The sizes that [write.py] announces *)

Section ByteFacts.
Context {F : Type} {SF : Scalar F}.

Local Abbreviation field := (@Bytes.field F).
Local Abbreviation size_field_ok := (@Bytes.size_field_ok F).

Lemma byte_count_app (a b : list field) :
  Bytes.byte_count (a ++ b) = (Bytes.byte_count a + Bytes.byte_count b)%nat.
Proof.
  unfold Bytes.byte_count.
  induction a as [|f a IH]; [reflexivity |].
  cbn [app fold_right]. rewrite IH. lia.
Qed.

Lemma byte_count_cons (f : field) (fs : list field) :
  Bytes.byte_count (f :: fs) = (Bytes.field_size f + Bytes.byte_count fs)%nat.
Proof. reflexivity. Qed.

Lemma byte_count_map {A : Type} (dtype : A -> field) (width : nat)
    (xs : list A) :
  (forall x, Bytes.field_size (dtype x) = width) ->
  Bytes.byte_count (map dtype xs) = (width * length xs)%nat.
Proof.
  intros Hw. unfold Bytes.byte_count.
  induction xs as [|x xs IH]; cbn [map length fold_right]; [lia |].
  rewrite IH, Hw. lia.
Qed.

Lemma byte_count_floats (rows : list (list F)) :
  Bytes.byte_count (Bytes.floats rows) = (4 * length (concat rows))%nat.
Proof. unfold Bytes.floats. now apply byte_count_map. Qed.

Lemma length_list_ascii (s : string) :
  length (list_ascii_of_string s) = String.length s.
Proof. induction s as [|c s IH]; cbn; congruence. Qed.

Lemma to_i4_small (z : Z) : 0 <= z < 2 ^ 31 -> to_i4 z = z.
Proof. intros Hz. unfold to_i4. rewrite Z.mod_small; lia. Qed.

(** The size that [_write] announces for elements of [width] bytes. *)
Lemma _write_size {A : Type} (data : Bytes.py_data A) (kind ty : Z)
    (width : nat) (dtype : A -> field) :
  (forall x, Bytes.field_size (dtype x) = width) ->
  size_field_ok (Bytes._write data kind (Z.of_nat width) ty dtype)
  = (to_i4 (match data with
            | Bytes.Py_scalar _ | Bytes.Py_list _ => Z.of_nat width
            | Bytes.Py_ndarray xs | Bytes.Py_str xs =>
                Z.of_nat width * Z.of_nat (length xs)
            end)
     =? Z.of_nat (width * length (Bytes.elements data))).
Proof.
  intros Hw. unfold Bytes._write, Bytes.size_field_ok. cbn [app].
  rewrite (byte_count_map _ _ Hw). now destruct data.
Qed.

(** X14: the tags written through [_write] announce in their header the
    number of bytes of their payload: for a scalar, for an [ndarray] of
    any length and for a string that is not empty, as long as the payload
    is shorter than [2^31] bytes.  For a Python list the size announced
    is that of one element, which is right for a list of one element
    only. *)
Theorem plain_tags_announce_their_size (kind : Z) :
  (forall z : Z,
      size_field_ok (Bytes.write_int kind (Bytes.Py_scalar z)) = true) /\
  (forall x : F,
      size_field_ok (Bytes.write_float kind (Bytes.Py_scalar x)) = true) /\
  (forall x : F,
      size_field_ok (Bytes.write_double kind (Bytes.Py_scalar x)) = true) /\
  (forall zs : list Z,
      4 * Z.of_nat (length zs) < 2 ^ 31 ->
      size_field_ok (Bytes.write_int kind (Bytes.Py_ndarray zs)) = true) /\
  (forall xs : list F,
      4 * Z.of_nat (length xs) < 2 ^ 31 ->
      size_field_ok (Bytes.write_float kind (Bytes.Py_ndarray xs)) = true) /\
  (forall xs : list F,
      8 * Z.of_nat (length xs) < 2 ^ 31 ->
      size_field_ok (Bytes.write_double kind (Bytes.Py_ndarray xs))
      = true) /\
  (forall s : string,
      s <> EmptyString ->
      Z.of_nat (String.length s) < 2 ^ 31 ->
      size_field_ok (Bytes.write_string kind s) = true) /\
  (forall zs : list Z,
      size_field_ok (Bytes.write_int kind (Bytes.Py_list zs)) = true
      <-> length zs = 1%nat) /\
  (forall xs : list F,
      size_field_ok (Bytes.write_float kind (Bytes.Py_list xs)) = true
      <-> length xs = 1%nat) /\
  size_field_ok (Bytes.start_block kind) = true /\
  size_field_ok (Bytes.end_block kind) = true.
Proof.
  unfold Bytes.start_block, Bytes.end_block, Bytes.write_int,
    Bytes.write_float, Bytes.write_double, Bytes.write_string.
  cbv zeta.
  change 4 with (Z.of_nat 4). change 8 with (Z.of_nat 8).
  change 1 with (Z.of_nat 1).
  repeat split; intros;
    try (rewrite _write_size by reflexivity; cbn [Bytes.elements length];
         try rewrite length_list_ascii;
         try (rewrite to_i4_small by lia); try apply Z.eqb_eq; try lia).
  - rewrite _write_size in H by reflexivity.
    cbn [Bytes.elements] in H. apply Z.eqb_eq in H.
    change (to_i4 (Z.of_nat 4)) with 4 in H. lia.
  - rewrite _write_size in H by reflexivity.
    cbn [Bytes.elements] in H. apply Z.eqb_eq in H.
    change (to_i4 (Z.of_nat 4)) with 4 in H. lia.
Qed.

Lemma length_concat_rows {A : Type} (c : nat) (rows : list (list A)) :
  Forall (fun r => length r = c) rows ->
  length (concat rows) = (length rows * c)%nat.
Proof.
  induction 1 as [|r rows Hr _ IH]; [reflexivity |].
  cbn [concat length]. rewrite length_app, IH, Hr. lia.
Qed.

Lemma In_firstn {A : Type} (x : A) (l : list A) :
  forall n : nat, In x (firstn n l) -> In x l.
Proof.
  induction l as [|a l IH]; intros [|n] H; cbn [firstn] in H;
    try contradiction.
  destruct H as [->|H]; [now left | right; now apply (IH n)].
Qed.

Lemma length_rot_of (m : matrix F) :
  wf_matrix m -> (3 <= nrows m)%nat -> (3 <= ncols m)%nat ->
  length (concat (Bytes.rot_of m)) = 9%nat.
Proof.
  intros [Hlen Hrows] Hr Hc. unfold Bytes.rot_of.
  rewrite (@length_concat_rows _ 3).
  - rewrite length_map, length_firstn. lia.
  - apply Forall_forall. intros r Hin. apply in_map_iff in Hin.
    destruct Hin as (r0 & <- & Hin). apply In_firstn in Hin.
    rewrite Forall_forall in Hrows. rewrite length_firstn, (Hrows r0 Hin).
    lia.
Qed.

Lemma move_of_Ok (m : matrix F) :
  wf_matrix m -> (3 <= nrows m)%nat -> (4 <= ncols m)%nat ->
  exists move, Bytes.move_of m = Ok move /\ length move = 3%nat.
Proof.
  intros [Hlen _] Hr Hc. unfold Bytes.move_of.
  destruct (Nat.ltb_spec 3 (ncols m)); [| lia].
  eexists. split; [reflexivity |].
  rewrite length_map, length_firstn. lia.
Qed.

(** X15: the structured tags announce in their header the number of bytes
    of their payload: an id and the closing tag always, a matrix of floats
    that is smaller than [2^31] bytes, a digitizer point exactly when it
    has at least three coordinates, a coordinate transformation when the
    transform and its inverse are arrays of at least 3 x 4.  Where the
    inversion of the transform raises, the 72 bytes written before are
    left in the file, under a header that announces 104. *)
Theorem struct_tags_announce_their_size :
  (forall (random_machid : Z * Z) (time_time kind : Z) (id_ : option fiff_id),
      size_field_ok (Bytes.write_id random_machid time_time kind id_) = true) /\
  (forall FIFF_NOP FIFFT_VOID FIFFV_NEXT_NONE : Z,
      size_field_ok (Bytes.end_file FIFF_NOP FIFFT_VOID FIFFV_NEXT_NONE)
      = true) /\
  (forall (kind : Z) (mat : matrix F),
      wf_matrix mat ->
      4 * Z.of_nat (nrows mat * ncols mat) + 12 < 2 ^ 31 ->
      size_field_ok (Bytes.write_float_matrix kind mat) = true) /\
  (forall dig : dig_point F,
      size_field_ok (Bytes.write_dig_point dig) = true
      <-> (3 <= length (dig_r dig))%nat) /\
  (forall (linalg_inv : matrix F -> result (matrix F)) (c : coord_trans F)
          (trans_inv : matrix F),
      wf_matrix (trans c) ->
      (3 <= nrows (trans c))%nat -> (4 <= ncols (trans c))%nat ->
      linalg_inv (trans c) = Ok trans_inv ->
      wf_matrix trans_inv ->
      (3 <= nrows trans_inv)%nat -> (4 <= ncols trans_inv)%nat ->
      exists fs,
        Bytes.write_coord_trans linalg_inv c = (fs, None) /\
        size_field_ok fs = true) /\
  (forall (linalg_inv : matrix F -> result (matrix F)) (c : coord_trans F)
          (e : error),
      wf_matrix (trans c) ->
      (3 <= nrows (trans c))%nat -> (4 <= ncols (trans c))%nat ->
      linalg_inv (trans c) = Raise e ->
      exists fs,
        Bytes.write_coord_trans linalg_inv c = (fs, Some e) /\
        Bytes.byte_count fs = 72%nat /\
        size_field_ok fs = false).
Proof.
  repeat split.
  - intros kind mat [Hlen Hrows] Hsize.
    unfold Bytes.write_float_matrix, Bytes.size_field_ok. cbv zeta.
    cbn [app]. rewrite byte_count_app, byte_count_floats.
    rewrite (length_concat_rows Hrows), Hlen.
    rewrite to_i4_small by lia. apply Z.eqb_eq.
    cbn [Bytes.byte_count fold_right Bytes.field_size]. lia.
  - unfold Bytes.write_dig_point, Bytes.size_field_ok. cbv zeta.
    cbn [app]. rewrite !byte_count_cons, byte_count_floats.
    cbn [concat Bytes.field_size]. rewrite app_nil_r, length_firstn.
    intros H. apply Z.eqb_eq in H. change (to_i4 (5 * 4)) with 20 in H.
    lia.
  - unfold Bytes.write_dig_point, Bytes.size_field_ok. cbv zeta.
    cbn [app]. rewrite !byte_count_cons, byte_count_floats.
    cbn [concat Bytes.field_size]. rewrite app_nil_r, length_firstn.
    intros H. apply Z.eqb_eq. change (to_i4 (5 * 4)) with 20. lia.
  - intros linalg_inv c trans_inv Hwf Hr Hc Hinv Hwf' Hr' Hc'.
    unfold Bytes.write_coord_trans. cbv zeta.
    destruct (move_of_Ok Hwf Hr Hc) as (move & -> & Hm).
    rewrite Hinv.
    destruct (move_of_Ok Hwf' Hr' Hc') as (move' & -> & Hm').
    eexists. split; [reflexivity |].
    unfold Bytes.size_field_ok. cbn [app].
    rewrite !byte_count_cons, !byte_count_app, !byte_count_floats.
    rewrite !length_rot_of by (assumption || lia).
    cbn [concat]. rewrite !app_nil_r, Hm, Hm'.
    reflexivity.
  - intros linalg_inv c e Hwf Hr Hc Hinv.
    unfold Bytes.write_coord_trans. cbv zeta.
    destruct (move_of_Ok Hwf Hr Hc) as (move & -> & Hm).
    rewrite Hinv.
    eexists. split; [reflexivity |].
    cbn [app].
    split.
    + rewrite !byte_count_cons, !byte_count_app, !byte_count_floats.
      rewrite !length_rot_of by (assumption || lia).
      cbn [concat]. rewrite !app_nil_r, Hm. reflexivity.
    + unfold Bytes.size_field_ok.
      rewrite !byte_count_cons, !byte_count_app, !byte_count_floats.
      rewrite !length_rot_of by (assumption || lia).
      cbn [concat]. rewrite !app_nil_r, Hm. reflexivity.
Qed.

Lemma length_substring_0 (s : string) :
  forall n : nat, String.length (substring 0 n s) = Nat.min n (String.length s).
Proof.
  induction s as [|c s IH]; intros [|n]; cbn [substring String.length Nat.min];
    auto.
Qed.

Lemma substring_0_all (s : string) :
  forall n : nat, (String.length s <= n)%nat -> substring 0 n s = s.
Proof.
  induction s as [|c s IH]; intros [|n] H; cbn [substring String.length] in *;
    try reflexivity; try lia.
  f_equal. apply IH. lia.
Qed.

Lemma byte_count_padding (n : nat) :
  Bytes.byte_count (@Bytes.nul_padding F n) = n.
Proof.
  unfold Bytes.nul_padding, Bytes.byte_count.
  induction n as [|n IH]; [reflexivity |].
  cbn [repeat fold_right Bytes.field_size]. now rewrite IH.
Qed.

(** The 16 bytes of the name of a channel record. *)
Lemma name_field_bytes (name : string) :
  Bytes.byte_count
    (map (@Bytes.C1 F) (list_ascii_of_string (substring 0 15 name))
       ++ Bytes.nul_padding (16 - Nat.min 15 (String.length name)))
  = 16%nat.
Proof.
  rewrite byte_count_app, byte_count_padding.
  rewrite (@byte_count_map _ (@Bytes.C1 F) 1) by reflexivity.
  rewrite length_list_ascii, length_substring_0. lia.
Qed.

Lemma write_ch_info_split (ch : ch_info F) :
  Bytes.write_ch_info ch
  = ([Bytes.I4 (to_i4 203); Bytes.I4 (to_i4 30);
      Bytes.I4 (to_i4 (4 * 13 + 4 * 7 + 16));
      Bytes.I4 (to_i4 Bytes.FIFFV_NEXT_SEQ)]
       ++ [Bytes.I4 (to_i4 (scanno ch)); Bytes.I4 (to_i4 (logno ch));
           Bytes.I4 (to_i4 (ch_kind ch)); Bytes.F4 (to_f4 (range ch));
           Bytes.F4 (to_f4 (cal ch)); Bytes.I4 (to_i4 (coil_type ch))]
       ++ Bytes.floats [loc ch]
       ++ [Bytes.I4 (to_i4 (ch_unit ch)); Bytes.I4 (to_i4 (unit_mul ch))])
      ++ (map (@Bytes.C1 F)
              (list_ascii_of_string (substring 0 15 (ch_name ch)))
            ++ Bytes.nul_padding
                 (16 - Nat.min 15 (String.length (ch_name ch)))).
Proof.
  assert (Hname : (if Nat.eqb (String.length (ch_name ch)) 0
                   then ch_name ch else substring 0 15 (ch_name ch))
                  = substring 0 15 (ch_name ch)).
  { destruct (ch_name ch); reflexivity. }
  unfold Bytes.write_ch_info. cbv zeta. rewrite Hname.
  rewrite length_substring_0.
  destruct (Nat.ltb_spec (Nat.min 15 (String.length (ch_name ch))) 16);
    [| lia].
  rewrite <- !app_assoc. reflexivity.
Qed.

Lemma write_ch_info_bytes (ch : ch_info F) :
  Bytes.byte_count (Bytes.write_ch_info ch)
  = (64 + 4 * length (loc ch))%nat.
Proof.
  rewrite write_ch_info_split, byte_count_app, name_field_bytes.
  rewrite !byte_count_app, byte_count_floats. cbn [concat].
  rewrite app_nil_r.
  cbn [Bytes.byte_count fold_right Bytes.field_size]. lia.
Qed.

(** X16: the record of a channel with a name takes [64 + 4 * len(loc)]
    bytes in the file, so the 96 bytes that its header announces are
    right exactly for a location of twelve numbers.  Its last 16 bytes are
    the name: the first 15 characters of the channel name, the whole name
    where it is that short, filled with NUL characters. *)
Theorem channel_record_bytes (ch : ch_info F) :
  ch_name ch <> EmptyString ->
  (size_field_ok (Bytes.write_ch_info ch) = true
   <-> length (loc ch) = 12%nat) /\
  Bytes.byte_count (Bytes.write_ch_info ch)
  = (64 + 4 * length (loc ch))%nat /\
  (exists pre name : list field,
      Bytes.write_ch_info ch = pre ++ name /\
      Bytes.byte_count name = 16%nat /\
      name = map (@Bytes.C1 F)
                 (list_ascii_of_string (substring 0 15 (ch_name ch)))
               ++ Bytes.nul_padding
                    (16 - Nat.min 15 (String.length (ch_name ch)))) /\
  ((String.length (ch_name ch) <= 15)%nat ->
   substring 0 15 (ch_name ch) = ch_name ch).
Proof.
  intros _. split; [| split; [apply write_ch_info_bytes | split]].
  - pose proof (write_ch_info_bytes ch) as Hcount. revert Hcount.
    rewrite write_ch_info_split. unfold Bytes.size_field_ok. cbn [app].
    cbn [Bytes.byte_count fold_right Bytes.field_size].
    change (to_i4 (4 * 13 + 4 * 7 + 16)) with 96.
    rewrite Z.eqb_eq. fold (@Bytes.byte_count F). lia.
  - eexists. eexists. split; [apply write_ch_info_split |].
    split; [apply name_field_bytes | reflexivity].
  - apply substring_0_all.
Qed.

(** The size of the truncated tag that [save] leaves where the inversion
    of a transform raises is the number of bytes that [write_coord_trans]
    has written by then. *)
Lemma forward_bytes_written (linalg_inv : matrix F -> result (matrix F))
    (c : coord_trans F) (e : error) :
  (4 <= ncols (trans c))%nat ->
  linalg_inv (trans c) = Raise e ->
  Bytes.write_coord_trans linalg_inv c
  = (fst (Bytes.write_coord_trans linalg_inv c), Some e) /\
  Bytes.byte_count (fst (Bytes.write_coord_trans linalg_inv c))
  = forward_bytes (trans c).
Proof.
  intros Hc Hinv. unfold Bytes.write_coord_trans, Bytes.move_of. cbv zeta.
  destruct (Nat.ltb_spec 3 (ncols (trans c))); [| lia].
  rewrite Hinv. cbn [fst]. split; [reflexivity |].
  rewrite !byte_count_app, !byte_count_floats. unfold forward_bytes.
  cbn [concat]. rewrite app_nil_r, length_map.
  unfold Bytes.rot_of. cbn [Bytes.byte_count fold_right Bytes.field_size].
  lia.
Qed.

End ByteFacts.

(** ** Local channel information *)

Section LocalChannels.
Context {F : Type} {SF : Scalar F}.
Variables proj comp : Type.

Local Abbreviation meas_info := (@meas_info F proj comp).
Local Abbreviation Evoked := (@Evoked F proj comp).

(** X17: an evoked block whose last channel count is positive must hold
    that many channel records, else the read raises "channel definitions
    differ" before anything else is looked at; the info of the dataset
    then holds the records of the block as its channels and that count as
    its number of channels, and as sampling rate the last rate of the
    block if that is positive.  An evoked block without a positive
    channel count leaves the channels, their number and the sampling rate
    as the measurement info has them, whatever rate and records the block
    holds.  Every other field of the info is that of the measurement
    info. *)
Theorem local_channel_override (i : meas_info) (ev asp : node F)
    (baseline : option (option F * option F)) :
  let dir := directory ev in
  let n := value_or 0 (last_value (ints_of FIFF_NCHAN dir)) in
  (0 < n -> Z.of_nat (length (channels_of dir)) <> n ->
   assemble i ev asp baseline = Raise (ValueError Channel_definitions_differ)) /\
  (forall d : Evoked,
      assemble i ev asp baseline = Ok d ->
      (if 0 <? n
       then
         Z.of_nat (length (channels_of dir)) = n /\
         chs (info d) = channels_of dir /\ nchan (info d) = n /\
         sfreq (info d)
         = match last_value (floats_of FIFF_SFREQ dir) with
           | Some s => if flt fzero s then s else sfreq i
           | None => sfreq i
           end
       else
         chs (info d) = chs i /\ nchan (info d) = nchan i /\
         sfreq (info d) = sfreq i) /\
      highpass (info d) = highpass i /\ lowpass (info d) = lowpass i /\
      meas_date (info d) = meas_date i /\
      dev_head_t (info d) = dev_head_t i /\
      ctf_head_t (info d) = ctf_head_t i /\
      dig (info d) = dig i /\ projs (info d) = projs i /\
      comps (info d) = comps i /\ bads (info d) = bads i /\
      meas_id (info d) = meas_id i /\ filename (info d) = filename i).
Proof.
  intros dir n. split.
  - intros Hn Hlen. unfold assemble, gather, scan_evoked.
    rewrite scan_evoked_from. fold dir. unfold local_channels.
    cbn [v_nchan v_chs v_sfreq]. fold n.
    destruct (Z.ltb_spec 0 n); [| lia].
    destruct (Z.eqb_spec (Z.of_nat (length (channels_of dir))) n); [lia |].
    reflexivity.
  - intros d H. apply assemble_Ok in H.
    destruct H as (g & m & Hg & _ & _ & _ & Hi & _).
    apply gather_Ok in Hg. destruct Hg as (Hl & _).
    unfold scan_evoked in Hl. rewrite scan_evoked_from in Hl. fold dir in Hl.
    unfold local_channels in Hl. cbn [v_nchan v_chs v_sfreq] in Hl.
    fold n in Hl. rewrite Hi.
    destruct (0 <? n).
    + destruct (Z.eqb_spec (Z.of_nat (length (channels_of dir))) n) as [Hn|];
        [| discriminate Hl].
      cbn [negb] in Hl.
      destruct (last_value (floats_of FIFF_SFREQ dir)) as [s|];
        [destruct (flt fzero s) |]; injection Hl as <-;
        cbn; repeat split; assumption.
    + injection Hl as <-. repeat split.
Qed.

End LocalChannels.

(** ** The time axis and the baseline correction *)

Section TimeAndBaseline.
Context {F : Type} {SF : Scalar F}.
Variables proj comp : Type.

Local Abbreviation meas_info := (@meas_info F proj comp).
Local Abbreviation Evoked := (@Evoked F proj comp).

(** The sampling rate of an assembled dataset is the rate in effect after
    the scan of the evoked block. *)
Lemma assembled_rate (i : meas_info) (ev asp : node F)
    (baseline : option (option F * option F)) (d : Evoked) :
  assemble i ev asp baseline = Ok d ->
  sfreq (info d) = rate_in_effect (sfreq i) (directory ev).
Proof.
  intros H. apply assemble_Ok in H.
  destruct H as (g & m & Hg & _ & _ & _ & Hi & _).
  apply gather_Ok in Hg. destruct Hg as (Hl & _).
  unfold scan_evoked in Hl. rewrite scan_evoked_from in Hl.
  unfold local_channels in Hl. cbn [v_nchan v_chs v_sfreq] in Hl.
  rewrite Hi. unfold rate_in_effect.
  destruct (0 <? value_or 0 (last_value (ints_of FIFF_NCHAN (directory ev))));
    [| now injection Hl as <-].
  destruct (negb _); [discriminate Hl |].
  destruct (last_value (floats_of FIFF_SFREQ (directory ev))) as [s|];
    [destruct (flt fzero s) |]; now injection Hl as <-.
Qed.

(** C7: the time axis of an assembled dataset has [last - first + 1]
    entries, as many as the data has columns, and entry [n] is
    [(first + n) / sfreq] for the sampling rate in effect: that of the
    last [FIFF_SFREQ] tag of the evoked block where the block holds a
    positive channel count and that rate is positive, that of the
    measurement info otherwise. *)
Theorem time_axis_assembled (i : meas_info) (ev asp : node F)
    (baseline : option (option F * option F)) (d : Evoked) :
  assemble i ev asp baseline = Ok d ->
  Z.of_nat (length (times d)) = last d - first d + 1 /\
  length (times d) = ncols (data d) /\
  sfreq (info d) = rate_in_effect (sfreq i) (directory ev) /\
  forall n : nat,
    (n < length (times d))%nat ->
    nth_error (times d) n
    = Some (fdiv (of_int (first d + Z.of_nat n))
                 (rate_in_effect (sfreq i) (directory ev))).
Proof.
  intros H. pose proof (assembled_rate _ _ _ _ H) as Hrate.
  destruct (time_axis_of_info _ _ _ _ H) as (Hlen & Hcols & _ & Hnth).
  split; [exact Hlen |]. split; [exact Hcols |]. split; [exact Hrate |].
  intros n Hn. rewrite <- Hrate. now apply Hnth.
Qed.

Lemma firstn_skipn_nth {A : Type} (d : A) (xs : list A) :
  forall (n lo : nat),
    (lo + n <= length xs)%nat ->
    firstn n (skipn lo xs) = map (fun j => nth j xs d) (seq lo n).
Proof.
  induction n as [|n IH]; intros lo Hlen; [reflexivity |].
  destruct (nth_error xs lo) as [x|] eqn:Ex.
  - rewrite (skipn_nth_error _ _ Ex). cbn [firstn seq map].
    rewrite (nth_error_nth _ _ d Ex). f_equal. apply IH. lia.
  - apply nth_error_None in Ex. lia.
Qed.

(** [row[imin:imax]] holds the entries of the window. *)
Lemma slice_window (imin imax : nat) (row : list F) :
  (imax <= length row)%nat ->
  slice imin imax row = window_entries imin imax row.
Proof.
  intros Hlen. unfold slice, window_entries.
  destruct (imax - imin)%nat as [|n] eqn:En; [reflexivity |].
  apply firstn_skipn_nth. lia.
Qed.

Lemma mean_slice_window (imin imax : nat) (row : list F) :
  (imax <= length row)%nat ->
  mean (slice imin imax row) = window_mean imin imax row.
Proof.
  intros Hlen. rewrite slice_window by exact Hlen.
  unfold mean, fsum, window_mean, window_entries.
  now rewrite length_map, length_seq.
Qed.

Lemma subtract_row_means_window (imin imax : nat) (m : matrix F) :
  wf_matrix m -> (imax <= ncols m)%nat ->
  subtract_row_means imin imax m
  = mkMat (nrows m) (ncols m) (map (corrected_row imin imax) (cells m)).
Proof.
  intros [_ Hrows] Hlen. unfold subtract_row_means. f_equal.
  apply map_ext_in. intros row Hrow. unfold corrected_row.
  rewrite mean_slice_window; [reflexivity |].
  rewrite Forall_forall in Hrows. now rewrite (Hrows row Hrow).
Qed.

Lemma window_stop_bound (bmax : option F) (ts : list F) (imax : nat) :
  window_stop bmax ts (Z.of_nat (length ts)) imax -> (imax <= length ts)%nat.
Proof.
  destruct bmax as [b|]; cbn [window_stop].
  - intros (k & -> & (t & Ht & _) & _).
    assert (k < length ts)%nat by (apply nth_error_Some; congruence). lia.
  - lia.
Qed.

(** C6: with a baseline [(bmin, bmax)] the data is the calibrated matrix
    (the data assembled without baseline) from whose every row the mean of
    its entries at the indices [imin], ..., [imax - 1] is subtracted,
    [imin] being 0 or the index of the first time [>= bmin] and [imax]
    being [nsamp] or one past the index of the last time [<= bmax];
    without baseline the data is the calibrated matrix.  The corrected
    dataset is assembled whenever the uncorrected one is and the window
    exists. *)
Theorem baseline_correction (i : meas_info) (ev asp : node F) :
  (forall (baseline : option (option F * option F)) (d : Evoked),
      assemble i ev asp baseline = Ok d ->
      exists (g : gathered proj comp) (calibrated : matrix F),
        gather i ev asp = Ok g /\
        calibrate (g_info g) (g_raw g) = Ok calibrated /\
        assemble i ev asp None = Ok (set_data calibrated d) /\
        match baseline with
        | None => data d = calibrated
        | Some (bmin, bmax) =>
            exists imin imax : nat,
              window_start bmin (times d) imin /\
              window_stop bmax (times d) (last d - first d + 1) imax /\
              (imax <= ncols calibrated)%nat /\
              nrows (data d) = nrows calibrated /\
              ncols (data d) = ncols calibrated /\
              cells (data d)
              = map (fun row =>
                       map (fun x => fsub x (window_mean imin imax row)) row)
                    (cells calibrated)
        end) /\
  (forall (bmin bmax : option F) (d0 : Evoked) (imin imax : nat),
      assemble i ev asp None = Ok d0 ->
      window_start bmin (times d0) imin ->
      window_stop bmax (times d0) (last d0 - first d0 + 1) imax ->
      assemble i ev asp (Some (bmin, bmax))
      = Ok (set_data
              (mkMat (nrows (data d0)) (ncols (data d0))
                     (map (fun row =>
                             map (fun x => fsub x (window_mean imin imax row))
                                 row)
                          (cells (data d0))))
              d0)).
Proof.
  split.
  - intros baseline d H.
    destruct (assemble_sample_count _ _ _ _ H) as (Hc & Hlen).
    destruct (baseline_correction_computed _ _ _ _ H)
      as (g & calibrated & Hg & Hcal & Hnone & Hdata).
    exists g, calibrated. split; [exact Hg |]. split; [exact Hcal |].
    split; [exact Hnone |].
    destruct baseline as [[bmin bmax]|]; [| exact Hdata].
    destruct Hdata as (imin & imax & Hmin & Hmax & Hnr & Hnc & Hcells).
    exists imin, imax. split; [exact Hmin |]. split; [exact Hmax |].
    assert (Hbound : (imax <= ncols calibrated)%nat).
    { rewrite <- Hnc, <- Hlen. apply (@window_stop_bound bmax).
      now rewrite Hlen, Hc. }
    split; [exact Hbound |]. split; [exact Hnr |]. split; [exact Hnc |].
    rewrite Hcells. apply map_ext_in. intros row Hrow.
    rewrite mean_slice_window; [reflexivity |].
    apply calibrate_wf in Hcal. destruct Hcal as [_ Hrows].
    rewrite Forall_forall in Hrows. now rewrite (Hrows row Hrow).
  - intros bmin bmax d0 imin imax H Hmin Hmax.
    erewrite baseline_correction_succeeds; [| exact H | exact Hmin | exact Hmax].
    destruct (assemble_sample_count _ _ _ _ H) as (Hc & Hlen).
    rewrite subtract_row_means_window; [reflexivity | |].
    + apply assemble_Ok in H.
      destruct H as (g & m & _ & Hm & Hb & _).
      cbn [apply_baseline] in Hb. injection Hb as <-.
      now apply calibrate_wf in Hm.
    + rewrite <- Hlen. apply (@window_stop_bound bmax).
      now rewrite Hlen, Hc.
Qed.

End TimeAndBaseline.

(** ** The file of a successful [save], tag by tag *)

Section SaveLayoutFacts.
Context {F : Type} {SF : Scalar F}.
Variables proj comp : Type.
Variable can_open : string -> bool.
Variable linalg_inv : matrix F -> result (matrix F).
Variable fiff_open : string -> result (node F).
Variable copy_tree : list (node F) -> list (tag F) * option error.
Variable write_proj : list proj -> list (tag F) * option error.
Variable write_ctf_comp : list comp -> list (tag F) * option error.

Local Abbreviation Evoked := (@Evoked F proj comp).
Local Abbreviation wstate := (@wstate F proj comp).
Local Abbreviation W := (@W F proj comp).
Local Abbreviation write_evoked' :=
  (write_evoked can_open linalg_inv fiff_open copy_tree write_proj
                write_ctf_comp).

Lemma wbind_Ok {A B : Type} (c : W A) (k : A -> W B) (s s2 : wstate) (b : B) :
  wbind c k s = (Ok b, s2) ->
  exists a s1, c s = (Ok a, s1) /\ k a s1 = (Ok b, s2).
Proof.
  unfold wbind. destruct (c s) as [[a|e] s1]; [eauto | discriminate].
Qed.

Lemma wstate_eta (s : wstate) :
  s = {| w_self := w_self s; w_fid := w_fid s ++ [] |}.
Proof. destruct s. cbn. now rewrite app_nil_r. Qed.

Lemma call_Ok (out : list (tag F) * option error) (s s1 : wstate) (u : unit) :
  call out s = (Ok u, s1) ->
  s1 = {| w_self := w_self s; w_fid := w_fid s ++ fst out |}.
Proof.
  unfold call, wbind, fid_write_all.
  destruct (snd out); unfold wraise, wret; intros H; [discriminate H |].
  now injection H as _ <-.
Qed.

Lemma copy_blocks_Ok (tree : node F) (bs : list block_kind) :
  forall (have have' : bool * bool) (s s1 : wstate),
    copy_blocks copy_tree tree bs have s = (Ok have', s1) ->
    s1 = {| w_self := w_self s;
            w_fid := w_fid s ++ copied_tags copy_tree tree bs |} /\
    have' = (fst have || found_in tree FIFFB_HPI_RESULT bs,
             snd have || found_in tree FIFFB_ISOTRAK bs).
Proof.
  induction bs as [|b bs IH]; intros have have' s s1 H.
  - cbn [copy_blocks] in H. unfold wret in H. injection H as <- <-.
    cbn [copied_tags flat_map found_in existsb]. rewrite !orb_false_r.
    split; [apply wstate_eta | now destruct have].
  - cbn [copy_blocks] in H. apply wbind_Ok in H.
    destruct H as (u & s0 & Hcall & H). apply call_Ok in Hcall. subst s0.
    apply IH in H. destruct H as [-> ->]. cbn [w_self w_fid fst snd].
    split.
    + unfold copied_tags. cbn [flat_map]. now rewrite <- app_assoc.
    + unfold found_in. cbn [existsb].
      destruct (block_eqb b FIFFB_HPI_RESULT), (block_eqb b FIFFB_ISOTRAK),
        (Nat.ltb 0 (length (dir_tree_find tree b))), (fst have), (snd have);
        reflexivity.
Qed.

Lemma copy_from_original_Ok (s s1 : wstate) (have : bool * bool) :
  copy_from_original fiff_open copy_tree s = (Ok have, s1) ->
  s1 = {| w_self := w_self s;
          w_fid := w_fid s
                     ++ match original_of fiff_open (w_self s) with
                        | Some tree => copied_tags copy_tree tree blocks
                        | None => []
                        end |} /\
  have = (match original_of fiff_open (w_self s) with
          | Some tree => found_in tree FIFFB_HPI_RESULT blocks
          | None => false
          end,
          match original_of fiff_open (w_self s) with
          | Some tree => found_in tree FIFFB_ISOTRAK blocks
          | None => false
          end).
Proof.
  unfold copy_from_original, original_of, wbind, self. cbn [w_self].
  destruct (filename (info (w_self s))) as [f|].
  - destruct (fiff_open f) as [tree|e]; [| discriminate].
    intros H. apply copy_blocks_Ok in H. exact H.
  - unfold wret. intros H. injection H as <- <-.
    split; [apply wstate_eta | reflexivity].
Qed.

Lemma write_transform_Ok (t : option (coord_trans F)) (s s1 : wstate)
    (u : unit) :
  write_optional (write_coord_trans linalg_inv) t s = (Ok u, s1) ->
  s1 = {| w_self := w_self s;
          w_fid := w_fid s ++ transform_tags linalg_inv t |}.
Proof.
  unfold write_optional, write_coord_trans, transform_tags.
  destruct t as [c|].
  - destruct (Nat.ltb 3 (ncols (trans c)));
      [| unfold wbind, fid_write, wraise; discriminate].
    destruct (linalg_inv (trans c)) as [inv|e];
      [| unfold wbind, fid_write, wraise; discriminate].
    destruct (Nat.ltb 3 (ncols inv));
      [| unfold wbind, fid_write, wraise; discriminate].
    unfold fid_write. intros H. now injection H as _ <-.
  - unfold wret. intros H. injection H as _ <-. apply wstate_eta.
Qed.

Lemma dig_loop_run (ds : list (dig_point F)) :
  forall s : wstate,
    for_each (@write_dig_point F SF proj comp) ds s
    = (Ok tt,
       {| w_self := w_self s;
          w_fid := w_fid s
                     ++ map (fun d => T_dig_point
                                        {| dig_kind := to_i4 (dig_kind d);
                                           ident := to_i4 (ident d);
                                           dig_r := map to_f4
                                                        (firstn 3 (dig_r d)) |})
                            ds |}).
Proof.
  induction ds as [|d ds IH]; intros s.
  - cbn [for_each map]. unfold wret. f_equal. apply wstate_eta.
  - cbn [for_each map]. unfold wbind, write_dig_point, fid_write.
    rewrite IH. cbn [w_self w_fid]. now rewrite <- app_assoc.
Qed.

Ltac bind_inv H :=
  let a := fresh "a" in
  let s1 := fresh "s" in
  let H1 := fresh "Hstep" in
  apply wbind_Ok in H; destruct H as (a & s1 & H1 & H).

Lemma date_Ok (md : option Z) (s s1 : wstate) (u : unit) :
  write_optional (@write_int F proj comp FIFF_MEAS_DATE) md s = (Ok u, s1) ->
  s1 = {| w_self := w_self s;
          w_fid := w_fid s ++ match md with
                              | Some d => [T_int FIFF_MEAS_DATE (to_i4 d)]
                              | None => []
                              end |}.
Proof.
  destruct md as [d|]; cbn [write_optional]; unfold write_int, fid_write, wret;
    intros H; injection H as _ <-; [reflexivity | apply wstate_eta].
Qed.

Lemma transforms_Ok (h : bool) (dev ctf : option (coord_trans F))
    (s s1 : wstate) (u : unit) :
  (if negb h
   then wbind (write_optional (write_coord_trans linalg_inv) dev)
              (fun _ => write_optional (write_coord_trans linalg_inv) ctf)
   else wret tt) s = (Ok u, s1) ->
  s1 = {| w_self := w_self s;
          w_fid := w_fid s
                     ++ (if h then []
                         else transform_tags linalg_inv dev
                                ++ transform_tags linalg_inv ctf) |}.
Proof.
  destruct h; cbn [negb].
  - unfold wret. intros H. injection H as _ <-. apply wstate_eta.
  - intros H. bind_inv H. apply write_transform_Ok in Hstep.
    apply write_transform_Ok in H. subst. cbn [w_self w_fid].
    now rewrite <- app_assoc.
Qed.

Lemma dig_Ok (h : bool) (dg : option (list (dig_point F))) (s s1 : wstate)
    (u : unit) :
  match dg with
  | Some ds =>
      if negb h
      then wbind (start_block FIFFB_ISOTRAK)
                 (fun _ => wbind (for_each (@write_dig_point F SF proj comp) ds)
                                 (fun _ => end_block FIFFB_ISOTRAK))
      else wret tt
  | None => wret tt
  end s = (Ok u, s1) ->
  s1 = {| w_self := w_self s;
          w_fid := w_fid s ++ match dg with
                              | Some ds => if h then [] else dig_tags ds
                              | None => []
                              end |}.
Proof.
  destruct dg as [ds|]; [destruct h |]; cbn [negb].
  - unfold wret. intros H. injection H as _ <-. apply wstate_eta.
  - unfold wbind at 1 2, start_block, end_block, fid_write.
    rewrite dig_loop_run. cbn [w_self w_fid]. intros H. injection H as _ <-.
    unfold dig_tags. rewrite <- !app_assoc. reflexivity.
  - unfold wret. intros H. injection H as _ <-. apply wstate_eta.
Qed.

Lemma bads_Ok (names : list string) (s s1 : wstate) (u : unit) :
  (if Nat.ltb 0 (length names)
   then wbind (start_block FIFFB_MNE_BAD_CHANNELS)
              (fun _ => wbind (@write_name_list F proj comp
                                 FIFF_MNE_CH_NAME_LIST names)
                              (fun _ => end_block FIFFB_MNE_BAD_CHANNELS))
   else wret tt) s = (Ok u, s1) ->
  s1 = {| w_self := w_self s; w_fid := w_fid s ++ bads_tags names |}.
Proof.
  unfold bads_tags. destruct (Nat.ltb 0 (length names)).
  - unfold wbind, start_block, end_block, write_name_list, write_string,
      fid_write. cbn [w_self w_fid]. intros H. injection H as _ <-.
    rewrite <- !app_assoc. reflexivity.
  - unfold wret. intros H. injection H as _ <-. apply wstate_eta.
Qed.

Lemma write_meas_info_Ok (s s' : wstate) (u : unit) :
  write_meas_info linalg_inv fiff_open copy_tree write_proj write_ctf_comp s
  = (Ok u, s') ->
  s' = {| w_self := renumbered (Z.to_nat (nchan (info (w_self s)))) (w_self s);
          w_fid := w_fid s
                     ++ meas_info_tags linalg_inv fiff_open copy_tree
                                       write_proj write_ctf_comp (w_self s) |}.
Proof.
  unfold write_meas_info, meas_info_tags, general_tags. intros H.
  set (e := w_self s) in *.
  bind_inv H. unfold start_block, fid_write in Hstep. injection Hstep as _ <-.
  bind_inv H. apply copy_from_original_Ok in Hstep. destruct Hstep as [-> ->].
  cbn [w_self] in H. fold e in H.
  set (orig := original_of fiff_open e) in *.
  bind_inv H. unfold self in Hstep. injection Hstep as <- <-.
  cbn [w_self] in H. fold e in H.
  do 4 (bind_inv H; unfold write_float, write_int, fid_write in Hstep;
        injection Hstep as _ <-; cbn [w_self] in H; fold e in H).
  bind_inv H. apply date_Ok in Hstep. subst. cbn [w_self] in H.
  bind_inv H. apply transforms_Ok in Hstep. subst. cbn [w_self] in H.
  bind_inv H.
  rewrite (@channel_loop_from F SF proj comp e) in Hstep;
    [| cbn [w_self]; now rewrite renumbered_0 | lia].
  cbn [Nat.add] in Hstep.
  destruct (Nat.leb_spec (Z.to_nat (nchan (info e))) (length (chs (info e))))
    as [Hle|]; [| discriminate Hstep].
  rewrite Nat.min_l in Hstep by exact Hle.
  injection Hstep as _ <-. cbn [w_self w_fid skipn] in H.
  bind_inv H. apply dig_Ok in Hstep. subst. cbn [w_self] in H.
  bind_inv H. apply call_Ok in Hstep. subst. cbn [w_self] in H.
  bind_inv H. apply call_Ok in Hstep. subst. cbn [w_self] in H.
  bind_inv H. apply bads_Ok in Hstep. subst. cbn [w_self] in H.
  unfold end_block, fid_write in H. injection H as _ <-.
  cbn [w_self w_fid fst snd]. f_equal.
  rewrite <- !app_assoc. reflexivity.
Qed.

(** X18: the file of a successful [save], tag by tag: the header and the
    ids, the measurement info block, and the processed data block with the
    one evoked block.  The measurement info block holds, in this order, the
    blocks carried over from the original file, the sampling rate, the
    filter limits and the channel count, the date if there is one, the
    coordinate transformations unless an HPI result block was carried
    over, one record per channel with its index as scan number, the
    digitizer points unless an isotrak block was carried over, the
    projectors, the compensation data and the bad channels if there are
    any.  The dataset is left with the scan numbers of the records
    written. *)
Theorem written_file_tag_by_tag (name : string) (D : Evoked) :
  can_open name = true ->
  fst (write_evoked' name D) = Ok tt ->
  exists w : matrix F,
    decalibrated D = Ok w /\
    w_fid (snd (write_evoked' name D))
    = prologue_tags D
        ++ meas_info_tags linalg_inv fiff_open copy_tree write_proj
                          write_ctf_comp D
        ++ [T_block_start FIFFB_PROCESSED_DATA]
        ++ evoked_block_tags D w ++ epilogue_tags /\
    w_self (snd (write_evoked' name D))
    = renumbered (Z.to_nat (nchan (info D))) D.
Proof.
  intros Hopen. rewrite save_unfold by exact Hopen.
  destruct (write_meas_info linalg_inv fiff_open copy_tree write_proj
                            write_ctf_comp
                            {| w_self := D; w_fid := prologue_tags D |})
    as [[u|e] s1] eqn:E; [| discriminate].
  apply write_meas_info_Ok in E. subst s1. cbn [w_self w_fid].
  match goal with
  | |- context [write_evoked_block ?m ?s] =>
      destruct (write_evoked_block_run s) as (ts & Hsnd & Hfst);
      cbn [w_self w_fid] in Hsnd, Hfst;
      destruct (write_evoked_block m s) as [[u'|e] s2]
  end; [| discriminate].
  cbn [fst snd] in *. subst s2. cbn [w_self w_fid]. intros _.
  rewrite decalibrated_renumbered in Hfst.
  destruct (decalibrated D) as [w|e]; [| discriminate Hfst].
  destruct Hfst as [_ ->]. exists w. split; [reflexivity |].
  split; [| reflexivity].
  rewrite <- !app_assoc. reflexivity.
Qed.

End SaveLayoutFacts.

(** ** When [save] goes through *)

Section SaveSuccess.
Context {F : Type} {SF : Scalar F}.
Variables proj comp : Type.
Variable can_open : string -> bool.
Variable linalg_inv : matrix F -> result (matrix F).
Variable fiff_open : string -> result (node F).
Variable copy_tree : list (node F) -> list (tag F) * option error.
Variable write_proj : list proj -> list (tag F) * option error.
Variable write_ctf_comp : list comp -> list (tag F) * option error.

Local Abbreviation Evoked := (@Evoked F proj comp).
Local Abbreviation wstate := (@wstate F proj comp).
Local Abbreviation W := (@W F proj comp).
Local Abbreviation write_evoked' :=
  (write_evoked can_open linalg_inv fiff_open copy_tree write_proj
                write_ctf_comp).

Lemma wbind_run {A B : Type} (c : W A) (k : A -> W B) (s s1 : wstate) (a : A) :
  c s = (Ok a, s1) -> wbind c k s = k a s1.
Proof. unfold wbind. now intros ->. Qed.

Lemma call_run (out : list (tag F) * option error) (s : wstate) :
  snd out = None ->
  call out s = (Ok tt, {| w_self := w_self s; w_fid := w_fid s ++ fst out |}).
Proof. unfold call, wbind, fid_write_all. now intros ->. Qed.

Lemma call_needs (out : list (tag F) * option error) (s s1 : wstate)
    (u : unit) :
  call out s = (Ok u, s1) -> snd out = None.
Proof.
  unfold call, wbind, fid_write_all.
  destruct (snd out); [discriminate | reflexivity].
Qed.

Lemma copy_blocks_run (tree : node F) (bs : list block_kind) :
  forallb (fun b => is_none (snd (copy_tree (dir_tree_find tree b)))) bs
  = true ->
  forall (have : bool * bool) (s : wstate),
    copy_blocks copy_tree tree bs have s
    = (Ok (fst have || found_in tree FIFFB_HPI_RESULT bs,
           snd have || found_in tree FIFFB_ISOTRAK bs),
       {| w_self := w_self s;
          w_fid := w_fid s ++ copied_tags copy_tree tree bs |}).
Proof.
  induction bs as [|b bs IH]; intros Hall have s.
  - cbn [copy_blocks copied_tags flat_map found_in existsb]. unfold wret.
    rewrite !orb_false_r, <- wstate_eta. now destruct have.
  - cbn [forallb] in Hall. apply andb_true_iff in Hall.
    destruct Hall as [Hb Hall]. cbn [copy_blocks].
    erewrite wbind_run;
      [| apply call_run; now destruct (snd (copy_tree (dir_tree_find tree b)))].
    rewrite (IH Hall). cbn [w_self w_fid fst snd].
    unfold copied_tags, found_in. cbn [flat_map existsb].
    rewrite <- app_assoc.
    destruct have as [[] []], (block_eqb b FIFFB_HPI_RESULT),
      (block_eqb b FIFFB_ISOTRAK),
      (Nat.ltb 0 (length (dir_tree_find tree b)));
      reflexivity.
Qed.

Lemma copy_blocks_needs (tree : node F) (bs : list block_kind) :
  forall (have have' : bool * bool) (s s1 : wstate),
    copy_blocks copy_tree tree bs have s = (Ok have', s1) ->
    forallb (fun b => is_none (snd (copy_tree (dir_tree_find tree b)))) bs
    = true.
Proof.
  induction bs as [|b bs IH]; intros have have' s s1 H; [reflexivity |].
  cbn [copy_blocks] in H. apply wbind_Ok in H.
  destruct H as (u & s0 & Hcall & H). apply call_needs in Hcall.
  cbn [forallb]. rewrite Hcall. cbn [is_none andb]. eapply IH. exact H.
Qed.

Lemma copy_from_original_run (s : wstate) :
  original_copied fiff_open copy_tree (w_self s) = true ->
  copy_from_original fiff_open copy_tree s
  = (Ok (have_hpi_result fiff_open (w_self s),
         have_isotrak fiff_open (w_self s)),
     {| w_self := w_self s;
        w_fid := w_fid s
                   ++ match original_of fiff_open (w_self s) with
                      | Some tree => copied_tags copy_tree tree blocks
                      | None => []
                      end |}).
Proof.
  unfold original_copied, copy_from_original, have_hpi_result, have_isotrak,
    original_of, wbind, self. cbn [w_self].
  destruct (filename (info (w_self s))) as [f|].
  - destruct (fiff_open f) as [tree|e]; [| discriminate].
    intros H. now rewrite copy_blocks_run by exact H.
  - intros _. unfold wret. now rewrite <- wstate_eta.
Qed.

Lemma copy_from_original_needs (s s1 : wstate) (have : bool * bool) :
  copy_from_original fiff_open copy_tree s = (Ok have, s1) ->
  original_copied fiff_open copy_tree (w_self s) = true.
Proof.
  unfold original_copied, copy_from_original, wbind, self. cbn [w_self].
  destruct (filename (info (w_self s))) as [f|]; [| reflexivity].
  destruct (fiff_open f) as [tree|e]; [| discriminate].
  apply copy_blocks_needs.
Qed.

Lemma write_transform_run (t : option (coord_trans F)) (s : wstate) :
  writable linalg_inv t = true ->
  write_optional (write_coord_trans linalg_inv) t s
  = (Ok tt, {| w_self := w_self s;
               w_fid := w_fid s ++ transform_tags linalg_inv t |}).
Proof.
  unfold writable, write_optional, write_coord_trans, transform_tags.
  destruct t as [c|].
  - destruct (Nat.ltb 3 (ncols (trans c))); [| discriminate].
    destruct (linalg_inv (trans c)) as [inv|e]; [| discriminate].
    cbn [andb]. intros ->. reflexivity.
  - intros _. unfold wret. now rewrite <- wstate_eta.
Qed.

Lemma write_transform_needs (t : option (coord_trans F)) (s s1 : wstate)
    (u : unit) :
  write_optional (write_coord_trans linalg_inv) t s = (Ok u, s1) ->
  writable linalg_inv t = true.
Proof.
  unfold writable, write_optional, write_coord_trans.
  destruct t as [c|]; [| reflexivity].
  destruct (Nat.ltb 3 (ncols (trans c)));
    [| unfold wbind, fid_write, wraise; discriminate].
  destruct (linalg_inv (trans c)) as [inv|e];
    [| unfold wbind, fid_write, wraise; discriminate].
  destruct (Nat.ltb 3 (ncols inv)); [reflexivity |].
  unfold wbind, fid_write, wraise. discriminate.
Qed.

Lemma transforms_run (h : bool) (dev ctf : option (coord_trans F))
    (s : wstate) :
  h || (writable linalg_inv dev && writable linalg_inv ctf) = true ->
  (if negb h
   then wbind (write_optional (write_coord_trans linalg_inv) dev)
              (fun _ => write_optional (write_coord_trans linalg_inv) ctf)
   else wret tt) s
  = (Ok tt,
     {| w_self := w_self s;
        w_fid := w_fid s
                   ++ (if h then []
                       else transform_tags linalg_inv dev
                              ++ transform_tags linalg_inv ctf) |}).
Proof.
  destruct h; cbn [negb orb].
  - intros _. unfold wret. now rewrite <- wstate_eta.
  - intros H. apply andb_true_iff in H. destruct H as [Hd Hc].
    erewrite wbind_run by (apply write_transform_run; exact Hd).
    rewrite write_transform_run by exact Hc. cbn [w_self w_fid].
    now rewrite <- app_assoc.
Qed.

Lemma transforms_needs (h : bool) (dev ctf : option (coord_trans F))
    (s s1 : wstate) (u : unit) :
  (if negb h
   then wbind (write_optional (write_coord_trans linalg_inv) dev)
              (fun _ => write_optional (write_coord_trans linalg_inv) ctf)
   else wret tt) s = (Ok u, s1) ->
  h || (writable linalg_inv dev && writable linalg_inv ctf) = true.
Proof.
  destruct h; cbn [negb orb]; [reflexivity |].
  intros H. apply wbind_Ok in H. destruct H as (a & s0 & Hd & Hc).
  apply write_transform_needs in Hd. apply write_transform_needs in Hc.
  now rewrite Hd, Hc.
Qed.

Lemma date_run (md : option Z) (s : wstate) :
  write_optional (@write_int F proj comp FIFF_MEAS_DATE) md s
  = (Ok tt, {| w_self := w_self s;
               w_fid := w_fid s ++ match md with
                                   | Some d => [T_int FIFF_MEAS_DATE (to_i4 d)]
                                   | None => []
                                   end |}).
Proof.
  destruct md as [d|]; cbn [write_optional]; unfold write_int, fid_write, wret;
    [reflexivity | now rewrite <- wstate_eta].
Qed.

Lemma dig_run (h : bool) (dg : option (list (dig_point F))) (s : wstate) :
  match dg with
  | Some ds =>
      if negb h
      then wbind (start_block FIFFB_ISOTRAK)
                 (fun _ => wbind (for_each (@write_dig_point F SF proj comp) ds)
                                 (fun _ => end_block FIFFB_ISOTRAK))
      else wret tt
  | None => wret tt
  end s
  = (Ok tt, {| w_self := w_self s;
               w_fid := w_fid s ++ match dg with
                                   | Some ds => if h then [] else dig_tags ds
                                   | None => []
                                   end |}).
Proof.
  destruct dg as [ds|]; [destruct h |]; cbn [negb].
  - unfold wret. now rewrite <- wstate_eta.
  - unfold wbind at 1 2, start_block, end_block, fid_write.
    rewrite dig_loop_run. cbn [w_self w_fid].
    unfold dig_tags. rewrite <- !app_assoc. reflexivity.
  - unfold wret. now rewrite <- wstate_eta.
Qed.

Lemma bads_run (names : list string) (s : wstate) :
  (if Nat.ltb 0 (length names)
   then wbind (start_block FIFFB_MNE_BAD_CHANNELS)
              (fun _ => wbind (@write_name_list F proj comp
                                 FIFF_MNE_CH_NAME_LIST names)
                              (fun _ => end_block FIFFB_MNE_BAD_CHANNELS))
   else wret tt) s
  = (Ok tt, {| w_self := w_self s; w_fid := w_fid s ++ bads_tags names |}).
Proof.
  unfold bads_tags. destruct (Nat.ltb 0 (length names)).
  - unfold wbind, start_block, end_block, write_name_list, write_string,
      fid_write. cbn [w_self w_fid]. rewrite <- !app_assoc. reflexivity.
  - unfold wret. now rewrite <- wstate_eta.
Qed.

Lemma channel_loop_ok (n : nat) (s : wstate) :
  (n <= length (chs (info (w_self s))))%nat ->
  for_each (@write_channel F SF proj comp) (seq 0 n) s
  = (Ok tt,
     {| w_self := renumbered n (w_self s);
        w_fid := w_fid s ++ channel_tags 0 n (chs (info (w_self s))) |}).
Proof.
  intros Hn.
  rewrite (@channel_loop_from F SF proj comp (w_self s));
    [| now rewrite renumbered_0 | lia].
  cbn [Nat.add skipn].
  destruct (Nat.leb_spec n (length (chs (info (w_self s))))); [| lia].
  now rewrite Nat.min_l by exact Hn.
Qed.

Lemma write_meas_info_run (s : wstate) :
  meas_info_succeeds linalg_inv fiff_open copy_tree write_proj write_ctf_comp
                     (w_self s) = true ->
  write_meas_info linalg_inv fiff_open copy_tree write_proj write_ctf_comp s
  = (Ok tt,
     {| w_self := renumbered (Z.to_nat (nchan (info (w_self s)))) (w_self s);
        w_fid := w_fid s
                   ++ meas_info_tags linalg_inv fiff_open copy_tree
                                     write_proj write_ctf_comp (w_self s) |}).
Proof.
  unfold meas_info_succeeds. cbv zeta. intros H.
  apply andb_true_iff in H. destruct H as [H Hcomp].
  apply andb_true_iff in H. destruct H as [H Hproj].
  apply andb_true_iff in H. destruct H as [H Hn].
  apply andb_true_iff in H. destruct H as [Horig Htrans].
  apply Nat.leb_le in Hn.
  unfold write_meas_info, meas_info_tags, general_tags.
  set (e := w_self s) in *.
  erewrite wbind_run by reflexivity.
  erewrite wbind_run by (apply copy_from_original_run; exact Horig).
  cbn [w_self fst snd]. fold e.
  erewrite wbind_run by reflexivity.
  cbn [w_self]. fold e.
  do 4 (erewrite wbind_run by reflexivity).
  erewrite wbind_run by apply date_run.
  erewrite wbind_run by (apply transforms_run; exact Htrans).
  cbn [w_self w_fid].
  erewrite wbind_run by (apply channel_loop_ok; cbn [w_self]; exact Hn).
  cbn [w_self w_fid].
  erewrite wbind_run by apply dig_run.
  erewrite wbind_run
    by (apply call_run; now destruct (snd (write_proj (projs (info e))))).
  erewrite wbind_run
    by (apply call_run; now destruct (snd (write_ctf_comp (comps (info e))))).
  erewrite wbind_run by apply bads_run.
  unfold end_block, fid_write. cbn [w_self w_fid]. f_equal. f_equal.
  rewrite <- !app_assoc. reflexivity.
Qed.


Ltac bind_inv' H :=
  let a := fresh "a" in
  let s1 := fresh "s" in
  let H1 := fresh "Hstep" in
  apply wbind_Ok in H; destruct H as (a & s1 & H1 & H).

Lemma write_meas_info_needs (s s' : wstate) (u : unit) :
  write_meas_info linalg_inv fiff_open copy_tree write_proj write_ctf_comp s
  = (Ok u, s') ->
  meas_info_succeeds linalg_inv fiff_open copy_tree write_proj write_ctf_comp
                     (w_self s) = true.
Proof.
  unfold write_meas_info, meas_info_succeeds. cbv zeta. intros H.
  set (e := w_self s) in *.
  bind_inv' H. unfold start_block, fid_write in Hstep. injection Hstep as _ <-.
  bind_inv' H. pose proof Hstep as Horig. apply copy_from_original_needs in Horig.
  apply copy_from_original_Ok in Hstep. destruct Hstep as [-> ->].
  cbn [w_self fst snd] in H, Horig. fold e in H, Horig.
  bind_inv' H. unfold self in Hstep. injection Hstep as <- <-.
  cbn [w_self] in H. fold e in H.
  do 4 (bind_inv' H; unfold write_float, write_int, fid_write in Hstep;
        injection Hstep as _ <-; cbn [w_self] in H; fold e in H).
  bind_inv' H. apply date_Ok in Hstep. subst. cbn [w_self] in H.
  bind_inv' H. pose proof Hstep as Htrans. apply transforms_needs in Htrans.
  apply transforms_Ok in Hstep. subst. cbn [w_self] in H.
  bind_inv' H.
  rewrite (@channel_loop_from F SF proj comp e) in Hstep;
    [| cbn [w_self]; now rewrite renumbered_0 | lia].
  cbn [Nat.add] in Hstep.
  destruct (Nat.leb (Z.to_nat (nchan (info e))) (length (chs (info e))))
    eqn:Hn; [| discriminate Hstep].
  injection Hstep as _ <-. cbn [w_self w_fid skipn] in H.
  bind_inv' H. apply dig_Ok in Hstep. subst. cbn [w_self] in H.
  bind_inv' H. pose proof Hstep as Hproj. apply call_needs in Hproj.
  apply call_Ok in Hstep. subst. cbn [w_self] in H.
  bind_inv' H. pose proof Hstep as Hcomp. apply call_needs in Hcomp.
  repeat (apply andb_true_iff; split).
  - exact Horig.
  - exact Htrans.
  - reflexivity.
  - now rewrite Hproj.
  - now rewrite Hcomp.
Qed.

Lemma save_run_ok (name : string) (D : Evoked) (w : matrix F) :
  can_open name = true ->
  meas_info_succeeds linalg_inv fiff_open copy_tree write_proj write_ctf_comp
                     D = true ->
  decalibrated D = Ok w ->
  write_evoked' name D
  = (Ok tt,
     {| w_self := renumbered (Z.to_nat (nchan (info D))) D;
        w_fid := prologue_tags D
                   ++ meas_info_tags linalg_inv fiff_open copy_tree write_proj
                                     write_ctf_comp D
                   ++ [T_block_start FIFFB_PROCESSED_DATA]
                   ++ evoked_block_tags D w ++ epilogue_tags |}).
Proof.
  intros Hopen Hinfo Hw. rewrite save_unfold by exact Hopen.
  rewrite write_meas_info_run by exact Hinfo. cbn [w_self w_fid].
  match goal with
  | |- context [write_evoked_block ?m ?s] =>
      destruct (write_evoked_block_run s) as (ts & Hsnd & Hfst);
      cbn [w_self w_fid] in Hsnd, Hfst;
      destruct (write_evoked_block m s) as [[[]|e] s2]
  end; cbn [fst snd] in *; rewrite decalibrated_renumbered, Hw in Hfst.
  - destruct Hfst as [_ ->]. subst s2. cbn [w_self w_fid]. f_equal. f_equal.
    rewrite <- !app_assoc. reflexivity.
  - destruct Hfst as [Hfst _]. discriminate Hfst.
Qed.

Lemma save_Ok_needs (name : string) (D : Evoked) :
  fst (write_evoked' name D) = Ok tt ->
  save_succeeds linalg_inv fiff_open copy_tree write_proj write_ctf_comp
                can_open name D = true.
Proof.
  unfold save_succeeds. intros H. destruct (can_open name) eqn:Hopen.
  - rewrite save_unfold in H by exact Hopen.
    destruct (write_meas_info linalg_inv fiff_open copy_tree write_proj
                              write_ctf_comp
                              {| w_self := D; w_fid := prologue_tags D |})
      as [[u|e] s1] eqn:E; [| discriminate H].
    pose proof E as Hinfo. apply write_meas_info_needs in Hinfo.
    cbn [w_self] in Hinfo.
    apply write_meas_info_Ok in E. subst s1. cbn [w_self w_fid] in H.
    rewrite Hinfo. cbn [andb].
    match type of H with
    | context [write_evoked_block ?m ?s] =>
        destruct (write_evoked_block_run s) as (ts & _ & Hfst);
        cbn [w_self w_fid] in Hfst;
        destruct (write_evoked_block m s) as [[[]|e] s2]
    end; [| discriminate H].
    rewrite decalibrated_renumbered in Hfst.
    destruct (decalibrated D); [reflexivity |]. discriminate Hfst.
  - unfold write_evoked, save, start_file, wbind in H. rewrite Hopen in H.
    discriminate H.
Qed.

Lemma decal_of_nonzero_at (cs : list (ch_info F)) (ks : list nat) :
  forall ds : list F,
    decal_of ks cs = Ok ds ->
    forall (k : nat) (ch : ch_info F),
      In k ks -> nth_error cs k = Some ch -> is_zero (cal ch) = false.
Proof.
  induction ks as [|k0 ks IH]; intros ds H k ch Hin Hch; [contradiction |].
  cbn [decal_of] in H.
  destruct (nth_error cs k0) as [ch0|] eqn:E0; [| discriminate H].
  destruct (is_zero (cal ch0)) eqn:Ez; [discriminate H |].
  apply rbind_Ok in H. destruct H as (ds' & Hd & _).
  destruct Hin as [<-|Hin].
  - rewrite E0 in Hch. now injection Hch as <-.
  - eapply IH; eassumption.
Qed.

(** X19: [save] returns only if the file can be created, the original
    file, if the dataset names one, can be opened and copied from, the
    coordinate transformations to write have four columns and can be
    inverted, the info holds a channel record for every channel it
    counts, the writers of the projectors and of the compensation data do
    not raise, no channel that is counted has a zero calibration, and the
    data has as many rows as the info counts channels. *)
Theorem save_needs (name : string) (D : Evoked) :
  fst (write_evoked' name D) = Ok tt ->
  can_open name = true /\
  original_copied fiff_open copy_tree D = true /\
  (have_hpi_result fiff_open D = false ->
   writable linalg_inv (dev_head_t (info D)) = true /\
   writable linalg_inv (ctf_head_t (info D)) = true) /\
  0 <= nchan (info D) <= Z.of_nat (length (chs (info D))) /\
  snd (write_proj (projs (info D))) = None /\
  snd (write_ctf_comp (comps (info D))) = None /\
  (forall (k : nat) (ch : ch_info F),
      Z.of_nat k < nchan (info D) ->
      nth_error (chs (info D)) k = Some ch ->
      is_zero (cal ch) = false) /\
  Z.of_nat (nrows (data D)) = nchan (info D).
Proof.
  intros H. apply save_Ok_needs in H. unfold save_succeeds in H.
  apply andb_true_iff in H. destruct H as [H Hw].
  apply andb_true_iff in H. destruct H as [Hopen Hinfo].
  unfold meas_info_succeeds in Hinfo.
  apply andb_true_iff in Hinfo. destruct Hinfo as [Hinfo Hcomp].
  apply andb_true_iff in Hinfo. destruct Hinfo as [Hinfo Hproj].
  apply andb_true_iff in Hinfo. destruct Hinfo as [Hinfo Hlen].
  apply andb_true_iff in Hinfo. destruct Hinfo as [Horig Htrans].
  apply Nat.leb_le in Hlen.
  destruct (decalibrated D) as [w|e] eqn:Ew; [clear Hw | discriminate Hw].
  assert (Hpos : 0 <= nchan (info D)).
  { unfold decalibrated, decal_matrix in Ew.
    destruct (Z.ltb_spec (nchan (info D)) 0); [discriminate Ew | assumption]. }
  assert (Hnz : forall (k : nat) (ch : ch_info F),
             Z.of_nat k < nchan (info D) ->
             nth_error (chs (info D)) k = Some ch ->
             is_zero (cal ch) = false).
  { unfold decalibrated, decal_matrix in Ew.
    destruct (nchan (info D) <? 0); [discriminate Ew |].
    destruct (decal_of _ _) as [ds|e] eqn:Ed; [| discriminate Ew].
    intros k ch Hk Hch. eapply decal_of_nonzero_at; [exact Ed | | exact Hch].
    apply in_seq. lia. }
  apply decalibrated_Ok in Ew. destruct Ew as (cals & Hc & _ & Hdot).
  apply cals_of_length in Hc. rewrite length_seq in Hc.
  assert (Hrows : nrows (data D) = Z.to_nat (nchan (info D))).
  { unfold dot, diag in Hdot. cbn [ncols] in Hdot.
    rewrite length_map, Hc in Hdot.
    destruct (Nat.eqb_spec (Z.to_nat (nchan (info D))) (nrows (data D)));
      [congruence | discriminate Hdot]. }
  split; [exact Hopen |]. split; [exact Horig |]. split.
  { intros Hh. rewrite Hh in Htrans. cbn [orb] in Htrans.
    now apply andb_true_iff in Htrans. }
  split; [lia |]. split.
  { destruct (snd (write_proj (projs (info D)))); [discriminate | reflexivity]. }
  split.
  { destruct (snd (write_ctf_comp (comps (info D))));
      [discriminate | reflexivity]. }
  split; [exact Hnz | lia].
Qed.

Lemma channel_tags_renumber (n : nat) :
  forall (k m : nat) (cs : list (ch_info F)),
    channel_tags k n (renumber_from k m cs) = channel_tags k n cs.
Proof.
  unfold channel_tags.
  induction n as [|n IH]; intros k m cs; [reflexivity |].
  destruct cs as [|c cs]; [now destruct m |].
  destruct m as [|m]; [reflexivity |].
  cbn [renumber_from seq combine map fst snd]. f_equal. apply IH.
Qed.

Lemma meas_info_tags_renumbered (m : nat) (D : Evoked) :
  meas_info_tags linalg_inv fiff_open copy_tree write_proj write_ctf_comp
                 (renumbered m D)
  = meas_info_tags linalg_inv fiff_open copy_tree write_proj write_ctf_comp D.
Proof.
  unfold meas_info_tags, have_hpi_result, have_isotrak, original_of,
    general_tags, renumbered, renumber.
  cbn [info set_info set_chs set_channels sfreq highpass lowpass nchan
       meas_date dev_head_t ctf_head_t chs dig projs comps bads filename].
  now rewrite channel_tags_renumber.
Qed.

Lemma meas_info_succeeds_renumbered (m : nat) (D : Evoked) :
  meas_info_succeeds linalg_inv fiff_open copy_tree write_proj write_ctf_comp
                     (renumbered m D)
  = meas_info_succeeds linalg_inv fiff_open copy_tree write_proj
                       write_ctf_comp D.
Proof.
  unfold meas_info_succeeds, original_copied, have_hpi_result, original_of,
    renumbered, renumber.
  cbn [info set_info set_chs set_channels nchan dev_head_t ctf_head_t chs
       projs comps filename].
  now rewrite renumber_from_length.
Qed.

(** X20: saving once more the dataset that a successful [save] leaves
    goes through, writes the same tags, the ids generated for the file
    apart, and leaves the dataset as it is. *)
Theorem second_save_same_file (name : string) (D : Evoked) :
  fst (write_evoked' name D) = Ok tt ->
  write_evoked' name (w_self (snd (write_evoked' name D)))
  = (Ok tt, snd (write_evoked' name D)).
Proof.
  intros H. apply save_Ok_needs in H. unfold save_succeeds in H.
  apply andb_true_iff in H. destruct H as [H Hw].
  apply andb_true_iff in H. destruct H as [Hopen Hinfo].
  destruct (decalibrated D) as [w|e] eqn:Ew; [| discriminate Hw].
  rewrite (@save_run_ok name D w Hopen Hinfo Ew). cbn [snd w_self].
  rewrite save_run_ok with (w := w).
  - rewrite meas_info_tags_renumbered, renumbered_max, Nat.max_id.
    reflexivity.
  - exact Hopen.
  - now rewrite meas_info_succeeds_renumbered.
  - now rewrite decalibrated_renumbered.
Qed.

End SaveSuccess.

(** ** The files that [save] opens *)

Section FilesOpened.
Context {F : Type} {SF : Scalar F}.
Variables proj comp : Type.
Variable can_open : string -> bool.
Variable linalg_inv : matrix F -> result (matrix F).
Variable fiff_open : string -> result (node F).
Variable copy_tree : list (node F) -> list (tag F) * option error.
Variable write_proj : list proj -> list (tag F) * option error.
Variable write_ctf_comp : list comp -> list (tag F) * option error.

Local Abbreviation meas_info := (@meas_info F proj comp).
Local Abbreviation Evoked := (@Evoked F proj comp).
Local Abbreviation write_evoked' :=
  (write_evoked can_open linalg_inv fiff_open copy_tree write_proj
                write_ctf_comp).

Lemma local_channels_filename (v : evoked_vars) (i i' : meas_info) :
  local_channels v i = Ok i' -> filename i' = filename i.
Proof.
  unfold local_channels.
  destruct (0 <? v_nchan v); [| now intros H; injection H as <-].
  destruct (negb (Z.of_nat (length (v_chs v)) =? v_nchan v)); [discriminate |].
  destruct (v_sfreq v) as [s|]; [destruct (flt fzero s) |];
    intros H; injection H as <-; reflexivity.
Qed.

(** X21: a dataset read from a file names that file, and [save] opens
    the file its dataset names: where that file cannot be opened, [save]
    raises what opening it raised, having written the header, the ids and
    the start of the measurement info block, and leaves the dataset as it
    is.  Where the file to write cannot be created, [save] raises an
    [IOError] and nothing is written. *)
Theorem save_reopens_the_file_read :
  (forall (file_system : string -> result (node F))
          (read_meas_info : node F -> result (meas_info * node F))
          (fname : string) (setno : Z)
          (baseline : option (option F * option F)) (d : Evoked),
      read_evoked file_system read_meas_info fname setno baseline = Ok d ->
      filename (info d) = Some fname) /\
  (forall (name f : string) (D : Evoked) (e : error),
      can_open name = true ->
      filename (info D) = Some f ->
      fiff_open f = Raise e ->
      write_evoked' name D
      = (Raise e,
         {| w_self := D;
            w_fid := prologue_tags D ++ [T_block_start FIFFB_MEAS_INFO] |})) /\
  (forall (name : string) (D : Evoked),
      can_open name = false ->
      write_evoked' name D = (Raise IOError, {| w_self := D; w_fid := [] |})).
Proof.
  split; [| split].
  - intros file_system read_meas_info fname setno baseline d.
    unfold read_evoked, Evoked_init.
    destruct (setno <? 0); [discriminate |].
    intros H. apply rbind_Ok in H. destruct H as (tree & _ & H).
    apply rbind_Ok in H. destruct H as ([i meas] & _ & H).
    unfold Evoked_of in H. apply rbind_Ok in H.
    destruct H as ([ev asp] & _ & H). apply assemble_Ok in H.
    destruct H as (g & m & Hg & _ & _ & _ & Hi & _).
    apply gather_Ok in Hg. destruct Hg as (Hl & _).
    apply local_channels_filename in Hl. now rewrite Hi, Hl.
  - intros name f D e Hopen Hf He. rewrite save_unfold by exact Hopen.
    unfold write_meas_info, wbind at 1 2, start_block, fid_write,
      copy_from_original, wbind, self.
    cbn [w_self w_fid]. rewrite Hf, He. reflexivity.
  - intros name D Hopen. unfold write_evoked, save, start_file, wbind.
    now rewrite Hopen.
Qed.

End FilesOpened.

(** ** The sizes of the tags and the bytes written *)

Section TagSizes.
Context {F : Type} {SF : Scalar F}.
Variables proj comp : Type.

Local Abbreviation field := (@Bytes.field F).
Local Abbreviation byte_count := (@Bytes.byte_count F).
Local Abbreviation tag_bytes := (@tag_size F).

(** X22: the size of a tag, which the sizes of the files are made of, is
    the number of bytes that the writer of [write.py] writes for it: for
    integers, floats, block limits, ids and the closing tag always, for a
    string that is not empty, for a matrix that is a well-formed array,
    for the record of a channel with a name exactly when the location has
    twelve numbers, and for a digitizer point exactly when it has at
    least three coordinates. *)
Theorem tag_sizes_are_byte_counts :
  (forall (kind : Z) (k : int_kind) (z : Z),
      byte_count (Bytes.write_int kind (Bytes.Py_scalar z))
      = tag_bytes (T_int k (to_i4 z))) /\
  (forall (kind : Z) (k : float_kind) (x : F),
      byte_count (Bytes.write_float kind (Bytes.Py_scalar x))
      = tag_bytes (T_float k (to_f4 x))) /\
  (forall (kind : Z) (k : string_kind) (s : string),
      s <> EmptyString ->
      byte_count (Bytes.write_string kind s) = tag_bytes (T_string k s)) /\
  (forall (kind : Z) (b : block_kind),
      byte_count (Bytes.start_block kind) = tag_bytes (T_block_start b) /\
      byte_count (Bytes.end_block kind) = tag_bytes (T_block_end b)) /\
  (forall (random_machid : Z * Z) (time_time kind : Z) (k : id_kind)
          (id_ v : option fiff_id),
      byte_count (Bytes.write_id random_machid time_time kind id_)
      = tag_bytes (T_id k v)) /\
  (forall FIFF_NOP FIFFT_VOID FIFFV_NEXT_NONE : Z,
      byte_count (Bytes.end_file FIFF_NOP FIFFT_VOID FIFFV_NEXT_NONE)
      = tag_bytes T_nop) /\
  (forall (kind : Z) (k : matrix_kind) (mat : matrix F),
      wf_matrix mat ->
      byte_count (Bytes.write_float_matrix kind mat)
      = tag_bytes (T_float_matrix k (array_f4 mat))) /\
  (forall ch : ch_info F,
      ch_name ch <> EmptyString ->
      (byte_count (Bytes.write_ch_info ch)
       = tag_bytes (T_ch_info (encoded_channel ch))
       <-> length (loc ch) = 12%nat)) /\
  (forall d c : dig_point F,
      byte_count (Bytes.write_dig_point d) = tag_bytes (T_dig_point c)
      <-> (3 <= length (dig_r d))%nat).
Proof.
  repeat split.
  - intros kind k s _. unfold Bytes.write_string, Bytes._write. cbv zeta.
    cbn [app Bytes.elements]. rewrite !byte_count_cons.
    rewrite (@byte_count_map F _ (@Bytes.C1 F) 1) by reflexivity.
    rewrite length_list_ascii. cbn [Bytes.field_size]. unfold tag_size. lia.
  - intros kind k mat [Hlen Hrows].
    unfold Bytes.write_float_matrix. cbv zeta. cbn [app].
    rewrite !byte_count_cons, byte_count_app, byte_count_floats.
    rewrite (length_concat_rows Hrows), Hlen.
    cbn [Bytes.byte_count fold_right Bytes.field_size].
    unfold tag_size. cbn [array_f4 nrows ncols]. lia.
  - intros Hb. rewrite write_ch_info_bytes in Hb.
    unfold tag_size in Hb. lia.
  - intros Hb. rewrite write_ch_info_bytes.
    unfold tag_size. lia.
  - unfold Bytes.write_dig_point. cbv zeta. cbn [app].
    rewrite !byte_count_cons, byte_count_floats.
    cbn [concat Bytes.field_size]. unfold tag_size.
    rewrite app_nil_r, length_firstn. lia.
  - unfold Bytes.write_dig_point. cbv zeta. cbn [app].
    rewrite !byte_count_cons, byte_count_floats.
    cbn [concat Bytes.field_size]. unfold tag_size.
    rewrite app_nil_r, length_firstn. lia.
Qed.

End TagSizes.

(** ** What the selection returns *)

Section SelectionSound.
Context {F : Type}.

Lemma identify_aspects_Ok (evs : list (node F)) :
  forall (n n' : nat) (is_smsh : option (nat * nat))
         (sets sets' : list aspect_set),
    identify_aspects evs n is_smsh sets = Ok (n', sets') ->
    sets' = sets ++ map set_of evs /\
    Forall (fun ev => dir_tree_find ev FIFFB_SMSH_ASPECT = []) evs.
Proof.
  induction evs as [|ev evs IH]; intros n n' is_smsh sets sets' H.
  - cbn [identify_aspects] in H. injection H as _ <-.
    rewrite app_nil_r. split; [reflexivity | constructor].
  - cbn [identify_aspects] in H. apply rbind_Ok in H.
    destruct H as ([is' n1] & _ & H).
    destruct (dir_tree_find ev FIFFB_SMSH_ASPECT) as [|sa sas] eqn:Es;
      [| discriminate H].
    cbn [length Nat.ltb Nat.leb] in H. apply IH in H. destruct H as [-> HF].
    split; [| constructor; assumption].
    rewrite <- app_assoc. reflexivity.
Qed.

Lemma locate_aspect_sound (ev : node F) (s : aspect_set) (range_a : list nat) :
  forall (p setno : Z) (u : node F * node F),
    locate_aspect ev s range_a p setno = inl (Ok u) ->
    fst u = ev /\ In (snd u) (aspects s).
Proof.
  induction range_a as [|a range_a IH]; intros p setno u H;
    cbn [locate_aspect] in H; [discriminate H |].
  destruct (p =? setno).
  - destruct (nth_error (aspects s) a) as [asp|] eqn:Ea; [| discriminate H].
    injection H as <-. split; [reflexivity |].
    eapply nth_error_In. exact Ea.
  - eapply IH. exact H.
Qed.

Lemma locate_sound (blocks : list (node F * aspect_set)) :
  forall (p setno : Z) (u : node F * node F),
    locate blocks p setno = Ok u ->
    exists s, In (fst u, s) blocks /\ In (snd u) (aspects s).
Proof.
  induction blocks as [|[ev s] blocks IH]; intros p setno u H;
    cbn [locate] in H; [discriminate H |].
  destruct (locate_aspect ev s (seq 0 (naspect s)) p setno) as [found|p']
    eqn:El.
  - subst found. apply locate_aspect_sound in El. destruct El as [<- Hin].
    exists s. split; [now left | exact Hin].
  - apply IH in H. destruct H as (s' & Hin & Ha).
    exists s'. split; [now right | exact Ha].
Qed.

Lemma in_combine_set_of (evs : list (node F)) (ev : node F) (s : aspect_set) :
  In (ev, s) (combine evs (map set_of evs)) -> In ev evs /\ s = set_of ev.
Proof.
  induction evs as [|e evs IH]; cbn [combine map]; [contradiction |].
  intros [H|H].
  - injection H as <- <-. split; [now left | reflexivity].
  - apply IH in H. destruct H as [Hin ->]. split; [now right | reflexivity].
Qed.

(** X23: whatever the selection returns is a selectable unit of the file:
    an evoked block of the measurement block with one of its own aspect
    blocks, never a signal-minus-shield aspect and never a block of
    another evoked block; the selection only returns for an index that is
    not negative and a file without signal-minus-shield aspects. *)
Theorem selection_sound (meas : node F) (setno : Z) (ev asp : node F) :
  select meas setno = Ok (ev, asp) ->
  In ev (dir_tree_find meas FIFFB_EVOKED) /\
  In asp (dir_tree_find ev FIFFB_ASPECT) /\
  In (ev, asp) (selectable_units meas) /\
  0 <= setno /\
  no_smsh meas.
Proof.
  unfold select.
  destruct (Nat.eqb (length (dir_tree_find meas FIFFB_PROCESSED_DATA)) 0);
    [discriminate |].
  destruct (Nat.eqb (length (dir_tree_find meas FIFFB_EVOKED)) 0);
    [discriminate |].
  intros H. apply rbind_Ok in H. destruct H as ([n sets] & Hid & H).
  apply identify_aspects_Ok in Hid. destruct Hid as [-> Hs].
  cbn [app] in H.
  destruct (Z.geb_spec setno (Z.of_nat n)); [discriminate H |].
  destruct (Z.ltb_spec setno 0); [discriminate H |].
  cbn [orb] in H. apply locate_sound in H. cbn [fst snd] in H.
  destruct H as (s & Hin & Ha). apply in_combine_set_of in Hin.
  destruct Hin as [Hev ->]. cbn [set_of aspects] in Ha.
  repeat split; try assumption.
  unfold selectable_units. apply in_flat_map. exists ev.
  split; [exact Hev |]. apply in_map. apply in_or_app. now left.
Qed.

End SelectionSound.

(** ** What the calibration needs *)

Section CalibrationOutcomes.
Context {F : Type} {SF : Scalar F}.
Variables proj comp : Type.

Local Abbreviation meas_info := (@meas_info F proj comp).
Local Abbreviation Evoked := (@Evoked F proj comp).

Lemma cals_of_total (cs : list (ch_info F)) (ks : list nat) :
  Forall (fun k => (k < length cs)%nat) ks ->
  exists cals, cals_of ks cs = Ok cals.
Proof.
  induction 1 as [|k ks Hk _ [cals IH]]; [now exists [] |].
  cbn [cals_of]. destruct (nth_error cs k) as [ch|] eqn:Ek.
  - rewrite IH. cbn [rbind]. now eexists.
  - apply nth_error_None in Ek. lia.
Qed.

Lemma cals_of_short (cs : list (ch_info F)) (n : nat) :
  (length cs < n)%nat -> cals_of (seq 0 n) cs = Raise IndexError.
Proof.
  intros Hn.
  assert (Hgen : forall m off,
             (off <= length cs < off + m)%nat ->
             cals_of (seq off m) cs = Raise IndexError).
  { induction m as [|m IH]; intros off Hoff; [lia |].
    cbn [seq cals_of]. destruct (nth_error cs off) as [ch|] eqn:Ek.
    - assert (Hlt : (off < length cs)%nat)
        by (apply nth_error_Some; congruence).
      rewrite IH by lia. reflexivity.
    - reflexivity. }
  apply Hgen. lia.
Qed.

(** X24: once the blocks are scanned and the epochs put together, the
    assembly without baseline depends on the calibration alone: with
    fewer channel records than the info counts channels it raises an
    [IndexError]; with enough records but a matrix whose number of rows
    is not the channel count, which a single epoch tag can bring and no
    check of the code excludes, [np.dot] raises the [ValueError] of
    mismatched shapes; otherwise the dataset is returned. *)
Theorem calibration_outcomes (i : meas_info) (ev asp : node F)
    (g : gathered proj comp) :
  gather i ev asp = Ok g ->
  (Z.of_nat (length (chs (g_info g))) < nchan (g_info g) ->
   forall baseline, assemble i ev asp baseline = Raise IndexError) /\
  (nchan (g_info g) <= Z.of_nat (length (chs (g_info g))) ->
   nrows (g_raw g) <> Z.to_nat (nchan (g_info g)) ->
   forall baseline,
     assemble i ev asp baseline = Raise (ValueError Shapes_not_aligned)) /\
  (nchan (g_info g) <= Z.of_nat (length (chs (g_info g))) ->
   nrows (g_raw g) = Z.to_nat (nchan (g_info g)) ->
   exists d : Evoked,
     assemble i ev asp None = Ok d /\ info d = g_info g /\
     nrows (data d) = nrows (g_raw g) /\ ncols (data d) = ncols (g_raw g)).
Proof.
  intros Hg. unfold assemble. rewrite Hg. cbn [rbind]. unfold calibrate.
  split; [| split].
  - intros Hlt baseline. rewrite cals_of_short by lia. reflexivity.
  - intros Hle Hrows baseline.
    destruct (@cals_of_total (chs (g_info g))
                             (seq 0 (Z.to_nat (nchan (g_info g)))))
      as [cals Hc].
    { apply Forall_forall. intros k Hk. apply in_seq in Hk. lia. }
    rewrite Hc. cbn [rbind]. apply cals_of_length in Hc.
    rewrite length_seq in Hc. unfold dot, diag. cbn [ncols nrows].
    destruct (Nat.eqb_spec (length cals) (nrows (g_raw g))); [lia |].
    reflexivity.
  - intros Hle Hrows.
    destruct (@cals_of_total (chs (g_info g))
                             (seq 0 (Z.to_nat (nchan (g_info g)))))
      as [cals Hc].
    { apply Forall_forall. intros k Hk. apply in_seq in Hk. lia. }
    rewrite Hc. cbn [rbind]. apply cals_of_length in Hc.
    rewrite length_seq in Hc. unfold dot, diag. cbn [ncols nrows].
    destruct (Nat.eqb_spec (length cals) (nrows (g_raw g))); [| lia].
    cbn [rbind apply_baseline]. eexists. split; [reflexivity |].
    cbn [info data nrows ncols]. repeat split. lia.
Qed.

End CalibrationOutcomes.

(** ** The further properties on the small file *)

Module RunMore.
Import Example Inputs MoreInputs.

Lemma assembled_fields_by_kind_witness :
  last_value (ints_of FIFF_FIRST_SAMPLE (directory evoked0))
  = Some (first dataset0) /\
  nave dataset0
  = value_or 1 (last_value (ints_of FIFF_NAVE (directory aspect0))) /\
  comment dataset0 = "left"%string.
Proof.
  assert (H : assemble info0 evoked0 aspect0 None = Ok dataset0)
    by (vm_compute; reflexivity).
  destruct (assembled_fields_by_kind _ _ _ _ H) as (Hf & _ & _ & Hn & Hc).
  split; [exact Hf |]. split; [exact Hn |]. exact Hc.
Defined.

Lemma assembled_shape_witness :
  wf_matrix (data dataset0) /\
  Z.of_nat (nrows (data dataset0)) = Z.max 0 (nchan (info dataset0)) /\
  Z.of_nat (ncols (data dataset0)) = last dataset0 - first dataset0 + 1.
Proof.
  assert (H : assemble info0 evoked0 aspect0 None = Ok dataset0)
    by (vm_compute; reflexivity).
  destruct (assembled_shape _ _ _ _ H) as (Hwf & Hr & Hc & _).
  split; [exact Hwf |]. split; [exact Hr | exact Hc].
Defined.

Lemma baseline_outside_raises_witness :
  assemble info0 evoked0 aspect0 (Some (Some (q 1), None)) = Raise IndexError.
Proof.
  assert (H : assemble info0 evoked0 aspect0 None = Ok dataset0)
    by (vm_compute; reflexivity).
  apply (proj1 (baseline_outside_raises _ _ _ H)).
  intros t [<-|[<-|[<-|[]]]]; reflexivity.
Defined.

Lemma baseline_mean_is_zero_witness :
  exists (d : @Evoked Qc unit unit) (imin imax : nat),
    assemble info0 evoked0 aspect0 (Some (None, None)) = Ok d /\
    (imin < imax)%nat /\
    Forall (fun row => mean (slice imin imax row) = fzero) (cells (data d)).
Proof.
  destruct (assemble info0 evoked0 aspect0 (Some (None, None)))
    as [d|e] eqn:H; [| vm_compute in H; discriminate H].
  destruct (baseline_mean_is_zero _ _ _ _ _ H)
    as (imin & imax & Hmin & Hmax & Hzero).
  assert (Hlen : length (times d) = 3%nat).
  { vm_compute in H. injection H as <-. reflexivity. }
  cbn [baseline_imin baseline_imax] in Hmin, Hmax. rewrite Hlen in Hmax.
  injection Hmin as <-. injection Hmax as <-.
  exists d, 0%nat, 3%nat. split; [reflexivity |]. split; [lia |].
  apply Hzero. lia.
Defined.

Lemma smsh_files_unreadable_witness :
  exists e, read_evoked_one meas_smsh 0 None = Raise e.
Proof.
  apply (@smsh_files_unreadable
           Qc Qc_scalar unit unit (fiff_open_one "test-ave.fif" meas_smsh)
           (read_meas_info_as info0) "test-ave.fif" 0 None
           (Node FIFFB_ROOT [] [meas_smsh]) info0 meas_smsh).
  - reflexivity.
  - reflexivity.
  - apply Exists_cons_hd. discriminate.
Defined.

Lemma uneven_aspect_counts_raise_witness :
  read_evoked_one meas_uneven 0 None = Raise (ValueError Shapes_not_aligned).
Proof.
  apply (@uneven_aspect_counts_raise
           Qc Qc_scalar unit unit (fiff_open_one "test-ave.fif" meas_uneven)
           (read_meas_info_as info0) "test-ave.fif" 0 None
           (Node FIFFB_ROOT [] [meas_uneven]) info0 meas_uneven).
  - reflexivity.
  - reflexivity.
  - discriminate.
  - repeat constructor.
  - intros [c Hc]. cbn in Hc.
    apply Forall_cons_iff in Hc. destruct Hc as [H1 Hc].
    apply Forall_cons_iff in Hc. destruct Hc as [H2 _].
    cbn in H1, H2. lia.
  - lia.
Defined.

Lemma channel_loop_records_witness :
  nth_error (channel_tags 0 2 (chs (info dataset0))) 1
  = Some (T_ch_info
            (encoded_channel (set_scanno 1 (ch 2 (q 2) "MEG 002")))).
Proof.
  destruct (@channel_loop_records
              Qc Qc_scalar unit unit 2
              {| w_self := dataset0; w_fid := [] |}) as (_ & _ & H).
  apply (H 1%nat); [lia | reflexivity].
Defined.

(** The collaborators that write nothing are quiet. *)
Lemma nothing_quiet :
  quiet_collaborators (@nothing (list (node Qc))) (@nothing (list unit))
                      (@nothing (list unit)).
Proof.
  exact (conj (fun _ => quiet_nil)
              (conj (fun _ => quiet_nil) (fun _ => quiet_nil))).
Defined.

Lemma written_file_layout_witness :
  balanced (w_fid (snd (write_evoked_plain "out.fif" dataset0))).
Proof.
  apply (@written_file_layout
           Qc Qc_scalar unit unit (fun _ => true) (fun m => Ok m)
           (fun _ => Raise IOError) nothing nothing nothing
           "out.fif" dataset0).
  - reflexivity.
  - reflexivity.
  - exact nothing_quiet.
Defined.

Lemma written_file_holds_one_dataset_witness :
  exists e, read_back dataset0 1 = Raise e /\ classify e = SelectionRangeError.
Proof.
  destruct (read_meas_info_as
              info0
              (make_dir_tree (w_fid (snd (write_evoked_plain "out.fif"
                                                             dataset0)))))
    as [[i0 meas]|e] eqn:Hr; [| vm_compute in Hr; discriminate Hr].
  destruct (@written_file_holds_one_dataset
              Qc Qc_scalar unit unit (fun _ => true) (fun m => Ok m)
              (fun _ => Raise IOError) nothing nothing nothing
              "out.fif" dataset0 eq_refl eq_refl nothing_quiet
              (written_file dataset0) (read_meas_info_as info0) "out.fif"
              i0 meas eq_refl Hr) as [_ H].
  - unfold read_meas_info_as in Hr.
    destruct (dir_tree_find _ FIFFB_MEAS); [discriminate Hr |].
    now injection Hr as _ <-.
  - apply (H 1 None). lia.
Defined.

Lemma fields_read_back_witness :
  exists d,
    read_back dataset0 0 = Ok d /\
    nave d = 5 /\ first d = -1 /\ last d = 1 /\
    info d = set_filename (Some "out.fif"%string) info0.
Proof.
  destruct (read_back dataset0 0) as [d|e] eqn:H;
    [| vm_compute in H; discriminate H].
  destruct (read_meas_info_as
              info0
              (make_dir_tree (w_fid (snd (write_evoked_plain "out.fif"
                                                             dataset0)))))
    as [[i0 meas]|e] eqn:Hr; [| vm_compute in Hr; discriminate Hr].
  assert (Hi : i0 = info0 /\
               hd_error
                 (dir_tree_find
                    (make_dir_tree
                       (w_fid (snd (write_evoked_plain "out.fif" dataset0))))
                    FIFFB_MEAS) = Some meas).
  { unfold read_meas_info_as in Hr.
    destruct (dir_tree_find _ FIFFB_MEAS); [discriminate Hr |].
    injection Hr as <- <-. now split. }
  destruct Hi as [-> Hmeas].
  destruct (@fields_read_back
              Qc Qc_scalar unit unit (fun _ => true) (fun m => Ok m)
              (fun _ => Raise IOError) nothing nothing nothing
              "out.fif" dataset0 eq_refl eq_refl nothing_quiet
              (written_file dataset0) (read_meas_info_as info0) "out.fif"
              info0 meas 0 None d eq_refl Hr Hmeas H)
    as (_ & Hinfo & Hn & _ & Hf & Hl & _).
  exists d. split; [reflexivity |].
  split; [exact Hn |]. split; [exact Hf |]. split; [exact Hl | exact Hinfo].
Defined.

Lemma plain_tags_announce_their_size_witness :
  @Bytes.size_field_ok Qc (Bytes.write_int 101 (Bytes.Py_ndarray [1; 2; 3]))
  = true /\
  @Bytes.size_field_ok Qc (Bytes.write_string 206 "left") = true.
Proof.
  destruct (@plain_tags_announce_their_size Qc Qc_scalar 101)
    as (_ & _ & _ & Hnd & _).
  destruct (@plain_tags_announce_their_size Qc Qc_scalar 206)
    as (_ & _ & _ & _ & _ & _ & Hstr & _).
  split; [apply Hnd | apply Hstr]; try reflexivity. discriminate.
Defined.

Lemma struct_tags_announce_their_size_witness :
  exists fs,
    Bytes.write_coord_trans (fun m => Ok m)
      {| from_ := 1; to := 4; trans := identity_4x4 |} = (fs, None) /\
    Bytes.size_field_ok fs = true.
Proof.
  destruct (@struct_tags_announce_their_size Qc Qc_scalar)
    as (_ & _ & _ & _ & H & _).
  apply (H (fun m => Ok m) {| from_ := 1; to := 4; trans := identity_4x4 |}
           identity_4x4); cbn [trans nrows ncols identity_4x4];
    try lia; try reflexivity;
    (split; [reflexivity | repeat constructor]).
Defined.

Lemma channel_record_bytes_witness :
  Bytes.size_field_ok (Bytes.write_ch_info ch_located) = true /\
  Bytes.byte_count (Bytes.write_ch_info ch_located) = 112%nat.
Proof.
  destruct (@channel_record_bytes Qc Qc_scalar ch_located)
    as (Hsize & Hcount & _); [discriminate |].
  split; [apply Hsize; reflexivity | exact Hcount].
Defined.

Lemma local_channel_override_witness :
  exists d,
    assemble info0 evoked_local aspect_local None = Ok d /\
    chs (info d) = [ch 7 (q 3) "LOC 001"] /\ nchan (info d) = 1 /\
    sfreq (info d) = q 1000 /\ lowpass (info d) = q 40.
Proof.
  destruct (assemble info0 evoked_local aspect_local None) as [d|e] eqn:H;
    [| vm_compute in H; discriminate H].
  destruct (proj2 (local_channel_override info0 evoked_local aspect_local None)
                  d H) as (Hloc & _ & Hlow & _).
  exists d. split; [reflexivity |].
  destruct Hloc as (_ & Hchs & Hn & Hs).
  split; [exact Hchs |]. split; [exact Hn |]. split; [exact Hs | exact Hlow].
Defined.

Lemma time_axis_assembled_witness :
  exists d,
    assemble info0 evoked_local aspect_local None = Ok d /\
    sfreq info0 = q 600 /\ sfreq (info d) = q 1000 /\
    nth_error (times d) 2 = Some (fdiv (of_int 1) (q 1000)).
Proof.
  destruct (assemble info0 evoked_local aspect_local None) as [d|e] eqn:H;
    [| vm_compute in H; discriminate H].
  destruct (time_axis_assembled info0 evoked_local aspect_local None H)
    as (_ & _ & Hrate & Hnth).
  assert (Hd : first d = -1 /\ length (times d) = 3%nat).
  { vm_compute in H. injection H as <-. split; reflexivity. }
  destruct Hd as [Hf Hlen].
  exists d. split; [reflexivity |]. split; [reflexivity |].
  split; [exact Hrate |].
  specialize (Hnth 2%nat). rewrite Hf in Hnth. apply Hnth.
  rewrite Hlen. lia.
Defined.

Lemma baseline_correction_witness :
  assemble info0 evoked0 aspect0 (Some (None, Some (q 0)))
  = Ok (set_data
          (mkMat 2 3 [[Q2Qc (-1 # 2); Q2Qc (1 # 2); Q2Qc (3 # 2)];
                      [q (-1); q 1; q 3]])
          dataset0).
Proof.
  assert (H : assemble info0 evoked0 aspect0 None = Ok dataset0)
    by (vm_compute; reflexivity).
  rewrite (proj2 (baseline_correction info0 evoked0 aspect0)
                 None (Some (q 0)) dataset0 0%nat 2%nat H).
  - vm_compute. reflexivity.
  - reflexivity.
  - exists 1%nat. split; [reflexivity |]. split.
    + exists (Q2Qc (0 # 600)). split; reflexivity.
    + intros j t Hj Hn. destruct j as [|[|[|j]]]; try lia.
      * injection Hn as <-. reflexivity.
      * destruct j; discriminate Hn.
Defined.

Lemma written_file_tag_by_tag_witness :
  exists w,
    decalibrated dataset0 = Ok w /\
    w_fid (snd (write_evoked_plain "out.fif" dataset0))
    = prologue_tags dataset0
        ++ meas_info_tags (fun m => Ok m) (fun _ => Raise IOError)
                          nothing nothing nothing dataset0
        ++ [T_block_start FIFFB_PROCESSED_DATA]
        ++ evoked_block_tags dataset0 w ++ epilogue_tags.
Proof.
  destruct (@written_file_tag_by_tag
              Qc Qc_scalar unit unit (fun _ => true) (fun m => Ok m)
              (fun _ => Raise IOError) nothing nothing nothing
              "out.fif" dataset0 eq_refl eq_refl) as (w & Hw & Hf & _).
  exists w. split; [exact Hw | exact Hf].
Defined.

Lemma save_needs_witness :
  Z.of_nat (nrows (data dataset0)) = nchan (info dataset0) /\
  forall (k : nat) (c : ch_info Qc),
    Z.of_nat k < nchan (info dataset0) ->
    nth_error (chs (info dataset0)) k = Some c -> is_zero (cal c) = false.
Proof.
  destruct (@save_needs
              Qc Qc_scalar unit unit (fun _ => true) (fun m => Ok m)
              (fun _ => Raise IOError) nothing nothing nothing
              "out.fif" dataset0)
    as (_ & _ & _ & _ & _ & _ & Hnz & Hrows).
  - reflexivity.
  - split; [exact Hrows | exact Hnz].
Defined.

Lemma second_save_same_file_witness :
  write_evoked_plain "out.fif"
                     (w_self (snd (write_evoked_plain "out.fif" dataset0)))
  = (Ok tt, snd (write_evoked_plain "out.fif" dataset0)).
Proof.
  apply (@second_save_same_file
           Qc Qc_scalar unit unit (fun _ => true) (fun m => Ok m)
           (fun _ => Raise IOError) nothing nothing nothing
           "out.fif" dataset0).
  reflexivity.
Defined.

Lemma save_reopens_the_file_read_witness :
  write_evoked_plain "out.fif" dataset_of_file
  = (Raise IOError,
     {| w_self := dataset_of_file;
        w_fid := prologue_tags dataset_of_file
                   ++ [T_block_start FIFFB_MEAS_INFO] |}).
Proof.
  destruct (@save_reopens_the_file_read
              Qc Qc_scalar unit unit (fun _ => true) (fun m => Ok m)
              (fun _ => Raise IOError) nothing nothing nothing)
    as (_ & H & _).
  apply (H "out.fif"%string "test-ave.fif"%string); reflexivity.
Defined.

Lemma tag_sizes_are_byte_counts_witness :
  Bytes.byte_count (Bytes.write_ch_info ch_located)
  = tag_size (T_ch_info (encoded_channel ch_located)).
Proof.
  destruct (@tag_sizes_are_byte_counts Qc Qc_scalar)
    as (_ & _ & _ & _ & _ & _ & _ & H & _).
  apply H; [discriminate | reflexivity].
Defined.

Lemma selection_sound_witness :
  In evoked0 (dir_tree_find meas0 FIFFB_EVOKED) /\
  In aspect0 (dir_tree_find evoked0 FIFFB_ASPECT) /\
  no_smsh meas0.
Proof.
  assert (H : select meas0 0 = Ok (evoked0, aspect0))
    by (vm_compute; reflexivity).
  destruct (selection_sound _ _ H) as (Hev & Hasp & _ & _ & Hs).
  split; [exact Hev |]. split; [exact Hasp | exact Hs].
Defined.

Lemma calibration_outcomes_witness :
  exists d : @Evoked Qc unit unit,
    assemble info0 evoked0 aspect0 None = Ok d /\
    nrows (data d) = 2%nat /\ ncols (data d) = 3%nat.
Proof.
  destruct (gather info0 evoked0 aspect0) as [g|e] eqn:H;
    [| vm_compute in H; discriminate H].
  destruct (calibration_outcomes _ _ _ H) as (_ & _ & Hok).
  assert (Hg : g_info g = info0 /\ nrows (g_raw g) = 2%nat
               /\ ncols (g_raw g) = 3%nat).
  { vm_compute in H. injection H as <-. repeat split. }
  destruct Hg as (Hi & Hr & Hc).
  destruct Hok as (d & Hd & _ & Hdr & Hdc).
  - rewrite Hi. vm_compute. discriminate.
  - rewrite Hi, Hr. reflexivity.
  - exists d. split; [exact Hd |]. split; congruence.
Defined.

End RunMore.

(** ** The calibration and the round trip in binary64 *)

Module RunBinary64.
Import Binary64.

Lemma nothing_quiet64 :
  quiet_collaborators (@nothing (list (node float))) (@nothing (list unit))
                      (@nothing (list unit)).
Proof.
  exact (conj (fun _ => quiet_nil)
              (conj (fun _ => quiet_nil) (fun _ => quiet_nil))).
Defined.


Lemma round_trip_witness :
  exists d,
    read_evoked (written_file dataset0) (read_meas_info_as info0)
                "out.fif" 0 None = Ok d /\
    same_cells (cells (data d)) (cells (data dataset0)).
Proof.
  destruct (read_meas_info_as
              info0
              (make_dir_tree (w_fid (snd (write_evoked_plain "out.fif"
                                                             dataset0)))))
    as [[i0 meas]|e] eqn:Hr; [| vm_compute in Hr; discriminate Hr].
  assert (Hi : i0 = info0 /\
               hd_error
                 (dir_tree_find
                    (make_dir_tree
                       (w_fid (snd (write_evoked_plain "out.fif" dataset0))))
                    FIFFB_MEAS) = Some meas).
  { unfold read_meas_info_as in Hr.
    destruct (dir_tree_find _ FIFFB_MEAS); [discriminate Hr |].
    injection Hr as <- <-. now split. }
  destruct Hi as [-> Hmeas].
  destruct (@round_trip
              float b64_scalar unit unit (fun _ => true) (fun m => Ok m)
              (fun _ => Raise IOError) nothing nothing nothing
              b64_zero_arith "out.fif" dataset0 epoch_2x3
              [of_Z 1; of_Z 2])
    with (file_system := written_file dataset0)
         (read_meas_info := read_meas_info_as info0)
         (fname := "out.fif"%string) (i0 := info0) (meas := meas)
    as (d & Hd & _ & _ & _ & _ & _ & _ & _ & _ & _ & Hs).
  - reflexivity.
  - vm_compute. reflexivity.
  - exact nothing_quiet64.
  - vm_compute. reflexivity.
  - vm_compute. reflexivity.
  - split; [reflexivity | repeat constructor].
  - repeat constructor.
  - repeat constructor.
  - vm_compute. reflexivity.
  - repeat constructor.
  - reflexivity.
  - reflexivity.
  - exact Hr.
  - exact Hmeas.
  - vm_compute. reflexivity.
  - exists d. split; [exact Hd | exact Hs].
Defined.

End RunBinary64.
